(** * nasberrypi: the OLED menu service ([services/menu/menu.py])

    A shallow embedding of the display/navigation state machine, the
    transition animations, the two game applets' knob handling and the
    weather cache, with the properties stated about them.

    Conventions.
    - Python integers are [Z]; [%] on a positive modulus is [Z.modulo].
    - Wall-clock time ([time.time()], sleeps, timeouts) is an integer number
      of milliseconds.
    - A PIL mode-"1" image is a list of pixel rows, each a list of [bool]. *)

From Stdlib Require Import ZArith QArith Qround Qminmax Lia.
From stdpp Require Import base tactics option list numbers strings gmap.

Local Open Scope Z_scope.

(** ** Display geometry (menu.py, line 20) *)

Definition WIDTH : Z := 128.
Definition HEIGHT : Z := 64.

(** ** Python's [range(start, stop, step)]

    [None] stands for the [ValueError] raised for a zero step; the length
    is the one CPython computes. *)

Definition py_range (start stop step : Z) : option (list Z) :=
  if step =? 0 then None
  else
    let len :=
      if 0 <? step then (stop - start + step - 1) / step
      else (start - stop - step - 1) / (- step) in
    Some ((λ i : nat, start + Z.of_nat i * step) <$> seq 0 (Z.to_nat len)).

(** * Bitmaps and the transition engine *)

Module Transition.

Abbreviation bitmap := (list (list bool)).

(** [Image.new("1", (w, h), fill)] *)
Definition new_image (w h : Z) (fill : bool) : bitmap :=
  replicate (Z.to_nat h) (replicate (Z.to_nat w) fill).

(** Reading a pixel; [None] outside the image. *)
Definition getpixel (b : bitmap) (x y : Z) : option bool :=
  if (0 <=? x) && (0 <=? y)
  then b !! Z.to_nat y ≫= (λ row : list bool, row !! Z.to_nat x)
  else None.

(** [dst.paste(src, (ox, oy))]: the part of [src] that falls inside [dst]
    overwrites it, the rest is clipped. *)
Definition paste (dst src : bitmap) (ox oy : Z) : bitmap :=
  imap (λ y row,
    imap (λ x p, default p (getpixel src (Z.of_nat x - ox) (Z.of_nat y - oy)))
         row) dst.

(** [dst.paste(src, (ox, oy), mask)]: as [paste], but only where the mask
    pixel is set. *)
Definition paste_mask (dst src mask : bitmap) (ox oy : Z) : bitmap :=
  imap (λ y row,
    imap (λ x p,
      match getpixel mask (Z.of_nat x - ox) (Z.of_nat y - oy) with
      | Some true =>
          default p (getpixel src (Z.of_nat x - ox) (Z.of_nat y - oy))
      | _ => p
      end) row) dst.

(** [ImageDraw.Draw(m).line((x0, y, x1, y), fill=1)]: a horizontal line,
    both end points included, clipped to the image. *)
Definition draw_hline (m : bitmap) (x0 x1 y : Z) : bitmap :=
  imap (λ j row,
    if Z.of_nat j =? y
    then imap (λ x p, if (x0 <=? Z.of_nat x) && (Z.of_nat x <=? x1)
                      then true else p) row
    else row) m.

(** The mask of [fade_to_menu], lines 328-332: rows with [y % steps < k]. *)
Definition reveal_mask (steps k : Z) : bitmap :=
  foldl (λ m y, if y `mod` steps <? k then draw_hline m 0 WIDTH y else m)
        (new_image WIDTH HEIGHT false)
        ((λ i : nat, Z.of_nat i) <$> seq 0 (Z.to_nat HEIGHT)).

(** One frame of [slide_transition], lines 314-316. *)
Definition slide_frame (img_from img_to : bitmap) (offset : Z) : bitmap :=
  let frame := new_image WIDTH HEIGHT false in
  let frame := paste frame img_from (- offset) 0 in
  paste frame img_to (WIDTH - offset) 0.

(** [slide_transition(img_from, img_to, delay, step)], lines 312-319: the
    frames handed to the display, in order. *)
Definition slide_transition (img_from img_to : bitmap) (step : Z)
  : option (list bitmap) :=
  match py_range 0 (WIDTH + 1) step with
  | Some offsets => Some (slide_frame img_from img_to <$> offsets)
  | None => None
  end.

(** One frame of [fade_to_menu], lines 325-333. *)
Definition fade_frame (from_img to_menu_img : bitmap) (steps k : Z) : bitmap :=
  let frame := new_image WIDTH HEIGHT false in
  let frame := paste frame from_img 0 0 in
  paste_mask frame to_menu_img (reveal_mask steps k) 0 0.

(** [fade_to_menu(from_img, to_menu_img, duration, steps)], lines 321-336.
    [duration / steps] raises [ZeroDivisionError] for [steps = 0]. *)
Definition fade_to_menu (from_img to_menu_img : bitmap) (steps : Z)
  : option (list bitmap) :=
  if steps =? 0 then None
  else
    match py_range 1 (steps + 1) 1 with
    | Some ks => Some (fade_frame from_img to_menu_img steps <$> ks)
    | None => None
    end.

(** Every image the program builds is [WIDTH] by [HEIGHT]. *)
Definition wfb (b : bitmap) : bool :=
  (length b =? Z.to_nat HEIGHT)%nat
  && forallb (λ row : list bool, (length row =? Z.to_nat WIDTH)%nat) b.

Definition wf (b : bitmap) : Prop := wfb b = true.

End Transition.

(** * The navigation state machine *)

Module Nav.

(** ** Constants (menu.py, lines 46-101) *)

Definition menu_items : list string :=
  ["Show Clock"; "Show Uptime"; "Load Average"; "Disk Space"; "SMART Status";
   "Animation"; "Game of Life"; "Space Invaders"; "Restart Jellyfin";
   "Restart Samba"; "PowerOff"; "Reboot"]%string.

Definition VISIBLE_LINES : Z := 7.
Definition IDLE_TIMEOUT : Z := 30000.      (* 30.0 s *)
Definition FADE_DURATION : Z := 500.       (* 0.5 s *)
Definition MAX_STEPS : Z := 999.           (* RotaryEncoder(max_steps=999) *)
Definition JOIN_TIMEOUT : Z := 1000.       (* join(timeout=1) *)
Definition DWELL : Z := 15000.             (* elapsed > 15 *)
Definition TICK : Z := 50.                 (* time.sleep(0.05) *)

(** ** Data *)

(** [current_view] is one of the strings "menu" and "background". *)
Inductive view := ViewMenu | ViewBackground.

(** The callables of the [actions] table in [perform_action]. *)
Inductive action :=
  | screen_clock | screen_uptime | screen_loadavg | screen_diskspace
  | screen_smart | screen_animation | screen_gameoflife | screen_spaceinvaders
  | restart_jellyfin | restart_samba | poweroff | reboot.

(** A [threading.Thread] as the handlers see it: its target, [is_alive()],
    and how long a [join] started on it has to wait for it to finish
    ([None]: it does not finish, whatever the wait). *)
Record task := mkTask {
  target : action;
  alive : bool;
  exit_in : option Z;
}.

(** The renderers are opaque: a bitmap is named by the call that drew it.
    The menu bitmap depends on [selected_index] and [menu_offset] only; the
    dashboard bitmaps depend on the sensors at the time of the call. *)
Inductive screen :=
  | MenuImg (selected offset : Z)
  | SystemImg (at_time : Z)
  | WeatherImg (at_time : Z).

Inductive display_op :=
  | Show (img : screen)
  | Slide (img_from img_to : screen) (step : Z)
  | Fade (from_img to_menu_img : screen) (steps : Z).

(** The module-level globals, the encoder's counter, the clock and the
    display. [submenu_thread] is a handle into [threads], the list of every
    thread started so far; [clock] is what [time.time()] returns now;
    [display_log] is what has been sent to the display, oldest first. *)
Record state := mkState {
  selected_index : Z;
  menu_offset : Z;
  encoder_steps : Z;
  submenu_thread : option nat;
  threads : list task;
  stop_event : bool;
  current_view : view;
  show_weather : bool;
  background_cycle_start : Z;
  last_user_activity : Z;
  clock : Z;
  display_log : list display_op;
}.

Definition set_selected_index (v : Z) (s : state) : state :=
  mkState v (menu_offset s) (encoder_steps s) (submenu_thread s) (threads s)
    (stop_event s) (current_view s) (show_weather s)
    (background_cycle_start s) (last_user_activity s) (clock s)
    (display_log s).

Definition set_menu_offset (v : Z) (s : state) : state :=
  mkState (selected_index s) v (encoder_steps s) (submenu_thread s)
    (threads s) (stop_event s) (current_view s) (show_weather s)
    (background_cycle_start s) (last_user_activity s) (clock s)
    (display_log s).

Definition set_encoder_steps (v : Z) (s : state) : state :=
  mkState (selected_index s) (menu_offset s) v (submenu_thread s) (threads s)
    (stop_event s) (current_view s) (show_weather s)
    (background_cycle_start s) (last_user_activity s) (clock s)
    (display_log s).

Definition set_submenu_thread (v : option nat) (s : state) : state :=
  mkState (selected_index s) (menu_offset s) (encoder_steps s) v (threads s)
    (stop_event s) (current_view s) (show_weather s)
    (background_cycle_start s) (last_user_activity s) (clock s)
    (display_log s).

Definition set_threads (v : list task) (s : state) : state :=
  mkState (selected_index s) (menu_offset s) (encoder_steps s)
    (submenu_thread s) v (stop_event s) (current_view s) (show_weather s)
    (background_cycle_start s) (last_user_activity s) (clock s)
    (display_log s).

Definition set_stop_event (v : bool) (s : state) : state :=
  mkState (selected_index s) (menu_offset s) (encoder_steps s)
    (submenu_thread s) (threads s) v (current_view s) (show_weather s)
    (background_cycle_start s) (last_user_activity s) (clock s)
    (display_log s).

Definition set_current_view (v : view) (s : state) : state :=
  mkState (selected_index s) (menu_offset s) (encoder_steps s)
    (submenu_thread s) (threads s) (stop_event s) v (show_weather s)
    (background_cycle_start s) (last_user_activity s) (clock s)
    (display_log s).

Definition set_show_weather (v : bool) (s : state) : state :=
  mkState (selected_index s) (menu_offset s) (encoder_steps s)
    (submenu_thread s) (threads s) (stop_event s) (current_view s) v
    (background_cycle_start s) (last_user_activity s) (clock s)
    (display_log s).

Definition set_background_cycle_start (v : Z) (s : state) : state :=
  mkState (selected_index s) (menu_offset s) (encoder_steps s)
    (submenu_thread s) (threads s) (stop_event s) (current_view s)
    (show_weather s) v (last_user_activity s) (clock s) (display_log s).

Definition set_last_user_activity (v : Z) (s : state) : state :=
  mkState (selected_index s) (menu_offset s) (encoder_steps s)
    (submenu_thread s) (threads s) (stop_event s) (current_view s)
    (show_weather s) (background_cycle_start s) v (clock s) (display_log s).

Definition set_clock (v : Z) (s : state) : state :=
  mkState (selected_index s) (menu_offset s) (encoder_steps s)
    (submenu_thread s) (threads s) (stop_event s) (current_view s)
    (show_weather s) (background_cycle_start s) (last_user_activity s) v
    (display_log s).

Definition set_display_log (v : list display_op) (s : state) : state :=
  mkState (selected_index s) (menu_offset s) (encoder_steps s)
    (submenu_thread s) (threads s) (stop_event s) (current_view s)
    (show_weather s) (background_cycle_start s) (last_user_activity s)
    (clock s) v.

(** ** Threads *)

(** [submenu_thread and submenu_thread.is_alive()] *)
Definition applet_alive (s : state) : bool :=
  match submenu_thread s with
  | Some i => match threads s !! i with
              | Some t => alive t
              | None => false
              end
  | None => false
  end.

(** [time.sleep(d)] and every other wait: the clock moves on. *)
Definition sleep (d : Z) (s : state) : state := set_clock (clock s + d) s.

(** [threads[i].join(timeout)]: the caller waits until the thread has
    finished or the timeout has passed, whichever comes first. *)
Definition join (timeout : Z) (i : nat) (s : state) : state :=
  match threads s !! i with
  | Some t =>
      match exit_in t with
      | Some l =>
          if l <=? timeout
          then set_threads
                 (<[i := mkTask (target t) false (exit_in t)]> (threads s))
                 (sleep (Z.max 0 l) s)
          else set_threads
                 (<[i := mkTask (target t) (alive t) (Some (l - timeout))]>
                    (threads s))
                 (sleep timeout s)
      | None => sleep timeout s
      end
  | None => s
  end.

(** ** Small helpers (lines 121-126) *)

Definition now_ts (s : state) : Z := clock s.

Definition mark_activity (s : state) : state :=
  set_last_user_activity (now_ts s) s.

(** [display.image(img); display.show()] *)
Definition display_image (op : display_op) (s : state) : state :=
  set_display_log (display_log s ++ [op]) s.

(** ** Transitions, as the state machine sees them (lines 312-336)

    The frames themselves are computed by [Transition.slide_transition] and
    [Transition.fade_to_menu]; here the call is recorded and the time spent
    sleeping between the frames is added to the clock. *)

Definition slide_transition (img_from img_to : screen) (delay step : Z)
    (s : state) : state :=
  match py_range 0 (WIDTH + 1) step with
  | Some offsets =>
      sleep (delay * Z.of_nat (length offsets))
            (display_image (Slide img_from img_to step) s)
  | None => s
  end.

Definition fade_to_menu (from_img to_menu_img : screen) (duration steps : Z)
    (s : state) : state :=
  let delay := Z.max 10 (duration / steps) in
  sleep (delay * Z.max 0 steps)
        (display_image (Fade from_img to_menu_img steps) s).

(** ** Menu rendering (lines 341-368 and 829-849) *)

(** Lines 347-350 and 834-837: make the selected item visible. *)
Definition ensure_visible (s : state) : state :=
  if selected_index s <? menu_offset s
  then set_menu_offset (selected_index s) s
  else if selected_index s >=? menu_offset s + VISIBLE_LINES
       then set_menu_offset (selected_index s - VISIBLE_LINES + 1) s
       else s.

Definition show_menu (s : state) : state :=
  let s := ensure_visible s in
  display_image (Show (MenuImg (selected_index s) (menu_offset s))) s.

Definition render_menu_image_only (s : state) : screen * state :=
  let s := ensure_visible s in
  (MenuImg (selected_index s) (menu_offset s), s).

(** ** Thread orchestration (lines 782-792) *)

(** [lat] is what the environment decides about the new thread: how long a
    later [join] on it will have to wait. *)
Definition start_submenu (tgt : action) (lat : option Z) (s : state)
  : state :=
  let s := set_stop_event false s in
  let s := set_submenu_thread (Some (length (threads s))) s in
  set_threads (threads s ++ [mkTask tgt true lat]) s.

Definition stop_submenu (s : state) : state :=
  let s := set_stop_event true s in
  let s := match submenu_thread s with
           | Some i => if applet_alive s then join JOIN_TIMEOUT i s else s
           | None => s
           end in
  show_menu s.

(** ** Actions (lines 797-814) *)

Definition actions (index : Z) : option action :=
  match index with
  | 0 => Some screen_clock
  | 1 => Some screen_uptime
  | 2 => Some screen_loadavg
  | 3 => Some screen_diskspace
  | 4 => Some screen_smart
  | 5 => Some screen_animation
  | 6 => Some screen_gameoflife
  | 7 => Some screen_spaceinvaders
  | 8 => Some restart_jellyfin
  | 9 => Some restart_samba
  | 10 => Some poweroff
  | 11 => Some reboot
  | _ => None
  end.

Definition perform_action (index : Z) (lat : option Z) (s : state) : state :=
  match actions index with
  | Some act => start_submenu act lat s
  | None => s
  end.

(** ** Wake to menu from background (lines 819-827) *)

Definition wake_to_menu (s : state) : state :=
  match current_view s with
  | ViewBackground =>
      let bg_img := if negb (show_weather s) then SystemImg (now_ts s)
                    else WeatherImg (now_ts s) in
      let '(menu_img, s) := render_menu_image_only s in
      let s := fade_to_menu bg_img menu_img FADE_DURATION 10 s in
      let s := set_current_view ViewMenu s in
      show_menu s
  | ViewMenu => s
  end.

(** ** Buttons and encoder handlers (lines 854-886) *)

Definition confirm_pressed (lat : option Z) (s : state) : state :=
  let s := mark_activity s in
  match current_view s with
  | ViewBackground => wake_to_menu s
  | ViewMenu =>
      if applet_alive s then set_stop_event true s
      else perform_action (selected_index s) lat s
  end.

Definition back_pressed (s : state) : state :=
  let s := mark_activity s in
  match current_view s with
  | ViewBackground => wake_to_menu s
  | ViewMenu =>
      if applet_alive s then set_stop_event true s
      else show_menu s
  end.

Definition knob_pressed (lat : option Z) (s : state) : state :=
  confirm_pressed lat s.

Definition on_rotate (s : state) : state :=
  let s := mark_activity s in
  match current_view s with
  | ViewBackground => wake_to_menu s
  | ViewMenu =>
      if applet_alive s then s
      else
        let s := set_selected_index
                   (encoder_steps s `mod` Z.of_nat (length menu_items)) s in
        show_menu s
  end.

(** ** Event wiring (lines 889-898) *)

(** The encoder counts the detents itself and then calls [when_rotated].
    With [max_steps=999] and no wrapping its counter stops at +-999. *)
Definition encoder_turn (delta : Z) (s : state) : state :=
  set_encoder_steps
    (Z.max (- MAX_STEPS) (Z.min MAX_STEPS (encoder_steps s + delta))) s.

Definition encoder_when_rotated (delta : Z) (s : state) : state :=
  on_rotate (encoder_turn delta s).

Definition btn_confirm_when_pressed (lat : option Z) (s : state) : state :=
  if negb (applet_alive s) then confirm_pressed lat s else stop_submenu s.

Definition btn_back_when_pressed (s : state) : state :=
  if applet_alive s then stop_submenu s else back_pressed s.

Definition btn_knob_when_pressed (lat : option Z) (s : state) : state :=
  knob_pressed lat s.

(** ** Main loop (lines 903-954) *)

Definition show_background_loop_frame (s : state) : state :=
  let s := if background_cycle_start s =? 0
           then set_background_cycle_start (now_ts s) s else s in
  let elapsed := now_ts s - background_cycle_start s in
  if show_weather s && (elapsed >? DWELL) then
    let w := WeatherImg (now_ts s) in
    let sy := SystemImg (now_ts s) in
    let s := slide_transition w sy 10 8 s in
    let s := set_show_weather false s in
    set_background_cycle_start (now_ts s) s
  else if negb (show_weather s) && (elapsed >? DWELL) then
    let sy := SystemImg (now_ts s) in
    let w := WeatherImg (now_ts s) in
    let s := slide_transition sy w 10 8 s in
    let s := set_show_weather true s in
    set_background_cycle_start (now_ts s) s
  else
    let frame := if show_weather s then WeatherImg (now_ts s)
                 else SystemImg (now_ts s) in
    display_image (Show frame) s.

(** One iteration of the [while True] loop of [main]. *)
Definition main_tick (s : state) : state :=
  let s := sleep TICK s in
  if applet_alive s then s
  else
    match current_view s with
    | ViewMenu =>
        if now_ts s - last_user_activity s >=? IDLE_TIMEOUT then
          let sys_img := SystemImg (now_ts s) in
          let '(menu_img, s) := render_menu_image_only s in
          let s := slide_transition menu_img sys_img 10 8 s in
          let s := set_current_view ViewBackground s in
          let s := set_show_weather false s in
          set_background_cycle_start (now_ts s) s
        else s
    | ViewBackground => show_background_loop_frame s
    end.

(** The module-level globals once the file has been loaded at time [t0],
    and the prologue of [main] (lines 931-933). *)
Definition globals (t0 : Z) : state :=
  {| selected_index := 0; menu_offset := 0; encoder_steps := 0;
     submenu_thread := None; threads := []; stop_event := false;
     current_view := ViewMenu; show_weather := false;
     background_cycle_start := 0; last_user_activity := t0;
     clock := t0; display_log := [] |}.

Definition init (t0 : Z) : state :=
  let s := show_menu (globals t0) in
  set_last_user_activity (now_ts s) s.

(** ** Everything that can happen to the state

    The input events, an iteration of the main loop, and the two things the
    environment does on its own: time passes, and a running thread
    finishes. *)
Inductive event :=
  | Rotate (delta : Z)
  | Confirm (lat : option Z)
  | Back
  | KnobPress (lat : option Z)
  | Tick
  | Elapse (d : Z)
  | TaskExit (i : nat).

Definition task_exit (i : nat) (s : state) : state :=
  match threads s !! i with
  | Some t =>
      set_threads (<[i := mkTask (target t) false (exit_in t)]> (threads s)) s
  | None => s
  end.

Definition step (s : state) (e : event) : state :=
  match e with
  | Rotate delta => encoder_when_rotated delta s
  | Confirm lat => btn_confirm_when_pressed lat s
  | Back => btn_back_when_pressed s
  | KnobPress lat => btn_knob_when_pressed lat s
  | Tick => main_tick s
  | Elapse d => sleep (Z.max 0 d) s
  | TaskExit i => task_exit i s
  end.

Definition run (s : state) (es : list event) : state := foldl step s es.

Inductive reachable : state → Prop :=
  | reachable_init t0 : reachable (init t0)
  | reachable_step s e : reachable s → reachable (step s e).

Definition is_input (e : event) : bool :=
  match e with
  | Rotate _ | Confirm _ | Back | KnobPress _ => true
  | _ => false
  end.

(** The thread behind the handle, if it is still running, finishes within
    the timeout of the [join] in [stop_submenu]. *)
Definition exits_in_time (s : state) : bool :=
  match submenu_thread s with
  | Some i =>
      match threads s !! i with
      | Some t =>
          negb (alive t)
          || match exit_in t with
             | Some l => l <=? JOIN_TIMEOUT
             | None => false
             end
      | None => true
      end
  | None => true
  end.

(** The thread behind the handle is running and never finishes. *)
Definition hung (s : state) : bool :=
  match submenu_thread s with
  | Some i =>
      match threads s !! i with
      | Some t => alive t && bool_decide (exit_in t = None)
      | None => false
      end
  | None => false
  end.

Definition is_task_exit (e : event) : bool :=
  match e with
  | TaskExit _ => true
  | _ => false
  end.

Definition sumZ (l : list Z) : Z := foldr Z.add 0 l.

(** The transitions the program asks for: slides in steps of 8 pixels and
    fades in 10 steps. *)
Definition standard_op (op : display_op) : Prop :=
  match op with
  | Show _ => True
  | Slide _ _ step => step = 8
  | Fade _ _ steps => steps = 10
  end.

(** The frames a recorded display call stands for, given the bitmaps the
    renderers produced. *)
Definition frames_of (render : screen → Transition.bitmap) (op : display_op)
  : option (list Transition.bitmap) :=
  match op with
  | Show img => Some [render img]
  | Slide a b step => Transition.slide_transition (render a) (render b) step
  | Fade a b steps => Transition.fade_to_menu (render a) (render b) steps
  end.

End Nav.

(** * The two game applets and the knob binding *)

Module Applet.

(** What [btn_knob.when_pressed] can be bound to: the menu's
    [knob_pressed], or the closure of one of the games. *)
Inductive knob_handler :=
  | knob_pressed
  | fire_bullet
  | regenerate_pressed.

(** What [encoder.when_rotated] can be bound to: [on_rotate], or the
    [lambda: None] of [disable_menu_rotation]. *)
Inductive rotate_handler :=
  | on_rotate
  | ignore_rotation.

(** What the task body reads and writes: the two callback slots, and
    counters of the reads of the cancellation condition, of the calls to
    the display, and of the time slept (ms). *)
Record world := mkWorld {
  knob_when_pressed : knob_handler;
  encoder_when_rotated : rotate_handler;
  polls : nat;
  display_calls : nat;
  slept : Z;
}.

(** What the body cannot decide itself. The game rules are deterministic in
    the source; letting the environment choose their outcome covers every
    run the source has. *)
Record env := mkEnv {
  (* [stop_event.is_set() or btn_back.is_pressed], at the n-th read *)
  cancelled : nat → bool;
  (* the exception the n-th display call raises, if any *)
  fault : nat → option string;
  (* loop iteration n of Space Invaders ends with an alien at the player *)
  game_over : nat → bool;
  (* [regenerate_event.is_set()] in loop iteration n of Game of Life *)
  regenerate : nat → bool;
  (* [int(delay / 0.01)] in loop iteration n of Game of Life *)
  delay_ticks : nat → nat;
}.

(** How a piece of the body ends: it falls through with a value, executes
    [return], raises, or is still running when the fuel of the enclosing
    [while True] is used up. *)
Inductive result (A : Type) :=
  | Val (a : A)
  | Return
  | Raise (e : string)
  | Running.
Arguments Val {A} a.
Arguments Return {A}.
Arguments Raise {A} e.
Arguments Running {A}.

Definition M (A : Type) : Type := world → result A * world.

Definition ret {A} (a : A) : M A := λ w, (Val a, w).

Definition bind {A B} (m : M A) (f : A → M B) : M B :=
  λ w, match m w with
       | (Val a, w') => f a w'
       | (Return, w') => (Return, w')
       | (Raise e, w') => (Raise e, w')
       | (Running, w') => (Running, w')
       end.

Notation "'let*' x := m 'in' k" := (bind m (λ x, k))
  (at level 10, x name, m at level 100, k at level 200).
Notation "m >> k" := (bind m (λ _, k))
  (at level 100, k at level 200, right associativity).

Definition return_ {A} : M A := λ w, (Return, w).

(** [try: body finally: cleanup]. The cleanup runs however the body ended;
    a body that has not ended has not reached it. *)
Definition try_finally {A} (body : M A) (cleanup : M unit) : M A :=
  λ w, match body w with
       | (Running, w') => (Running, w')
       | (r, w') =>
           match cleanup w' with
           | (Val _, w'') => (r, w'')
           | (Return, w'') => (Return, w'')
           | (Raise e, w'') => (Raise e, w'')
           | (Running, w'') => (Running, w'')
           end
       end.

(** [for _ in range(n): body] *)
Fixpoint for_range (n : nat) (body : M unit) : M unit :=
  match n with
  | O => ret tt
  | S n' => body >> for_range n' body
  end.

(** [while True: body], [i] counting the iterations. *)
Fixpoint while_true (fuel : nat) (body : nat → M unit) (i : nat) : M unit :=
  match fuel with
  | O => λ w, (Running, w)
  | S fuel' => body i >> while_true fuel' body (S i)
  end.

Section Body.
Variable E : env.

Definition get_knob : M knob_handler := λ w, (Val (knob_when_pressed w), w).

Definition set_knob (h : knob_handler) : M unit :=
  λ w, (Val tt, mkWorld h (encoder_when_rotated w) (polls w)
                        (display_calls w) (slept w)).

Definition set_rotated (h : rotate_handler) : M unit :=
  λ w, (Val tt, mkWorld (knob_when_pressed w) h (polls w)
                        (display_calls w) (slept w)).

(** Lines 106-116; an assignment does not raise. *)
Definition disable_menu_rotation : M unit := set_rotated ignore_rotation.
Definition enable_menu_rotation : M unit := set_rotated on_rotate.

(** [stop_event.is_set() or btn_back.is_pressed] *)
Definition poll : M bool :=
  λ w, (Val (cancelled E (polls w)),
        mkWorld (knob_when_pressed w) (encoder_when_rotated w) (S (polls w))
                (display_calls w) (slept w)).

(** [display.image(image); display.show()] *)
Definition display : M unit :=
  λ w, let w' := mkWorld (knob_when_pressed w) (encoder_when_rotated w)
                         (polls w) (S (display_calls w)) (slept w) in
       match fault E (display_calls w) with
       | Some e => (Raise e, w')
       | None => (Val tt, w')
       end.

Definition sleep (ms : Z) : M unit :=
  λ w, (Val tt, mkWorld (knob_when_pressed w) (encoder_when_rotated w)
                        (polls w) (display_calls w) (slept w + ms)).

(** [if stop_event.is_set() or btn_back.is_pressed: return] *)
Definition check_cancel : M unit :=
  let* c := poll in if c : bool then return_ else ret tt.

(** One iteration of the loop of [screen_spaceinvaders], lines 435-524. *)
Definition spaceinvaders_frame (i : nat) : M unit :=
  check_cancel >>
  (* lines 438-491: player, aliens, bullets, next wave *)
  if game_over E i then
    display >> sleep 1500 >> return_
  else
    display >> sleep 30.

(** [screen_spaceinvaders], lines 390-527. *)
Definition screen_spaceinvaders (fuel : nat) : M unit :=
  disable_menu_rotation >>
  let* old_knob_handler := get_knob in
  set_knob fire_bullet >>
  try_finally
    (while_true fuel spaceinvaders_frame 0)
    (set_knob old_knob_handler >> enable_menu_rotation).

(** [draw_grid(grid, alpha)] in a fade loop of lines 574-584. *)
Definition fade_pass : M unit :=
  for_range 11 (check_cancel >> display >> sleep 30).

(** One iteration of the loop of [screen_gameoflife], lines 570-603;
    [rows = HEIGHT // cell_size = 32]. *)
Definition gameoflife_frame (i : nat) : M unit :=
  check_cancel >>
  (if regenerate E i then
     fade_pass >>
     (* grid = randomize_grid() *)
     fade_pass
     (* regenerate_event.clear() *)
   else ret tt) >>
  for_range 32 check_cancel >>
  display >>
  for_range (delay_ticks E i) (check_cancel >> sleep 10).

(** [screen_gameoflife], lines 529-605. *)
Definition screen_gameoflife (fuel : nat) : M unit :=
  let* old_knob_handler := get_knob in
  set_knob regenerate_pressed >>
  (* grid = randomize_grid() *)
  try_finally
    (while_true fuel gameoflife_frame 0)
    (set_knob old_knob_handler).

End Body.

(** The bindings while the menu is shown, and an environment in which
    nothing happens. *)
Definition menu_world : world := mkWorld knob_pressed on_rotate 0 0 0.

Definition quiet : env :=
  mkEnv (λ _, false) (λ _, None) (λ _, false) (λ _, false) (λ _, 8%nat).

(** The task has finished: it returned or raised. *)
Definition finished {A} (r : result A) : bool :=
  match r with
  | Running => false
  | _ => true
  end.

(** A piece of the loop body leaves both callback slots alone, never
    un-reads the cancellation condition, and ends. *)
Definition steady {A} (m : M A) : Prop :=
  ∀ w, knob_when_pressed (m w).2 = knob_when_pressed w ∧
       encoder_when_rotated (m w).2 = encoder_when_rotated w ∧
       (polls w ≤ polls (m w).2)%nat ∧
       (m w).1 ≠ Running.

End Applet.

(** * The weather cache *)

Module Weather.

Definition WEATHER_UPDATE_INTERVAL : Z := 600000.   (* 600 s *)

(** What [r.json()] returns. Numbers are rationals; an object is the list
    of its members. *)
#[local] Unset Elimination Schemes.
Inductive json :=
  | JNull
  | JBool (b : bool)
  | JNum (q : Q)
  | JStr (s : string)
  | JList (l : list json)
  | JObj (members : list (string * json)).
#[local] Set Elimination Schemes.

Inductive condition := rain | snow | sun | storm | cloud.

(** The dict kept in [cached_weather]. *)
Record snapshot := mkSnapshot {
  temp_f : Q;
  cond : condition;
  forecast : list Q;
}.

(** The two globals of [get_weather], and the number of HTTP requests made
    so far. *)
Record cache := mkCache {
  last_weather_update : Z;
  cached_weather : snapshot;
  requests_sent : nat;
}.

(** At load time (lines 75-76). *)
Definition initial_cache : cache :=
  mkCache 0 (mkSnapshot 0 sun []) 0.

Fixpoint assoc (key : string) (members : list (string * json)) : option json :=
  match members with
  | [] => None
  | (k, v) :: rest => if String.eqb k key then Some v else assoc key rest
  end.

(** In the functions below [None] stands for an exception, all of them
    subclasses of [Exception]. *)

(** [j[key]]: [TypeError] unless [j] is a dict, [KeyError] without the key. *)
Definition getitem (j : json) (key : string) : option json :=
  match j with
  | JObj members => assoc key members
  | _ => None
  end.

(** [j.get(key, dflt)]: [AttributeError] unless [j] is a dict. *)
Definition dict_get (j : json) (key : string) (dflt : json) : option json :=
  match j with
  | JObj members => Some (default dflt (assoc key members))
  | _ => None
  end.

(** The values [t * 9 / 5 + 32] is defined on: numbers, and booleans as 0
    and 1; everything else ends in a [TypeError]. *)
Definition number (j : json) : option Q :=
  match j with
  | JNum q => Some q
  | JBool b => Some (if b then 1 else 0)%Q
  | _ => None
  end.

Definition to_fahrenheit (t : Q) : Q := (t * 9 / 5 + 32)%Q.

(** [code in [c1, c2, ...]]: equality with a value that is not a number is
    false, not an error. *)
Definition code_in (code : json) (codes : list Z) : bool :=
  match number code with
  | Some q => existsb (λ c, Qeq_bool q (inject_Z c)) codes
  | None => false
  end.

(** Lines 182-186. *)
Definition classify (code : json) : condition :=
  if code_in code [61; 63; 65; 80; 81] then rain
  else if code_in code [71; 73; 75; 77; 85; 86] then snow
  else if code_in code [0; 1; 2; 3] then sun
  else if code_in code [95; 96; 99] then storm
  else cloud.

(** [v[:4]] followed by the comprehension of line 189: a list of numbers
    gives its first four converted; an empty string gives the empty list;
    anything else raises. *)
Definition first_temps (v : json) : option (list Q) :=
  match v with
  | JList l => mapM (λ t, to_fahrenheit <$> number t) (take 4 l)
  | JStr EmptyString => Some []
  | _ => None
  end.

(** Lines 178-190: the new value of [cached_weather], or an exception. *)
Definition parse (data : json) : option snapshot :=
  match getitem data "current_weather" with
  | None => None
  | Some cur =>
    match getitem cur "temperature" with
    | None => None
    | Some temp_c =>
      match number temp_c with
      | None => None
      | Some c =>
        match dict_get cur "weathercode" (JNum 0) with
        | None => None
        | Some code =>
          match dict_get data "hourly" (JObj []) with
          | None => None
          | Some hourly =>
            match dict_get hourly "temperature_2m" (JList [temp_c]) with
            | None => None
            | Some temps =>
              match first_temps temps with
              | None => None
              | Some temp_fs =>
                  Some (mkSnapshot (to_fahrenheit c) (classify code) temp_fs)
              end
            end
          end
        end
      end
    end
  end.

(** [get_weather()], lines 164-194. [now] is the time read on line 166 and
    [now'] the one read on line 191; [response] is what
    [requests.get(...).json()] returns, [None] when either call raises. *)
Definition get_weather (now now' : Z) (response : option json) (c : cache)
  : snapshot * cache :=
  if now - last_weather_update c <? WEATHER_UPDATE_INTERVAL
  then (cached_weather c, c)
  else
    let c := mkCache (last_weather_update c) (cached_weather c)
                     (S (requests_sent c)) in
    match response with
    | Some data =>
        match parse data with
        | Some w =>
            let c := mkCache (last_weather_update c) w (requests_sent c) in
            let c := mkCache now' (cached_weather c) (requests_sent c) in
            (cached_weather c, c)
        | None => (cached_weather c, c)
        end
    | None => (cached_weather c, c)
    end.

(** The fetch or the parsing of its answer raises. *)
Definition fetch_raises (response : option json) : bool :=
  match response with
  | Some data => match parse data with
                 | Some _ => false
                 | None => true
                 end
  | None => true
  end.

(** An answer of the weather service: 20 degrees, light rain, and an
    hourly list whose third entry is [null]. *)
Definition answer (hourly : list json) : json :=
  JObj [("current_weather"%string,
         JObj [("temperature"%string, JNum 20);
               ("weathercode"%string, JNum 61)]);
        ("hourly"%string,
         JObj [("temperature_2m"%string, JList hourly)])].

Definition good_hourly : list json :=
  [JNum 20; JNum 25; JNum 30; JNum 35; JNum 40].
Definition bad_hourly : list json := [JNum 20; JNum 25; JNull; JNum 35].

End Weather.

(** * What the menu draws, and what holds in every state *)

Module Menu.
Import Nav.

(** Python's [l[start:stop]] on a list. *)
Definition py_slice {A} (l : list A) (start stop : Z) : list A :=
  let n := Z.of_nat (length l) in
  let norm i := if i <? 0 then Z.max (i + n) 0 else Z.min i n in
  take (Z.to_nat (norm stop - norm start)) (drop (Z.to_nat (norm start)) l).

(** One text row of the menu: where it starts, its label, and whether it
    is drawn inverted as the selected one. *)
Record row := mkRow {
  row_y : Z;
  row_label : string;
  row_selected : bool;
}.

(** Lines 352-364 of [show_menu] (and 838-848 of
    [render_menu_image_only]): the rows drawn for a selection and an
    offset. *)
Definition menu_rows (selected offset : Z) : list row :=
  let visible_items := py_slice menu_items offset (offset + VISIBLE_LINES) in
  let total_height := Z.of_nat (length visible_items) * 8 in
  let top_margin := Z.max 0 ((HEIGHT - total_height) / 2) in
  imap (λ i item,
          let y := top_margin + Z.of_nat i * 8 in
          let absolute_index := offset + Z.of_nat i in
          mkRow y item (bool_decide (absolute_index = selected)))
       visible_items.

(** The selection is a menu item, and the window of visible items starts
    at an item, contains the selection and ends within the list. *)
Definition menu_ok (s : state) : Prop :=
  0 ≤ selected_index s < Z.of_nat (length menu_items) ∧
  0 ≤ menu_offset s ∧
  menu_offset s ≤ selected_index s < menu_offset s + VISIBLE_LINES ∧
  menu_offset s + VISIBLE_LINES ≤ Z.of_nat (length menu_items).

(** The dashboard image drawn at the current time. *)
Definition bg_image (s : state) : screen :=
  if show_weather s then WeatherImg (clock s) else SystemImg (clock s).

(** The handle points into the thread list, and no thread but the one
    behind the handle is running. *)
Definition one_applet (s : state) : Prop :=
  (∀ h, submenu_thread s = Some h → (h < length (threads s))%nat) ∧
  (∀ i t, threads s !! i = Some t → alive t = true →
          submenu_thread s = Some i).

End Menu.

(** * The dashboard screens *)

Module Dashboard.
Import Weather.

(** ** Network throughput (lines 145-153) *)

(** The counters [psutil.net_io_counters(pernic=True)] reports for one
    interface. *)
Record net_counters := mkNet {
  bytes_sent : Z;
  bytes_recv : Z;
}.

(** [get_net_activity_bytes()]: the reading of [NET_IFACE] ([None] when the
    interface is not listed) and the global [last_bytes] give the bytes
    since the last call and the new [last_bytes]. *)
Definition get_net_activity_bytes (now_net : option net_counters)
    (last_bytes : Z) : Z * Z :=
  match now_net with
  | None => (0, last_bytes)
  | Some n =>
      let now_total := bytes_sent n + bytes_recv n in
      let diff := Z.max 0 (now_total - last_bytes) in
      (diff, now_total)
  end.

(** Successive calls: the values returned, and the final [last_bytes]. *)
Fixpoint net_calls (readings : list (option net_counters)) (last_bytes : Z)
  : list Z * Z :=
  match readings with
  | [] => ([], last_bytes)
  | r :: rest =>
      let '(diff, last_bytes) := get_net_activity_bytes r last_bytes in
      let '(diffs, last_bytes) := net_calls rest last_bytes in
      (diff :: diffs, last_bytes)
  end.

(** The counters never go down between the readings taken (a reading of
    [None] is skipped). *)
Fixpoint steady_growth (last_bytes : Z)
    (readings : list (option net_counters)) : bool :=
  match readings with
  | [] => true
  | None :: rest => steady_growth last_bytes rest
  | Some n :: rest =>
      (last_bytes <=? bytes_sent n + bytes_recv n)
      && steady_growth (bytes_sent n + bytes_recv n) rest
  end.

(** Lines 268-273: the number of filled activity bars. *)
Definition net_bars (net_bytes : Z) : Z :=
  let kbps := (inject_Z net_bytes * 2 / 1024)%Q in
  let bars := 0 in
  let bars := if Qle_bool kbps 50 then bars else 1 in
  let bars := if Qle_bool kbps 150 then bars else 2 in
  let bars := if Qle_bool kbps 400 then bars else 3 in
  bars.

(** ** Disk LED (lines 233-243 and 285) *)

Record disk_led := mkLed {
  last_reads : Z;
  last_writes : Z;
  disk_active : bool;
  blink_timer : Z;
}.

(** One call of [draw_system_screen]: [disk_stats] is the pair
    [(read_count, write_count)] of "sda", [None] without that disk. *)
Definition disk_led_update (disk_stats : option (Z * Z)) (d : disk_led)
  : disk_led :=
  let d :=
    match disk_stats with
    | Some (read_count, write_count) =>
        let d := if (read_count >? last_reads d)
                    || (write_count >? last_writes d)
                 then mkLed (last_reads d) (last_writes d) true 3
                 else d in
        mkLed read_count write_count (disk_active d) (blink_timer d)
    | None => d
    end in
  if blink_timer d >? 0
  then mkLed (last_reads d) (last_writes d) (disk_active d) (blink_timer d - 1)
  else mkLed (last_reads d) (last_writes d) false (blink_timer d).

(** A reading that shows no new disk activity after the counts [(r, w)]. *)
Definition quiet_reading (r w : Z) (st : option (Z * Z)) : bool :=
  match st with
  | None => true
  | Some (r', w') => (r' =? r) && (w' =? w)
  end.

Definition disk_led_run (stats : list (option (Z * Z))) (d : disk_led)
  : disk_led :=
  foldl (λ d st, disk_led_update st d) d stats.

(** ** Load graph (lines 89, 231 and 258-261) *)

(** [deque(maxlen=n).append(x)] *)
Definition deque_append {A} (maxlen : nat) (x : A) (q : list A) : list A :=
  let q := q ++ [x] in
  drop (length q - maxlen) q.

Definition LOAD_HISTORY_MAXLEN : nat := 50.

Definition load_history_append (load_avg : Q) (history : list Q) : list Q :=
  deque_append LOAD_HISTORY_MAXLEN load_avg history.

(** Python's [int] on a number: rounding towards zero. *)
Definition py_int (q : Q) : Z :=
  if Qle_bool 0 q then Qfloor q else Qceiling q.

(** One column of the graph: the vertical line from [(x, y0)] up to
    [(x, y1)]. *)
Record column := mkColumn {
  col_x : Z;
  col_y0 : Z;
  col_y1 : Z;
}.

(** Lines 258-261. *)
Definition load_graph (history : list Q) : list column :=
  let base_x := 90 in
  let base_y := 27 in
  let max_h := 12%Q in
  imap (λ i v,
          let h := py_int (Qmin (v / 2 * max_h) max_h) in
          mkColumn (base_x + Z.of_nat i) base_y (base_y - h))
       (Menu.py_slice history (-36) (Z.of_nat (length history))).

(** ** Weather screen (lines 291-307) *)

(** Where the forecast temperatures are written: 30 pixels apart on the
    line y = 48. *)
Definition forecast_positions (w : snapshot) : list (Z * Z) :=
  imap (λ i _, (10 + 30 * Z.of_nat i, 48)) (forecast w).

(** A sequence of calls of [get_weather], each with the two times it reads
    and the answer of the service. *)
Definition weather_calls (calls : list (Z * Z * option json)) (c : cache)
  : cache :=
  foldl (λ c call, (get_weather call.1.1 call.1.2 call.2 c).2) c calls.

End Dashboard.

(** * The animation applet *)

Module Animation.
Import Applet.

(** The square of [screen_animation] (lines 607-626): its top left corner
    and its velocity. *)
Record sprite := mkSprite {
  sp_x : Z;
  sp_y : Z;
  sp_dx : Z;
  sp_dy : Z;
}.

Definition sprite_size : Z := 6.
Definition frame_delay : Q := 3 # 100.     (* 0.03 s *)

Definition sprite_start : sprite := mkSprite 10 20 2 1.

(** Lines 619-622: one move, turning around at the edges. *)
Definition move (p : sprite) : sprite :=
  let x := sp_x p + sp_dx p in
  let y := sp_y p + sp_dy p in
  let dx := if (x <=? 0) || (x + sprite_size >=? WIDTH)
            then - sp_dx p else sp_dx p in
  let dy := if (y <=? 0) || (y + sprite_size >=? HEIGHT)
            then - sp_dy p else sp_dy p in
  mkSprite x y dx dy.

(** The position drawn in frame [n]. *)
Definition position (n : nat) : sprite := Nat.iter n move sprite_start.

(** [range(int(frame_delay * 10))]: the number of pauses after a frame. *)
Definition pauses : nat := Z.to_nat (Dashboard.py_int (frame_delay * 10)).

(** The loop of [screen_animation]; [stop_event.is_set()] is the condition
    read by [poll]. *)
Fixpoint screen_animation (E : env) (fuel : nat) : M unit :=
  match fuel with
  | O => λ w, (Running, w)
  | S fuel' =>
      let* stop := poll E in
      if stop : bool then ret tt
      else
        display E >>
        for_range pauses (check_cancel E >> sleep 30) >>
        screen_animation E fuel'
  end.

(** What the moves keep true: the corner of the square is in the field,
    it moves two columns and one row a frame, and inwards from an edge. *)
Definition on_track (p : sprite) : Prop :=
  0 ≤ sp_x p ≤ WIDTH - sprite_size ∧ 0 ≤ sp_y p ≤ HEIGHT - sprite_size ∧
  (sp_dx p = 2 ∨ sp_dx p = -2) ∧ (sp_dy p = 1 ∨ sp_dy p = -1) ∧
  sp_x p `mod` 2 = 0 ∧
  (sp_x p = 0 → sp_dx p = 2) ∧ (sp_x p = WIDTH - sprite_size → sp_dx p = -2) ∧
  (sp_y p = 0 → sp_dy p = 1) ∧ (sp_y p = HEIGHT - sprite_size → sp_dy p = -1).

End Animation.

(** * The rules of the two games *)

Module Invaders.

(** ** The rules of Space Invaders (lines 390-524)

    Times are in ms. A handler of the knob runs between two iterations of
    the loop. *)

Definition player_y : Z := HEIGHT - 8.
Definition alien_cols : Z := 8.
Definition alien_spacing_x : Z := 12.
Definition alien_spacing_y : Z := 8.
Definition alien_step_x : Z := 1.
Definition bullet_speed : Z := 2.
Definition fire_cooldown : Z := 100.
Definition fire_block_time : Z := 100.
Definition alien_move_interval : Z := 120.
Definition MAX_STEP_DELTA : Z := 3.

Record game := mkGame {
  player_x : Z;
  bullets : list (Z * Z);
  aliens : list (Z * Z);
  alien_dir : Z;
  alien_rows : Z;
  score : Z;
  last_fire : Z;
  last_fire_block : Z;
  last_alien_move_time : Z;
  last_steps : Z;
  step_delta : Z;
}.

(** The list comprehension of lines 410-414 and 486-490. *)
Definition wave (rows : Z) : list (Z * Z) :=
  r ← seqZ 0 rows;
  c ← seqZ 0 alien_cols;
  [(10 + c * alien_spacing_x, 8 + r * alien_spacing_y)].

(** The locals before the loop; [steps] is [encoder.steps] then. *)
Definition start (steps : Z) : game :=
  mkGame (WIDTH `div` 2) [] (wave 3) 1 3 0 0 0 0 steps 0.

(** [fire_bullet], lines 422-428. *)
Definition fire_bullet (now : Z) (g : game) : game :=
  if decide (now - last_fire g >= fire_cooldown) then
    mkGame (player_x g) (bullets g ++ [(player_x g + 2, player_y - 3)])
           (aliens g) (alien_dir g) (alien_rows g) (score g)
           now now (last_alien_move_time g) (last_steps g) (step_delta g)
  else g.

(** Lines 439-447: the player follows the encoder. The result is
    [(player_x, last_steps, step_delta)]. *)
Definition move_player (now steps : Z) (g : game) : Z * Z * Z :=
  if decide (now - last_fire_block g > fire_block_time) then
    let d := steps - last_steps g in
    let d := if decide (Z.abs d > MAX_STEP_DELTA) then 0 else d in
    let x := if decide (d ≠ 0)
             then Z.max 0 (Z.min (WIDTH - 6) (player_x g + d * 3))
             else player_x g in
    (x, steps, d)
  else (player_x g, last_steps g, step_delta g).

(** Lines 449-465: the formation moves sideways, or down when it would
    leave the field. The result is [(aliens, alien_dir,
    last_alien_move_time)]. *)
Definition projected_out_of_bounds (dir : Z) (al : list (Z * Z)) : bool :=
  existsb (λ a, bool_decide (a.1 + dir * alien_step_x < 0 ∨
                             a.1 + dir * alien_step_x > WIDTH - 8)) al.

Definition move_aliens (now : Z) (g : game) : list (Z * Z) * Z * Z :=
  match aliens g with
  | [] => ([], alien_dir g, last_alien_move_time g)
  | _ =>
      if projected_out_of_bounds (alien_dir g) (aliens g) &&
         bool_decide (now - last_alien_move_time g >= alien_move_interval)
      then (map (λ a, (a.1, a.2 + 4)) (aliens g), alien_dir g * -1, now)
      else (map (λ a, (Z.max 0 (Z.min (WIDTH - 8)
                                 (a.1 + alien_dir g * alien_step_x)), a.2))
                (aliens g),
            alien_dir g, last_alien_move_time g)
  end.

(** Line 467. *)
Definition move_bullets (bs : list (Z * Z)) : list (Z * Z) :=
  map (λ b, (b.1, b.2 - bullet_speed))
      (filter (λ b, b.2 - bullet_speed > 0) bs).

(** [abs(bx - ax) < 4 and abs(by - ay) < 4] *)
Definition hits (b a : Z * Z) : Prop :=
  Z.abs (b.1 - a.1) < 4 ∧ Z.abs (b.2 - a.2) < 4.

#[global] Instance hits_dec b a : Decision (hits b a).
Proof. unfold hits. apply _. Defined.

(** The inner loop of lines 472-475: the index of the first alien hit. *)
Definition hit_idx (b : Z * Z) (al : list (Z * Z)) : option nat :=
  fst <$> list_find (hits b) al.

(** [bullets.remove(b)], doing nothing where Python raises [ValueError]. *)
Fixpoint remove (b : Z * Z) (bs : list (Z * Z)) : list (Z * Z) :=
  match bs with
  | [] => []
  | x :: bs' => if decide (x = b) then bs' else x :: remove b bs'
  end.

(** Lines 469-482: [for b in list(bullets)], [todo] being what is left of
    the copy. The result is [(bullets, aliens, score)]. *)
Fixpoint resolve_hits (todo bs al : list (Z * Z)) (sc : Z)
  : list (Z * Z) * list (Z * Z) * Z :=
  match todo with
  | [] => (bs, al, sc)
  | b :: todo' =>
      match hit_idx b al with
      | Some idx => resolve_hits todo' (remove b bs) (delete idx al) (sc + 10)
      | None => resolve_hits todo' bs al sc
      end
  end.

(** Line 493: [any(ay >= player_y - 2 for _, ay in aliens)] *)
Definition landed (al : list (Z * Z)) : bool :=
  existsb (λ a, bool_decide (a.2 >= player_y - 2)) al.

(** One iteration of the loop after the cancellation test, lines 438-493,
    at time [now] with the encoder at [steps]: the next state, and whether
    the game is over. *)
Definition frame (now steps : Z) (g : game) : game * bool :=
  let '(x, ls, d) := move_player now steps g in
  let '(al, dir, lam) := move_aliens now g in
  let bs := move_bullets (bullets g) in
  let '(bs, al, sc) := resolve_hits bs bs al (score g) in
  let '(rows, al, dir) :=
    match al with
    | [] => let rows := Z.min (alien_rows g + 1) 5 in (rows, wave rows, 1)
    | _ => (alien_rows g, al, dir)
    end in
  (mkGame x bs al dir rows sc (last_fire g) (last_fire_block g) lam ls d,
   landed al).

(** What is drawn in an iteration that goes on, lines 508-514, as the
    corners [(x0, y0, x1, y1)] of the rectangles. *)
Definition rectangles (g : game) : list (Z * Z * Z * Z) :=
  map (λ a, (a.1, a.2, a.1 + 3, a.2 + 2)) (aliens g) ++
  [(player_x g, player_y, player_x g + 5, player_y + 2)] ++
  map (λ b, (b.1, b.2, b.1 + 1, b.2 + 2)) (bullets g).

Definition inside (r : Z * Z * Z * Z) : Prop :=
  let '(x0, y0, x1, y1) := r in
  0 ≤ x0 ∧ x0 ≤ x1 < WIDTH ∧ 0 ≤ y0 ∧ y0 ≤ y1 < HEIGHT.

(** What happens during a game: the knob is pressed, or the loop runs
    once. *)
Inductive input :=
  | Fire (now : Z)
  | Frame (now steps : Z).

(** The game after the inputs, and whether it is over; nothing happens to
    a game that is over. *)
Fixpoint play (g : game) (ins : list input) : game * bool :=
  match ins with
  | [] => (g, false)
  | Fire now :: ins' => play (fire_bullet now g) ins'
  | Frame now steps :: ins' =>
      let '(g', over) := frame now steps g in
      if over then (g', true) else play g' ins'
  end.

(** What every iteration keeps. *)
Definition tidy (g : game) : Prop :=
  0 ≤ player_x g ≤ WIDTH - 6 ∧
  Forall (λ b, 2 ≤ b.1 ≤ WIDTH - 4 ∧ 0 < b.2 ≤ player_y - 3) (bullets g) ∧
  Forall (λ a, 0 ≤ a.1 ≤ WIDTH - 8 ∧ 8 ≤ a.2) (aliens g) ∧
  aliens g ≠ [] ∧
  3 ≤ alien_rows g ≤ 5 ∧
  (alien_dir g = 1 ∨ alien_dir g = -1).

End Invaders.

Module Life.

(** ** The rules of the Game of Life (lines 529-603) *)

Definition cell_size : Z := 2.
Definition cols : Z := WIDTH `div` cell_size.
Definition rows : Z := HEIGHT `div` cell_size.

(** [grid[y][x]], where both indices are in range. *)
Definition getitem (grid : list (list Z)) (x y : Z) : option Z :=
  match grid !! Z.to_nat y with
  | Some row => row !! Z.to_nat x
  | None => None
  end.

(** The same with 0 for a cell that does not exist. *)
Definition cell (grid : list (list Z)) (x y : Z) : Z :=
  default 0 (getitem grid x y).

(** The offsets [(dx, dy)] in the order of the generator of lines 549-554. *)
Definition offsets : list (Z * Z) :=
  dy ← [-1; 0; 1];
  dx ← [-1; 0; 1];
  if bool_decide (dx = 0 ∧ dy = 0) then [] else [(dx, dy)].

(** [count_neighbors(x, y)], lines 548-554. *)
Definition count_neighbors (grid : list (list Z)) (x y : Z) : Z :=
  foldr Z.add 0
    ((λ d, cell grid ((x + d.1) `mod` cols) ((y + d.2) `mod` rows))
       <$> offsets).

(** Lines 593-596. *)
Definition rule (c n : Z) : Z :=
  if bool_decide (c ≠ 0)
  then (if bool_decide (n = 2 ∨ n = 3) then 1 else 0)
  else (if bool_decide (n = 3) then 1 else 0).

(** A grid filled cell by cell, as the two nested loops over [range(rows)]
    and [range(cols)] do. *)
Definition tabulate (f : Z → Z → Z) : list (list Z) :=
  (λ y, (λ x, f x y) <$> seqZ 0 cols) <$> seqZ 0 rows.

(** Lines 587-597: the next generation. *)
Definition step (grid : list (list Z)) : list (list Z) :=
  tabulate (λ x y, rule (cell grid x y) (count_neighbors grid x y)).

(** A grid as [randomize_grid] makes it: [rows] rows of [cols] cells, each
    0 or 1. *)
Definition wf (grid : list (list Z)) : Prop :=
  length grid = Z.to_nat rows ∧
  Forall (λ row, length row = Z.to_nat cols ∧
                 Forall (λ c, c = 0 ∨ c = 1) row) grid.

(** The grid moved by [(dx, dy)] around the torus. *)
Definition shift (dx dy : Z) (grid : list (list Z)) : list (list Z) :=
  tabulate (λ x y, cell grid ((x + dx) `mod` cols) ((y + dy) `mod` rows)).

(** A glider in the top left corner of an empty grid. *)
Definition glider : list (list Z) :=
  tabulate (λ x y,
    if bool_decide ((x, y) ∈ [(1, 0); (2, 1); (0, 2); (1, 2); (2, 2)])
    then 1 else 0).

#[global] Instance wf_dec grid : Decision (wf grid).
Proof. unfold wf. apply _. Defined.

End Life.

(** * The disk space and load average screens *)

Module Screens.
Import Dashboard.

(** ** The disk space screen (lines 691-741) *)

(** An entry of [psutil.disk_partitions(all=False)]. *)
Record partition := mkPartition {
  device : string;
  mountpoint : string;
}.

(** What the screen asks the system: [os.path.exists], and
    [psutil.disk_usage(...).percent], [None] where it raises
    [PermissionError]. *)
Record probes := mkProbes {
  path_exists : string → bool;
  usage_percent : string → option Q;
}.

(** [sub in s] *)
Definition contains (sub s : string) : bool :=
  match String.index 0 sub s with
  | Some _ => true
  | None => false
  end.

(** The test of lines 696-699. *)
Definition skipped (P : probes) (p : partition) : bool :=
  contains "loop" (device p)
  || negb (path_exists P (mountpoint p))
  || String.prefix "/boot/firmware" (mountpoint p)
  || String.eqb (mountpoint p) "/boot".

(** Lines 695-709, [seen] being [seen_devices]: the entries appended to
    [partitions], in order. *)
Fixpoint scan (P : probes) (ps : list partition) (seen : gset string)
  : list (string * string * Q) :=
  match ps with
  | [] => []
  | p :: ps' =>
      if skipped P p then scan P ps' seen
      else if decide (device p ∈ seen) then scan P ps' seen
      else
        let seen := {[device p]} ∪ seen in
        match usage_percent P (mountpoint p) with
        | Some percent =>
            (device p, mountpoint p, percent) :: scan P ps' seen
        | None => scan P ps' seen
        end
  end.

Definition bar_height : Z := 8.
Definition spacing : Z := 4.

(** One partition on the screen: the line of its label, the top of its
    bar, and how far the bar is filled. *)
Record bar := mkBar {
  label_y : Z;
  bar_y : Z;
  fill_width : Z;
}.

(** Lines 712-733: the loop over [partitions[:3]], [y] being the
    variable of that name. *)
Fixpoint draw_bars (parts : list (string * string * Q)) (y : Z) : list bar :=
  match parts with
  | [] => []
  | (_, _, percent) :: rest =>
      let y0 := y in
      let y := y + 9 in
      let w := py_int (inject_Z WIDTH * (percent / 100)) in
      let y' := y + bar_height + spacing in
      mkBar y0 y w ::
        (if decide (y' > HEIGHT - 8) then [] else draw_bars rest y')
  end.

Definition diskspace_bars (partitions : list (string * string * Q))
  : list bar :=
  draw_bars (take 3 partitions) 0.

(** ** The load average screen (lines 661-689) *)

(** [max(history)] of a list that is not empty. *)
Definition py_max (l : list Q) : Q :=
  match l with
  | [] => 0
  | x :: l' => foldl Qmax x l'
  end.

(** [history.append(load1)] on [deque(maxlen=WIDTH)]. *)
Definition history_append (load1 : Q) (history : list Q) : list Q :=
  deque_append (Z.to_nat WIDTH) load1 history.

(** Lines 676-681: the columns of the graph. *)
Definition loadavg_graph (history : list Q) : list column :=
  let max_load := Qmax 1 (py_max history) in
  let scale := (40 / max_load)%Q in
  imap (λ x val,
          let h := py_int (val * scale) in
          let y_top := HEIGHT - 1 - h in
          mkColumn (Z.of_nat x) y_top (HEIGHT - 1))
       history.

(** The history after the samples, oldest first. *)
Definition history_of (samples : list Q) : list Q :=
  foldl (λ h load1, history_append load1 h) [] samples.

End Screens.

(** * The activity lights ([services/hdled/lights.py]) *)

Module Lights.

Definition LED_PINS : list Z := [20; 21; 13; 26].
Definition BLINK_DELAY : Z := 150.               (* 0.15 s *)
Definition ACTIVITY_THRESHOLD : Z := 1024 * 10.

(** What the script does to the outside, in order. *)
Inductive op :=
  | Output (pin : Z) (high : bool)    (* [GPIO.output(pin, level)] *)
  | Sleep (ms : Z)                    (* [time.sleep] *)
  | Cleanup.                          (* [GPIO.cleanup()] *)

(** Lines 15-17. *)
Definition all_off : list op := (λ p, Output p false) <$> LED_PINS.

(** Lines 19-24. *)
Definition blink (p : Z) : list op :=
  [Output p true; Sleep BLINK_DELAY; Output p false].

Definition circular_spin (repeats : nat) : list op :=
  _ ← seq 0 repeats; p ← LED_PINS; blink p.

(** Lines 26-27. *)
Definition idle_pulse : list op := all_off.

(** The counters of the device, as [get_io_counters] returns them. *)
Record io := mkIo {
  read_bytes : Z;
  write_bytes : Z;
}.

(** One iteration of the loop, lines 57-71, [current_io] being what
    [get_io_counters] returns in it: what it does, and the new [last_io]. *)
Definition iteration (current_io : option io) (last_io : io)
  : list op * io :=
  match current_io with
  | None => ([Sleep 500], last_io)
  | Some current_io =>
      let read_diff := read_bytes current_io - read_bytes last_io in
      let write_diff := write_bytes current_io - write_bytes last_io in
      let activity := read_diff + write_diff in
      ([Sleep 500] ++
       (if decide (activity > ACTIVITY_THRESHOLD)
        then circular_spin 2 else idle_pulse),
       current_io)
  end.

(** The loop, for the readings of its iterations. *)
Fixpoint loop (readings : list (option io)) (last_io : io) : list op :=
  match readings with
  | [] => []
  | r :: readings' =>
      let '(ops, last_io) := iteration r last_io in
      ops ++ loop readings' last_io
  end.

(** Lines 51-78: the loop is left by an exception after [n] of its
    operations, and the [finally] block runs. *)
Definition script (first : io) (readings : list (option io)) (n : nat)
  : list op :=
  take n (loop readings first) ++ all_off ++ [Cleanup].

(** The pins that are high after the operations, from the pins in [lit]. *)
Definition apply_op (lit : gset Z) (o : op) : gset Z :=
  match o with
  | Output p true => {[p]} ∪ lit
  | Output p false => lit ∖ {[p]}
  | _ => lit
  end.

Definition leds (ops : list op) (lit : gset Z) : gset Z :=
  foldl apply_op lit ops.

(** A piece of the script that starts and ends with every LED off and has
    at most one LED on at any time. *)
Definition calm (ops : list op) : Prop :=
  leds ops ∅ = ∅ ∧
  ∀ n, (size (leds (take n ops) ∅) ≤ 1)%nat ∧
       leds (take n ops) ∅ ⊆ list_to_set LED_PINS.

End Lights.

(** * Properties of the transition engine *)

Section TransitionFacts.
Import Transition.

(** Reducing the option combinators without unfolding the 128 x 64
    replications. *)
Ltac opt_cbn := cbn [andb mbind option_bind fmap option_fmap option_map].

Lemma py_range_pos start stop step :
  0 < step →
  py_range start stop step =
    Some ((λ i : nat, start + Z.of_nat i * step)
            <$> seq 0 (Z.to_nat ((stop - start + step - 1) / step))).
Proof.
  intros Hs. unfold py_range.
  destruct (Z.eqb_spec step 0) as [->|_]; [lia|].
  destruct (Z.ltb_spec 0 step); [done | lia].
Qed.

Lemma wf_spec (b : bitmap) :
  wf b ↔
  length b = Z.to_nat HEIGHT ∧ Forall (λ row, length row = Z.to_nat WIDTH) b.
Proof.
  unfold wf, wfb. rewrite andb_true_iff, Nat.eqb_eq.
  apply and_iff_compat_l.
  induction b as [|row b IH]; cbn [forallb].
  - split; [constructor | done].
  - rewrite andb_true_iff, Nat.eqb_eq, IH, Forall_cons. done.
Qed.

Lemma getpixel_inside (b : bitmap) x y :
  0 ≤ x → 0 ≤ y →
  getpixel b x y = b !! Z.to_nat y ≫= (λ row : list bool, row !! Z.to_nat x).
Proof.
  intros Hx Hy. unfold getpixel.
  destruct (Z.leb_spec 0 x); [|lia]. destruct (Z.leb_spec 0 y); [done | lia].
Qed.

Lemma getpixel_outside (b : bitmap) x y :
  x < 0 ∨ WIDTH ≤ x ∨ y < 0 ∨ HEIGHT ≤ y → wf b → getpixel b x y = None.
Proof.
  intros Hout [Hlen Hrows]%wf_spec. unfold getpixel.
  destruct (Z.leb_spec 0 x); opt_cbn; [|done].
  destruct (Z.leb_spec 0 y); opt_cbn; [|done].
  destruct (b !! Z.to_nat y) as [row|] eqn:Hrow; opt_cbn; [|done].
  apply lookup_ge_None.
  rewrite Forall_lookup in Hrows. rewrite (Hrows _ _ Hrow).
  apply lookup_lt_Some in Hrow. lia.
Qed.

Lemma getpixel_wf (b : bitmap) x y :
  wf b → 0 ≤ x < WIDTH → 0 ≤ y < HEIGHT → is_Some (getpixel b x y).
Proof.
  intros [Hlen Hrows]%wf_spec Hx Hy. rewrite getpixel_inside by lia.
  destruct (lookup_lt_is_Some_2 b (Z.to_nat y)) as [row Hrow]; [lia|].
  rewrite Hrow. opt_cbn. apply lookup_lt_is_Some_2.
  rewrite Forall_lookup in Hrows. rewrite (Hrows _ _ Hrow). lia.
Qed.

Lemma bitmap_ext (a b : bitmap) :
  wf a → wf b →
  (∀ x y, 0 ≤ x < WIDTH → 0 ≤ y < HEIGHT → getpixel a x y = getpixel b x y) →
  a = b.
Proof.
  intros [Hla Hra]%wf_spec [Hlb Hrb]%wf_spec Hpix.
  apply (list_eq_same_length _ _ (Z.to_nat HEIGHT)); [done..|].
  intros j ra rb Hj Ha Hb.
  rewrite Forall_lookup in Hra. rewrite Forall_lookup in Hrb.
  apply (list_eq_same_length _ _ (Z.to_nat WIDTH)); [by eauto..|].
  intros i pa pb Hi Hpa Hpb.
  specialize (Hpix (Z.of_nat i) (Z.of_nat j)).
  rewrite !getpixel_inside, !Nat2Z.id, Ha, Hb in Hpix by lia.
  cbn [mbind option_bind] in Hpix. rewrite Hpa, Hpb in Hpix.
  assert (Some pa = Some pb) as [= ->] by (apply Hpix; lia). done.
Qed.

Lemma wf_new_image c : wf (new_image WIDTH HEIGHT c).
Proof.
  apply wf_spec. split; unfold new_image; [by rewrite length_replicate|].
  apply Forall_replicate. by rewrite length_replicate.
Qed.

Lemma getpixel_new_image c x y :
  0 ≤ x < WIDTH → 0 ≤ y < HEIGHT →
  getpixel (new_image WIDTH HEIGHT c) x y = Some c.
Proof.
  intros Hx Hy. rewrite getpixel_inside by lia. unfold new_image.
  rewrite lookup_replicate_2 by lia. opt_cbn.
  by rewrite lookup_replicate_2 by lia.
Qed.

Lemma wf_imap_rows (f : nat → list bool → list bool) (b : bitmap) :
  (∀ j row, length (f j row) = length row) → wf b → wf (imap f b).
Proof.
  intros Hf [Hlen Hrows]%wf_spec. apply wf_spec.
  split; [by rewrite length_imap|].
  rewrite Forall_lookup in Hrows. apply Forall_lookup. intros j row.
  rewrite list_lookup_imap. destruct (b !! j) as [r|] eqn:Hr; [|done].
  intros [= <-]. rewrite Hf. eauto.
Qed.

Lemma wf_paste dst src ox oy : wf dst → wf (paste dst src ox oy).
Proof. apply wf_imap_rows. intros. by rewrite length_imap. Qed.

Lemma wf_paste_mask dst src mask ox oy :
  wf dst → wf (paste_mask dst src mask ox oy).
Proof. apply wf_imap_rows. intros. by rewrite length_imap. Qed.

Lemma wf_draw_hline m x0 x1 y : wf m → wf (draw_hline m x0 x1 y).
Proof.
  apply wf_imap_rows. intros j row.
  destruct (Z.of_nat j =? y); [by rewrite length_imap | done].
Qed.

Lemma getpixel_paste dst src ox oy x y :
  getpixel (paste dst src ox oy) x y =
    (λ p, default p (getpixel src (x - ox) (y - oy))) <$> getpixel dst x y.
Proof.
  unfold getpixel at 1 3.
  destruct (Z.leb_spec 0 x); opt_cbn; [|done].
  destruct (Z.leb_spec 0 y); opt_cbn; [|done].
  unfold paste. rewrite list_lookup_imap.
  destruct (dst !! Z.to_nat y) as [row|]; opt_cbn; [|done].
  rewrite list_lookup_imap, !Z2Nat.id by lia. done.
Qed.

Lemma getpixel_paste_mask dst src mask ox oy x y :
  getpixel (paste_mask dst src mask ox oy) x y =
    (λ p, match getpixel mask (x - ox) (y - oy) with
          | Some true => default p (getpixel src (x - ox) (y - oy))
          | _ => p
          end) <$> getpixel dst x y.
Proof.
  unfold getpixel at 1 4.
  destruct (Z.leb_spec 0 x); opt_cbn; [|done].
  destruct (Z.leb_spec 0 y); opt_cbn; [|done].
  unfold paste_mask. rewrite list_lookup_imap.
  destruct (dst !! Z.to_nat y) as [row|]; opt_cbn; [|done].
  rewrite list_lookup_imap, !Z2Nat.id by lia. done.
Qed.

Lemma getpixel_draw_hline m x0 x1 y0 x y :
  getpixel (draw_hline m x0 x1 y0) x y =
    (λ p, if (y =? y0) && ((x0 <=? x) && (x <=? x1)) then true else p)
      <$> getpixel m x y.
Proof.
  unfold getpixel.
  destruct (Z.leb_spec 0 x); opt_cbn; [|done].
  destruct (Z.leb_spec 0 y); opt_cbn; [|done].
  unfold draw_hline. rewrite list_lookup_imap.
  destruct (m !! Z.to_nat y) as [row|]; opt_cbn; [|done].
  rewrite Z2Nat.id by lia.
  destruct (y =? y0); opt_cbn; [|by destruct (row !! Z.to_nat x)].
  rewrite list_lookup_imap, Z2Nat.id by lia. done.
Qed.


Lemma getpixel_reveal_fold (cond : Z → bool) (ys : list Z) (m : bitmap) x y :
  0 ≤ x ≤ WIDTH →
  getpixel
    (foldl (λ m y, if cond y then draw_hline m 0 WIDTH y else m) m ys) x y =
  (λ p, if bool_decide (y ∈ ys) && cond y then true else p) <$> getpixel m x y.
Proof.
  intros Hx. revert m. induction ys as [|y0 ys IH]; intros m.
  - cbn [foldl]. by destruct (getpixel m x y).
  - cbn [foldl]. rewrite IH.
    assert (getpixel (if cond y0 then draw_hline m 0 WIDTH y0 else m) x y =
            (λ p, if (y =? y0) && cond y then true else p) <$> getpixel m x y)
      as ->.
    { destruct (Z.eqb_spec y y0) as [->|Hne].
      - destruct (cond y0); [|by destruct (getpixel m x y0)].
        rewrite getpixel_draw_hline, Z.eqb_refl.
        destruct (Z.leb_spec 0 x); [|lia].
        destruct (Z.leb_spec x WIDTH); [done | lia].
      - destruct (cond y0); [|by destruct (getpixel m x y)].
        rewrite getpixel_draw_hline.
        destruct (Z.eqb_spec y y0); [done|].
        by destruct (getpixel m x y). }
    destruct (getpixel m x y) as [p|]; [|done].
    cbn [fmap option_fmap option_map]. f_equal.
    destruct (Z.eqb_spec y y0) as [->|Hne].
    + rewrite (bool_decide_eq_true_2 (y0 ∈ y0 :: ys)) by (by left).
      cbn [andb]. by destruct (cond y0), (bool_decide (y0 ∈ ys)).
    + cbn [andb]. destruct (bool_decide_reflect (y ∈ ys)) as [Hin|Hnin].
      * by rewrite (bool_decide_eq_true_2 (y ∈ y0 :: ys)) by (by right).
      * rewrite (bool_decide_eq_false_2 (y ∈ y0 :: ys)); [done|].
        rewrite elem_of_cons. by intros [?|?].
Qed.

Lemma getpixel_reveal_mask steps k x y :
  0 ≤ x < WIDTH → 0 ≤ y < HEIGHT →
  getpixel (reveal_mask steps k) x y = Some (y `mod` steps <? k).
Proof.
  intros Hx Hy. unfold reveal_mask.
  rewrite (getpixel_reveal_fold (λ y, y `mod` steps <? k)) by lia.
  rewrite getpixel_new_image by done.
  cbn [fmap option_fmap option_map]. f_equal.
  rewrite bool_decide_eq_true_2.
  - cbn [andb]. by destruct (_ <? _).
  - apply list_elem_of_fmap. exists (Z.to_nat y). split; [lia|].
    apply elem_of_seq. lia.
Qed.

Lemma getpixel_fade_frame from_img to_img steps k x y :
  wf from_img → wf to_img → 0 ≤ x < WIDTH → 0 ≤ y < HEIGHT →
  getpixel (fade_frame from_img to_img steps k) x y =
    if y `mod` steps <? k then getpixel to_img x y else getpixel from_img x y.
Proof.
  intros Hf Ht Hx Hy. unfold fade_frame.
  rewrite getpixel_paste_mask, getpixel_paste, !Z.sub_0_r.
  rewrite getpixel_new_image, getpixel_reveal_mask by done.
  destruct (getpixel_wf from_img x y) as [p ->]; [done..|].
  destruct (getpixel_wf to_img x y) as [q ->]; [done..|].
  cbn [fmap option_fmap option_map default].
  by destruct (_ <? _).
Qed.

Lemma wf_fade_frame from_img to_img steps k :
  wf (fade_frame from_img to_img steps k).
Proof. apply wf_paste_mask, wf_paste, wf_new_image. Qed.

Lemma wf_slide_frame img_from img_to offset :
  wf (slide_frame img_from img_to offset).
Proof. apply wf_paste, wf_paste, wf_new_image. Qed.

Lemma getpixel_slide_frame img_from img_to offset x y :
  0 ≤ x < WIDTH → 0 ≤ y < HEIGHT →
  getpixel (slide_frame img_from img_to offset) x y =
    Some (default (default false (getpixel img_from (x + offset) y))
                  (getpixel img_to (x - (WIDTH - offset)) y)).
Proof.
  intros Hx Hy. unfold slide_frame.
  rewrite !getpixel_paste, getpixel_new_image by done.
  cbn [fmap option_fmap option_map].
  by rewrite Z.sub_0_r, Z.sub_opp_r.
Qed.


(** C5. Dissolve-reveal: for well-formed bitmaps and [steps >= 1],
    [fade_to_menu] pushes exactly [steps] frames; in frame [k] (1-based) every
    pixel of row [y] comes from the destination bitmap when [y mod steps < k]
    and from the source bitmap otherwise; the last frame is the destination
    bitmap itself. *)
Theorem fade_to_menu_reveals (from_img to_img : bitmap) (steps : Z) :
  wf from_img → wf to_img → 1 ≤ steps →
  ∃ frames,
    fade_to_menu from_img to_img steps = Some frames ∧
    length frames = Z.to_nat steps ∧
    (∀ k x y, 1 ≤ k ≤ steps → 0 ≤ x < WIDTH → 0 ≤ y < HEIGHT →
       ∃ frame, frames !! Z.to_nat (k - 1) = Some frame ∧
         getpixel frame x y =
           if y `mod` steps <? k then getpixel to_img x y
           else getpixel from_img x y) ∧
    last frames = Some to_img.
Proof.
  intros Hf Ht Hs. unfold fade_to_menu.
  destruct (Z.eqb_spec steps 0); [lia|].
  rewrite py_range_pos by lia.
  replace ((steps + 1 - 1 + 1 - 1) / 1) with steps by (rewrite Z.div_1_r; lia).
  eexists. split; [reflexivity|].
  assert (∀ k, 1 ≤ k ≤ steps →
    (fade_frame from_img to_img steps <$>
       ((λ i : nat, 1 + Z.of_nat i * 1) <$> seq 0 (Z.to_nat steps)))
      !! Z.to_nat (k - 1) = Some (fade_frame from_img to_img steps k)) as Hk.
  { intros k Hk. rewrite !list_lookup_fmap, lookup_seq_lt by lia.
    cbn [fmap option_fmap option_map]. do 2 f_equal. lia. }
  split; [by rewrite !length_fmap, length_seq|]. split.
  - intros k x y Hk' Hx Hy. eexists. split; [by apply Hk|].
    by apply getpixel_fade_frame.
  - rewrite last_lookup, !length_fmap, length_seq.
    replace (pred (Z.to_nat steps)) with (Z.to_nat (steps - 1)) by lia.
    rewrite Hk by lia. f_equal.
    apply bitmap_ext; [apply wf_fade_frame | done |].
    intros x y Hx Hy. rewrite getpixel_fade_frame by done.
    destruct (Z.ltb_spec (y `mod` steps) steps) as [|Hge]; [done|].
    pose proof (Z.mod_pos_bound y steps). lia.
Qed.

Lemma fade_to_menu_reveals_witness :
  ∃ frames,
    fade_to_menu (new_image WIDTH HEIGHT true) (new_image WIDTH HEIGHT false) 10
      = Some frames ∧
    length frames = Z.to_nat 10 ∧
    (∀ k x y, 1 ≤ k ≤ 10 → 0 ≤ x < WIDTH → 0 ≤ y < HEIGHT →
       ∃ frame, frames !! Z.to_nat (k - 1) = Some frame ∧
         getpixel frame x y =
           if y `mod` 10 <? k
           then getpixel (new_image WIDTH HEIGHT false) x y
           else getpixel (new_image WIDTH HEIGHT true) x y) ∧
    last frames = Some (new_image WIDTH HEIGHT false).
Proof.
  apply (fade_to_menu_reveals
           (new_image WIDTH HEIGHT true) (new_image WIDTH HEIGHT false) 10);
    [vm_compute; reflexivity | vm_compute; reflexivity | lia].
Defined.

(** C6, as amended. Slide: when the step size is positive and divides the
    display width (as the default 8 does), the last frame [slide_transition]
    pushes is the destination bitmap itself. *)
Theorem slide_transition_final_frame (img_from img_to : bitmap) (step : Z) :
  wf img_to → 0 < step → WIDTH `mod` step = 0 →
  ∃ frames,
    slide_transition img_from img_to step = Some frames ∧
    last frames = Some img_to.
Proof.
  intros Ht Hs Hdiv. unfold slide_transition.
  rewrite py_range_pos by lia. eexists. split; [reflexivity|].
  assert (WIDTH = WIDTH / step * step) as Hw.
  { rewrite (Z.div_mod WIDTH step) at 1 by lia. lia. }
  assert (0 ≤ WIDTH / step) by (apply Z.div_pos; unfold WIDTH; lia).
  replace ((WIDTH + 1 - 0 + step - 1) / step) with (WIDTH / step + 1).
  2:{ replace (WIDTH + 1 - 0 + step - 1) with (WIDTH + 1 * step) by lia.
      by rewrite Z.div_add by lia. }
  rewrite last_lookup, !length_fmap, length_seq.
  rewrite !list_lookup_fmap, lookup_seq_lt by lia.
  cbn [fmap option_fmap option_map]. f_equal.
  replace (Z.of_nat (0 + pred (Z.to_nat (WIDTH / step + 1))))
    with (WIDTH / step) by lia.
  rewrite Z.add_0_l, <- Hw.
  apply bitmap_ext; [apply wf_slide_frame | done |].
  intros x y Hx Hy. rewrite getpixel_slide_frame by done.
  rewrite Z.sub_diag, Z.sub_0_r.
  by destruct (getpixel_wf img_to x y) as [q ->].
Qed.

Lemma slide_transition_final_frame_witness :
  ∃ frames,
    slide_transition (new_image WIDTH HEIGHT true)
                     (new_image WIDTH HEIGHT false) 8 = Some frames ∧
    last frames = Some (new_image WIDTH HEIGHT false).
Proof.
  apply (slide_transition_final_frame
           (new_image WIDTH HEIGHT true) (new_image WIDTH HEIGHT false) 8);
    [vm_compute; reflexivity | lia | vm_compute; reflexivity].
Defined.

(** C6 as stated fails: with step 5 the offsets stop at 125, so the last
    frame still shows the three rightmost columns of the source bitmap. *)
Lemma slide_transition_step5_counterexample :
  let img_from := new_image WIDTH HEIGHT true in
  let img_to := new_image WIDTH HEIGHT false in
  wf img_from ∧ wf img_to ∧
  ∃ frames,
    slide_transition img_from img_to 5 = Some frames ∧
    length frames = 26%nat ∧
    last frames = Some (slide_frame img_from img_to 125) ∧
    getpixel (slide_frame img_from img_to 125) 0 0 = Some true ∧
    getpixel img_to 0 0 = Some false ∧
    last frames ≠ Some img_to.
Proof.
  intros img_from img_to.
  split; [apply wf_new_image|]. split; [apply wf_new_image|].
  assert (getpixel (slide_frame img_from img_to 125) 0 0 = Some true) as Hpix.
  { rewrite getpixel_slide_frame by (unfold WIDTH, HEIGHT; lia).
    change (0 - (WIDTH - 125)) with (-3). change (0 + 125) with 125.
    unfold img_from. rewrite getpixel_new_image by (unfold WIDTH, HEIGHT; lia).
    reflexivity. }
  assert (getpixel img_to 0 0 = Some false) as Hto
    by (apply getpixel_new_image; unfold WIDTH, HEIGHT; lia).
  assert (last (slide_frame img_from img_to <$>
                  ((λ i : nat, 0 + Z.of_nat i * 5) <$> seq 0 26))
          = Some (slide_frame img_from img_to 125)) as Hlast.
  { rewrite last_lookup, !length_fmap, length_seq.
    rewrite !list_lookup_fmap, lookup_seq_lt by (cbn [pred]; lia).
    reflexivity. }
  eexists. split; [unfold slide_transition; rewrite py_range_pos by lia;
                   reflexivity|].
  change (Z.to_nat ((WIDTH + 1 - 0 + 5 - 1) / 5)) with 26%nat.
  split; [by rewrite !length_fmap, length_seq|].
  split; [exact Hlast|]. split; [exact Hpix|]. split; [exact Hto|].
  rewrite Hlast. intros Heq.
  apply (f_equal (λ o, b ← o; getpixel b 0 0)) in Heq.
  cbn [mbind option_bind] in Heq. rewrite Hpix, Hto in Heq. discriminate.
Qed.

End TransitionFacts.

(** * Properties of the navigation state machine *)

Section NavFacts.
Import Nav.

Lemma ensure_visible_window s :
  let s' := ensure_visible s in
  menu_offset s' ≤ selected_index s' < menu_offset s' + VISIBLE_LINES ∧
  selected_index s' = selected_index s.
Proof.
  unfold ensure_visible, VISIBLE_LINES. rewrite Z.geb_leb.
  destruct (Z.ltb_spec (selected_index s) (menu_offset s)); cbn; [lia|].
  destruct (Z.leb_spec (menu_offset s + 7) (selected_index s)); cbn; lia.
Qed.

Lemma ensure_visible_frame s :
  let s' := ensure_visible s in
  encoder_steps s' = encoder_steps s ∧ submenu_thread s' = submenu_thread s ∧
  threads s' = threads s ∧ stop_event s' = stop_event s ∧
  current_view s' = current_view s ∧ show_weather s' = show_weather s ∧
  background_cycle_start s' = background_cycle_start s ∧
  last_user_activity s' = last_user_activity s ∧ clock s' = clock s ∧
  display_log s' = display_log s.
Proof.
  unfold ensure_visible.
  destruct (_ <? _); [done|]. by destruct (_ >=? _).
Qed.

(** C2. After [show_menu] and after [render_menu_image_only] the selected
    index lies in the window of [VISIBLE_LINES] items that starts at
    [menu_offset]; both change the offset only, never the selected index,
    and the bitmap they draw is the one of that index and offset. *)
Theorem menu_render_keeps_selection_visible (s : state) :
  (let s' := show_menu s in
   menu_offset s' ≤ selected_index s' < menu_offset s' + VISIBLE_LINES ∧
   selected_index s' = selected_index s ∧
   display_log s' =
     display_log s ++ [Show (MenuImg (selected_index s') (menu_offset s'))]) ∧
  (let '(img, s') := render_menu_image_only s in
   menu_offset s' ≤ selected_index s' < menu_offset s' + VISIBLE_LINES ∧
   selected_index s' = selected_index s ∧
   img = MenuImg (selected_index s') (menu_offset s')).
Proof.
  pose proof (ensure_visible_window s) as [Hwin Hsel].
  pose proof (ensure_visible_frame s) as (_&_&_&_&_&_&_&_&_&Hlog).
  unfold show_menu, render_menu_image_only, display_image. cbn.
  rewrite Hlog. auto.
Qed.

(** Unfolding the handlers down to record updates, and splitting on every
    test they make. *)
Ltac unfold_nav :=
  unfold step, encoder_when_rotated, encoder_turn, btn_confirm_when_pressed,
    btn_back_when_pressed, btn_knob_when_pressed, Nav.knob_pressed,
    confirm_pressed, back_pressed, Nav.on_rotate, wake_to_menu,
    perform_action, start_submenu, stop_submenu, main_tick,
    show_background_loop_frame, Nav.slide_transition, Nav.fade_to_menu,
    show_menu, render_menu_image_only, ensure_visible, display_image,
    mark_activity, now_ts, Nav.sleep, join, task_exit, applet_alive in *.

Ltac nav_cases :=
  unfold_nav; cbn in *;
  repeat (case_match; cbn in *; simplify_eq; try done).

Lemma only_tick_enters_background s e :
  current_view s = ViewMenu → e ≠ Tick → current_view (step s e) = ViewMenu.
Proof.
  intros Hv He. destruct s, e; try done; nav_cases.
Qed.

Lemma task_exit_alive i s :
  applet_alive (task_exit i s) = true → applet_alive s = true.
Proof.
  unfold task_exit, applet_alive.
  destruct (threads s !! i) as [t|] eqn:Ht; [|done]. cbn.
  destruct (submenu_thread s) as [h|]; [|done].
  destruct (decide (i = h)) as [->|Hne].
  - rewrite list_lookup_insert_eq by (by eapply lookup_lt_Some). done.
  - by rewrite list_lookup_insert_ne.
Qed.

Lemma step_alive_in_menu s e :
  (applet_alive s = true → current_view s = ViewMenu) →
  applet_alive (step s e) = true → current_view (step s e) = ViewMenu.
Proof.
  intros Hinv. destruct e.
  7:{ intros H%task_exit_alive. unfold step, task_exit.
      destruct (threads s !! i); cbn; auto. }
  all: destruct s; nav_cases; auto; intros; congruence.
Qed.

Lemma alive_in_menu s :
  reachable s → applet_alive s = true → current_view s = ViewMenu.
Proof.
  induction 1 as [t0|s e _ IH]; [done|]. by apply step_alive_in_menu.
Qed.

Lemma reachable_run s es : reachable s → reachable (run s es).
Proof.
  revert s. induction es as [|e es IH]; intros s Hs; [done|].
  apply IH. by constructor.
Qed.

Lemma run_snoc s es e : run s (es ++ [e]) = step (run s es) e.
Proof. unfold run. by rewrite foldl_app. Qed.

(** ** Rotation in the menu *)

Lemma show_menu_frame s :
  let s' := show_menu s in
  selected_index s' = selected_index s ∧
  encoder_steps s' = encoder_steps s ∧ submenu_thread s' = submenu_thread s ∧
  threads s' = threads s ∧ stop_event s' = stop_event s ∧
  current_view s' = current_view s ∧
  last_user_activity s' = last_user_activity s ∧ clock s' = clock s ∧
  applet_alive s' = applet_alive s.
Proof.
  pose proof (ensure_visible_window s) as [_ Hsel].
  pose proof (ensure_visible_frame s) as (He&Hh&Ht&?&?&?&?&?&?&?).
  unfold show_menu, display_image, applet_alive. cbn.
  rewrite Hh, Ht. repeat split; congruence.
Qed.

Lemma on_rotate_in_menu s :
  current_view s = ViewMenu → applet_alive s = false →
  Nav.on_rotate s =
    show_menu (set_selected_index
                 (encoder_steps s `mod` Z.of_nat (length menu_items))
                 (mark_activity s)).
Proof.
  intros Hv Ha. unfold Nav.on_rotate.
  change (current_view (mark_activity s)) with (current_view s).
  change (applet_alive (mark_activity s)) with (applet_alive s).
  by rewrite Hv, Ha.
Qed.

Lemma rotate_in_menu s delta :
  current_view s = ViewMenu → applet_alive s = false →
  let s' := step s (Rotate delta) in
  encoder_steps s' =
    Z.max (- MAX_STEPS) (Z.min MAX_STEPS (encoder_steps s + delta)) ∧
  selected_index s' = encoder_steps s' `mod` Z.of_nat (length menu_items) ∧
  current_view s' = ViewMenu ∧ applet_alive s' = false.
Proof.
  intros Hv Ha. cbv zeta. unfold step, encoder_when_rotated.
  rewrite on_rotate_in_menu by done.
  match goal with |- context [show_menu ?x] =>
    pose proof (show_menu_frame x)
      as (Hsel & Hsteps & _ & _ & _ & Hview & _ & _ & Halive)
  end.
  rewrite Hsel, Hsteps, Hview, Halive. done.
Qed.

Lemma rotations_stay_in_menu s deltas :
  current_view s = ViewMenu → applet_alive s = false →
  current_view (run s (Rotate <$> deltas)) = ViewMenu ∧
  applet_alive (run s (Rotate <$> deltas)) = false.
Proof.
  revert s. induction deltas as [|d ds IH]; intros s Hv Ha; [done|].
  destruct (rotate_in_menu s d Hv Ha) as (_ & _ & Hv' & Ha').
  by apply IH.
Qed.

Lemma rotations_count s deltas :
  current_view s = ViewMenu → applet_alive s = false →
  (∀ k : nat,
     - MAX_STEPS ≤ encoder_steps s + sumZ (take k deltas) ≤ MAX_STEPS) →
  encoder_steps (run s (Rotate <$> deltas)) = encoder_steps s + sumZ deltas.
Proof.
  revert s. induction deltas as [|d ds IH]; intros s Hv Ha Hk.
  - cbn. lia.
  - destruct (rotate_in_menu s d Hv Ha) as (Hsteps & _ & Hv' & Ha').
    pose proof (Hk 1%nat) as H1. cbn in H1. rewrite take_0 in H1. cbn in H1.
    assert (encoder_steps (step s (Rotate d)) = encoder_steps s + d) as Hd
      by (rewrite Hsteps; lia).
    change (run s (Rotate <$> d :: ds))
      with (run (step s (Rotate d)) (Rotate <$> ds)).
    rewrite IH; [rewrite Hd; unfold sumZ; cbn [foldr]; lia | done | done |].
    intros k. specialize (Hk (S k)). rewrite Hd.
    unfold sumZ in *. cbn [take foldr] in Hk. lia.
Qed.

(** C1, as amended. After each rotation handled in the menu with no applet
    alive, the selected index is the encoder's position counter modulo the
    number of menu items, hence within range. If the index agreed with the
    counter before the rotations (as it does at start-up) and the counter
    never reached its limits of +-999, the index is the old index plus the
    sum of the rotation deltas, modulo the number of items. *)
Theorem rotations_track_encoder (s : state) (deltas : list Z) :
  current_view s = ViewMenu → applet_alive s = false → deltas ≠ [] →
  let N := Z.of_nat (length menu_items) in
  let s' := run s (Rotate <$> deltas) in
  0 ≤ selected_index s' < N ∧
  selected_index s' = encoder_steps s' `mod` N ∧
  (selected_index s = encoder_steps s `mod` N →
   (∀ k : nat,
      - MAX_STEPS ≤ encoder_steps s + sumZ (take k deltas) ≤ MAX_STEPS) →
   selected_index s' = (selected_index s + sumZ deltas) `mod` N).
Proof.
  intros Hv Ha Hne N s'.
  assert (selected_index s' = encoder_steps s' `mod` N) as Hsel.
  { subst s'. destruct deltas as [|d ds _] using rev_ind; [done|].
    rewrite fmap_app. change (Rotate <$> [d]) with [Rotate d].
    rewrite run_snoc.
    destruct (rotations_stay_in_menu s ds Hv Ha) as [Hv' Ha'].
    by destruct (rotate_in_menu _ d Hv' Ha') as (_ & ? & _). }
  assert (0 < N) by (subst N; cbn; lia).
  split; [rewrite Hsel; by apply Z.mod_pos_bound|]. split; [done|].
  intros Hsync Hk. rewrite Hsel. subst s'.
  rewrite rotations_count, Hsync by done.
  by rewrite Zplus_mod_idemp_l.
Qed.

Lemma rotations_track_encoder_witness :
  let s' := run (init 0) (Rotate <$> [1; 1; -3]) in
  0 ≤ selected_index s' < 12 ∧
  selected_index s' = encoder_steps s' `mod` 12 ∧
  (selected_index (init 0) = encoder_steps (init 0) `mod` 12 →
   (∀ k : nat,
      - MAX_STEPS ≤ encoder_steps (init 0) + sumZ (take k [1; 1; -3])
        ≤ MAX_STEPS) →
   selected_index s' = (selected_index (init 0) + sumZ [1; 1; -3]) `mod` 12).
Proof.
  apply (rotations_track_encoder (init 0) [1; 1; -3]);
    [reflexivity | reflexivity | discriminate].
Defined.

(** The scenario of the specification: twelve items, index 0, rotations
    +1, +1, -3 end on index 11. *)
Example rotate_scenario :
  selected_index (run (init 0) [Rotate 1; Rotate 1; Rotate (-3)]) = 11.
Proof. reflexivity. Qed.

(** C1 as stated fails. A rotation that wakes the display from the
    dashboard moves the encoder but not the selection; the next rotation,
    handled in the menu with no applet alive, then moves the selection by
    two. *)
Lemma rotate_after_wake_counterexample :
  let s := run (init 0) [Elapse 30000; Tick; Rotate 1] in
  reachable s ∧ current_view s = ViewMenu ∧ applet_alive s = false ∧
  selected_index s = 0 ∧
  selected_index (step s (Rotate 1)) = 2 ∧
  (selected_index s + 1) `mod` Z.of_nat (length menu_items) = 1.
Proof.
  intros s. split; [apply reachable_run, reachable_init|].
  vm_compute. done.
Qed.

(** The same happens after a rotation made while an applet was running. *)
Example rotate_after_applet :
  let s := run (init 0) [Confirm (Some 10); Rotate 1; Back] in
  current_view s = ViewMenu ∧ applet_alive s = false ∧
  selected_index s = 0 ∧ selected_index (step s (Rotate 1)) = 2.
Proof. vm_compute. done. Qed.

(** At the limit of the counter a rotation changes nothing. *)
Example rotate_saturated :
  let s := run (init 0) [Rotate 999] in
  selected_index s = 3 ∧ selected_index (step s (Rotate 1)) = 3.
Proof. vm_compute. done. Qed.

(** ** Starting and stopping applets *)

Ltac bool_to_Z :=
  repeat match goal with
  | H : (_ <=? _) = true |- _ => apply Z.leb_le in H
  | H : (_ <=? _) = false |- _ => apply Z.leb_gt in H
  | H : (_ <? _) = true |- _ => apply Z.ltb_lt in H
  | H : (_ <? _) = false |- _ => apply Z.ltb_ge in H
  | H : (_ >=? _) = true |- _ => rewrite Z.geb_leb in H
  | H : (_ >=? _) = false |- _ => rewrite Z.geb_leb in H
  end.

Lemma join_frame timeout i s :
  let s' := join timeout i s in
  selected_index s' = selected_index s ∧ menu_offset s' = menu_offset s ∧
  encoder_steps s' = encoder_steps s ∧ submenu_thread s' = submenu_thread s ∧
  stop_event s' = stop_event s ∧ current_view s' = current_view s ∧
  last_user_activity s' = last_user_activity s ∧
  display_log s' = display_log s ∧
  length (threads s') = length (threads s) ∧
  (0 ≤ timeout → 0 ≤ clock s' - clock s ≤ timeout).
Proof.
  unfold join, Nav.sleep.
  destruct (threads s !! i) as [t|]; [|cbn; repeat split; lia].
  destruct (exit_in t) as [l|]; [|cbn; repeat split; lia].
  destruct (Z.leb_spec l timeout); cbn; rewrite length_insert;
    repeat split; lia.
Qed.

Lemma show_menu_log s :
  display_log (show_menu s) =
  display_log s ++
    [Show (MenuImg (selected_index (show_menu s)) (menu_offset (show_menu s)))].
Proof.
  pose proof (ensure_visible_frame s) as (_&_&_&_&_&_&_&_&_&Hlog).
  unfold show_menu, display_image. cbn. by rewrite Hlog.
Qed.

Lemma stop_submenu_frame s :
  let s' := stop_submenu s in
  stop_event s' = true ∧ 0 ≤ clock s' - clock s ≤ JOIN_TIMEOUT ∧
  selected_index s' = selected_index s ∧
  current_view s' = current_view s ∧
  length (threads s') = length (threads s) ∧
  submenu_thread s' = submenu_thread s ∧
  display_log s' =
    display_log s ++ [Show (MenuImg (selected_index s') (menu_offset s'))].
Proof.
  unfold stop_submenu. cbv zeta.
  set (s0 := set_stop_event true s).
  set (s1 := match submenu_thread s0 with
             | Some i => if applet_alive s0 then join JOIN_TIMEOUT i s0 else s0
             | None => s0
             end).
  assert (selected_index s1 = selected_index s ∧ stop_event s1 = true ∧
          current_view s1 = current_view s ∧
          submenu_thread s1 = submenu_thread s ∧
          display_log s1 = display_log s ∧
          length (threads s1) = length (threads s) ∧
          0 ≤ clock s1 - clock s ≤ JOIN_TIMEOUT) as (Hsel&Hst&Hv&Hh&Hl&Hn&Hc).
  { subst s1. destruct (submenu_thread s0) as [i|] eqn:Hi;
      [|cbn; unfold JOIN_TIMEOUT; repeat split; lia].
    destruct (applet_alive s0); [|cbn; unfold JOIN_TIMEOUT; repeat split; lia].
    pose proof (join_frame JOIN_TIMEOUT i s0) as (?&?&?&?&?&?&?&?&?&Hclk).
    specialize (Hclk ltac:(done)). subst s0. cbn in *.
    repeat split; try (by etrans; [eassumption|]); lia. }
  pose proof (show_menu_log s1) as Hlog.
  pose proof (show_menu_frame s1) as (?&?&?&?&?&?&?&?&?).
  rewrite Hlog. repeat split; try congruence; lia.
Qed.

Lemma start_submenu_alive tgt lat s :
  let s' := start_submenu tgt lat s in
  applet_alive s' = true ∧
  threads s' = threads s ++ [mkTask tgt true lat] ∧
  submenu_thread s' = Some (length (threads s)) ∧
  stop_event s' = false.
Proof.
  unfold start_submenu, applet_alive. cbn.
  by rewrite list_lookup_middle.
Qed.

Lemma stop_submenu_not_alive s :
  exits_in_time s = true → applet_alive (stop_submenu s) = false.
Proof.
  intros Hex. unfold stop_submenu. cbv zeta.
  match goal with |- context [show_menu ?x] =>
    pose proof (show_menu_frame x) as (_&_&_&_&_&_&_&_&->)
  end.
  unfold exits_in_time in Hex. unfold applet_alive at 2. cbn.
  destruct (submenu_thread s) as [i|] eqn:Hi;
    [|unfold applet_alive; cbn; by rewrite Hi].
  destruct (threads s !! i) as [t|] eqn:Ht;
    [|unfold applet_alive; cbn; by rewrite Hi, Ht].
  destruct (alive t) eqn:Hal;
    [|unfold applet_alive; cbn; by rewrite Hi, Ht].
  destruct (exit_in t) as [l|] eqn:Hl; [|done]. cbn in Hex.
  unfold join, applet_alive. cbn. rewrite Ht, Hl, Hex. cbn. rewrite Hi.
  rewrite list_lookup_insert_eq by (by eapply lookup_lt_Some). done.
Qed.

Lemma actions_defined i :
  0 ≤ i < Z.of_nat (length menu_items) → is_Some (actions i).
Proof.
  cbn. intros Hi.
  assert (i = 0 ∨ i = 1 ∨ i = 2 ∨ i = 3 ∨ i = 4 ∨ i = 5 ∨ i = 6 ∨ i = 7 ∨
          i = 8 ∨ i = 9 ∨ i = 10 ∨ i = 11) as Hcases by lia.
  repeat (destruct Hcases as [->|Hcases]; [by eexists|]). subst. by eexists.
Qed.

Lemma confirm_in_menu_starts lat s act :
  current_view s = ViewMenu → applet_alive s = false →
  actions (selected_index s) = Some act →
  btn_confirm_when_pressed lat s = start_submenu act lat (mark_activity s).
Proof.
  intros Hv Ha Hact. unfold btn_confirm_when_pressed, confirm_pressed.
  rewrite Ha. cbn [negb].
  change (current_view (mark_activity s)) with (current_view s).
  change (applet_alive (mark_activity s)) with (applet_alive s).
  rewrite Hv, Ha. unfold perform_action.
  change (selected_index (mark_activity s)) with (selected_index s).
  by rewrite Hact.
Qed.

Lemma wake_to_menu_frame s :
  let s' := wake_to_menu s in
  threads s' = threads s ∧ submenu_thread s' = submenu_thread s ∧
  stop_event s' = stop_event s ∧ selected_index s' = selected_index s ∧
  last_user_activity s' = last_user_activity s.
Proof. destruct s. nav_cases. Qed.

(** C3, as amended. While an applet is alive no confirm press starts a
    second one: [confirm_pressed] (also reached from the knob) leaves the
    thread list and the handle as they are, but in the menu view it raises
    the cancellation signal; the confirm button itself runs [stop_submenu],
    which keeps the handle and the number of threads and raises the signal
    too. *)
Theorem confirm_while_alive_starts_nothing (s : state) (lat : option Z) :
  applet_alive s = true →
  (let s' := confirm_pressed lat s in
   threads s' = threads s ∧ submenu_thread s' = submenu_thread s ∧
   applet_alive s' = true ∧
   (current_view s = ViewMenu → stop_event s' = true)) ∧
  Nav.knob_pressed lat s = confirm_pressed lat s ∧
  (let s' := btn_confirm_when_pressed lat s in
   s' = stop_submenu s ∧ length (threads s') = length (threads s) ∧
   submenu_thread s' = submenu_thread s ∧ stop_event s' = true).
Proof.
  intros Ha. split; [|split; [done|]].
  - unfold confirm_pressed. cbv zeta.
    change (current_view (mark_activity s)) with (current_view s).
    change (applet_alive (mark_activity s)) with (applet_alive s).
    rewrite Ha. destruct (current_view s) eqn:Hv.
    + unfold applet_alive in *. cbn. done.
    + pose proof (wake_to_menu_frame (mark_activity s)) as (Ht&Hh&_).
      unfold applet_alive in *. rewrite Ht, Hh. cbn. done.
  - unfold btn_confirm_when_pressed. rewrite Ha. cbn [negb].
    pose proof (stop_submenu_frame s) as (?&?&?&?&?&?&?). done.
Qed.

Lemma confirm_while_alive_starts_nothing_witness :
  let s := run (init 0) [Confirm (Some 100)] in
  (let s' := confirm_pressed (Some 5) s in
   threads s' = threads s ∧ submenu_thread s' = submenu_thread s ∧
   applet_alive s' = true ∧
   (current_view s = ViewMenu → stop_event s' = true)) ∧
  Nav.knob_pressed (Some 5) s = confirm_pressed (Some 5) s ∧
  (let s' := btn_confirm_when_pressed (Some 5) s in
   s' = stop_submenu s ∧ length (threads s') = length (threads s) ∧
   submenu_thread s' = submenu_thread s ∧ stop_event s' = true).
Proof.
  apply (confirm_while_alive_starts_nothing
           (run (init 0) [Confirm (Some 100)]) (Some 5)).
  reflexivity.
Defined.

(** C3 as stated fails. [start_submenu] has no guard of its own: invoked
    while the clock applet runs, it starts a second thread next to the
    first, moves the handle to it and clears a cancellation signal that was
    set. The guard is in [confirm_pressed], and that one does not leave the
    cancellation signal unchanged: it sets it. *)
Lemma start_while_alive_counterexample :
  let s := run (init 0) [Confirm (Some 100)] in
  applet_alive s = true ∧
  threads s = [mkTask screen_clock true (Some 100)] ∧
  submenu_thread s = Some 0%nat ∧ stop_event s = false ∧
  (let s' := start_submenu screen_uptime None s in
   threads s' = [mkTask screen_clock true (Some 100);
                 mkTask screen_uptime true None]
   ∧ submenu_thread s' = Some 1%nat) ∧
  stop_event (start_submenu screen_uptime None (set_stop_event true s))
    = false ∧
  stop_event (confirm_pressed None s) = true.
Proof. vm_compute. done. Qed.

(** C4, as amended. [stop_submenu] always returns, having waited at most
    the timeout of its [join], with the cancellation signal set. A call of
    [start_submenu] after it always starts a new thread. If the applet
    finishes within the timeout, no applet is alive afterwards and the next
    confirm press in the menu starts the selected action. *)
Theorem stop_returns_within_timeout (s : state) :
  let s1 := stop_submenu s in
  0 ≤ clock s1 - clock s ≤ JOIN_TIMEOUT ∧ stop_event s1 = true ∧
  (∀ tgt lat,
     let s2 := start_submenu tgt lat s1 in
     applet_alive s2 = true ∧
     threads s2 = threads s1 ++ [mkTask tgt true lat] ∧
     submenu_thread s2 = Some (length (threads s1)) ∧
     stop_event s2 = false) ∧
  (exits_in_time s = true →
   applet_alive s1 = false ∧
   (current_view s = ViewMenu →
    0 ≤ selected_index s < Z.of_nat (length menu_items) →
    ∀ lat, ∃ act,
      actions (selected_index s) = Some act ∧
      let s2 := btn_confirm_when_pressed lat s1 in
      applet_alive s2 = true ∧
      threads s2 = threads s1 ++ [mkTask act true lat])).
Proof.
  intros s1. pose proof (stop_submenu_frame s) as (Hst&Hclk&Hsel&Hv&_).
  fold s1 in Hst, Hclk, Hsel, Hv.
  split; [done|]. split; [done|]. split.
  - intros tgt lat. apply start_submenu_alive.
  - intros Hex. pose proof (stop_submenu_not_alive s Hex) as Hdead.
    fold s1 in Hdead. split; [done|].
    intros Hview Hidx lat.
    destruct (actions_defined _ Hidx) as [act Hact]. exists act.
    split; [done|]. cbv zeta.
    rewrite (confirm_in_menu_starts lat s1 act) by congruence.
    pose proof (start_submenu_alive act lat (mark_activity s1)) as (?&?&_).
    done.
Qed.

Lemma stop_returns_within_timeout_witness :
  let s := run (init 0) [Confirm (Some 40)] in
  let s1 := stop_submenu s in
  exits_in_time s = true ∧
  0 ≤ clock s1 - clock s ≤ JOIN_TIMEOUT ∧ applet_alive s1 = false ∧
  ∃ act,
    actions (selected_index s) = Some act ∧
    let s2 := btn_confirm_when_pressed None s1 in
    applet_alive s2 = true ∧ threads s2 = threads s1 ++ [mkTask act true None].
Proof.
  intros s s1.
  pose proof (stop_returns_within_timeout s) as (Hclk & _ & _ & Hex).
  specialize (Hex eq_refl) as [Hdead Hnext].
  split; [reflexivity|]. split; [exact Hclk|]. split; [exact Hdead|].
  apply Hnext; [reflexivity | vm_compute; split; [discriminate | reflexivity]].
Defined.

Lemma hung_step s e :
  hung s = true → is_task_exit e = false →
  let s' := step s e in
  threads s' = threads s ∧ submenu_thread s' = submenu_thread s.
Proof.
  intros Hh He. destruct e; try done; destruct s; unfold hung in Hh;
    nav_cases.
Qed.

Lemma hung_run s es :
  hung s = true → forallb (λ e, negb (is_task_exit e)) es = true →
  threads (run s es) = threads s ∧
  submenu_thread (run s es) = submenu_thread s.
Proof.
  revert s. induction es as [|e es IH]; intros s Hh Hes; [done|].
  cbn in Hes. apply andb_true_iff in Hes as [He Hes].
  apply negb_true_iff in He.
  destruct (hung_step s e Hh He) as [Ht Hi].
  assert (hung (step s e) = true) as Hh'
    by (unfold hung in *; by rewrite Ht, Hi).
  destruct (IH (step s e) Hh' Hes) as [Ht' Hi'].
  change (run s (e :: es)) with (run (step s e) es). split; congruence.
Qed.

(** C4 as stated fails. "Restart Jellyfin" runs a shell command in the
    applet thread and never looks at the cancellation signal; when the
    command does not return, [stop_submenu] returns after the full timeout
    with the thread still alive, and from then on every confirm press is
    routed to the stop path again: nothing is started, however often it is
    repeated and however much time passes. *)
Lemma hung_applet_counterexample :
  let s := run (init 0) [Rotate 8; Confirm None] in
  let s1 := stop_submenu s in
  applet_alive s = true ∧
  threads s = [mkTask restart_jellyfin true None] ∧
  clock s1 - clock s = JOIN_TIMEOUT ∧ applet_alive s1 = true ∧
  (∀ lat, step s1 (Confirm lat) = stop_submenu s1) ∧
  ∀ es, forallb (λ e, negb (is_task_exit e)) es = true →
        threads (run s1 es) = [mkTask restart_jellyfin true None] ∧
        applet_alive (run s1 es) = true.
Proof.
  intros s s1. do 5 (split; [reflexivity|]).
  intros es Hes.
  destruct (hung_run s1 es eq_refl Hes) as [Ht Hi].
  unfold applet_alive. rewrite Ht, Hi. done.
Qed.

(** ** What reaches the display *)

Lemma step_standard_ops s e :
  Forall standard_op (display_log s) →
  Forall standard_op (display_log (step s e)).
Proof.
  intros Hlog. destruct s, e; nav_cases;
    rewrite ?Forall_app, ?Forall_singleton; done.
Qed.

Lemma reachable_standard_ops s :
  reachable s → Forall standard_op (display_log s).
Proof.
  induction 1 as [t0|s e _ IH]; [|by apply step_standard_ops].
  cbn. by repeat constructor.
Qed.

(** Every call recorded in a reachable state stands for a sequence of
    frames: 1 for a plain image, 17 for a slide, 10 for a fade. *)
Lemma reachable_frames render s op :
  reachable s → op ∈ display_log s →
  ∃ frames, frames_of render op = Some frames ∧
    length frames = match op with
                    | Show _ => 1%nat
                    | Slide _ _ _ => 17%nat
                    | Fade _ _ _ => 10%nat
                    end.
Proof.
  intros Hr Hin. apply reachable_standard_ops in Hr.
  rewrite Forall_forall in Hr. specialize (Hr op Hin).
  destruct op as [img|a b step|a b steps]; cbn in Hr; subst.
  - by eexists.
  - eexists. split; [reflexivity|]. by rewrite length_fmap.
  - eexists. split; [reflexivity|]. by rewrite length_fmap.
Qed.

(** ** Idle timeout *)

Lemma main_tick_idle s :
  current_view s = ViewMenu → applet_alive s = false →
  IDLE_TIMEOUT ≤ clock s - last_user_activity s →
  current_view (main_tick s) = ViewBackground.
Proof.
  intros Hv Ha Hidle. destruct s. unfold IDLE_TIMEOUT, TICK in *.
  cbn in Hv, Hidle. subst. nav_cases; bool_to_Z; unfold IDLE_TIMEOUT, TICK in *;
    lia.
Qed.

Lemma main_tick_not_idle s :
  current_view s = ViewMenu →
  clock s + TICK - last_user_activity s < IDLE_TIMEOUT →
  current_view (main_tick s) = ViewMenu.
Proof.
  intros Hv Hidle. destruct s. cbn in Hv, Hidle. subst.
  nav_cases; bool_to_Z; unfold IDLE_TIMEOUT, TICK in *; lia.
Qed.

Lemma input_marks_activity s e :
  current_view s = ViewMenu → applet_alive s = false → is_input e = true →
  last_user_activity (step s e) = clock s ∧ clock (step s e) = clock s.
Proof.
  intros Hv Ha He. destruct e; try done; destruct s; cbn in Hv; subst;
    nav_cases.
Qed.

(** C7. In the menu with no applet alive: once the idle time has reached
    [IDLE_TIMEOUT], the next iteration of the main loop switches to the
    dashboard; nothing but an iteration of the main loop leaves the menu
    view; and an input event handled before the threshold sets
    [last_user_activity] to the current time, so that an iteration of the
    main loop less than [IDLE_TIMEOUT] after the event stays in the menu. *)
Theorem idle_timeout_transition (s : state) :
  current_view s = ViewMenu → applet_alive s = false →
  (IDLE_TIMEOUT ≤ clock s - last_user_activity s →
   current_view (step s Tick) = ViewBackground) ∧
  (∀ e, e ≠ Tick → current_view (step s e) = ViewMenu) ∧
  (∀ e d,
     is_input e = true →
     clock s - last_user_activity s < IDLE_TIMEOUT →
     let s1 := step s e in
     last_user_activity s1 = clock s ∧
     (0 ≤ d → d + TICK < IDLE_TIMEOUT →
      current_view (step (step s1 (Elapse d)) Tick) = ViewMenu)).
Proof.
  intros Hv Ha. split; [|split].
  - by apply main_tick_idle.
  - intros e He. by apply only_tick_enters_background.
  - intros e d He _ s1.
    destruct (input_marks_activity s e Hv Ha He) as [Hlast Hclk].
    fold s1 in Hlast, Hclk. split; [done|]. intros Hd Hlt.
    assert (current_view s1 = ViewMenu) as Hv1.
    { apply only_tick_enters_background; [done|]. by destruct e. }
    apply main_tick_not_idle; [done|].
    cbn. rewrite Hlast, Hclk. lia.
Qed.

Lemma idle_timeout_transition_witness :
  let s := step (init 0) (Elapse 30000) in
  (IDLE_TIMEOUT ≤ clock s - last_user_activity s →
   current_view (step s Tick) = ViewBackground) ∧
  (∀ e, e ≠ Tick → current_view (step s e) = ViewMenu) ∧
  (∀ e d,
     is_input e = true →
     clock s - last_user_activity s < IDLE_TIMEOUT →
     let s1 := step s e in
     last_user_activity s1 = clock s ∧
     (0 ≤ d → d + TICK < IDLE_TIMEOUT →
      current_view (step (step s1 (Elapse d)) Tick) = ViewMenu)).
Proof.
  apply (idle_timeout_transition (step (init 0) (Elapse 30000)));
    reflexivity.
Defined.

(** Thirty seconds without input, then one iteration of the main loop. *)
Example idle_scenario :
  current_view (run (init 0) [Elapse 29000; Tick]) = ViewMenu ∧
  current_view (run (init 0) [Elapse 30000; Tick]) = ViewBackground ∧
  current_view (run (init 0) [Elapse 29000; Back; Elapse 29000; Tick])
    = ViewMenu.
Proof. vm_compute. done. Qed.

(** ** Input while an applet runs *)

Lemma rotate_while_alive s delta :
  current_view s = ViewMenu → applet_alive s = true →
  let s' := step s (Rotate delta) in
  selected_index s' = selected_index s ∧ menu_offset s' = menu_offset s ∧
  current_view s' = current_view s ∧ applet_alive s' = true ∧
  threads s' = threads s ∧ submenu_thread s' = submenu_thread s ∧
  stop_event s' = stop_event s ∧ display_log s' = display_log s.
Proof.
  intros Hv Ha. cbv zeta. unfold step, encoder_when_rotated, Nav.on_rotate.
  cbv zeta.
  change (current_view (mark_activity (encoder_turn delta s)))
    with (current_view s).
  change (applet_alive (mark_activity (encoder_turn delta s)))
    with (applet_alive s).
  rewrite Hv, Ha. done.
Qed.

(** C8. While an applet is alive (in any reachable state), a rotation
    changes neither the selected index nor the offset nor the view, and the
    applet stays alive; the confirm and the back button both run
    [stop_submenu], which sets the cancellation signal, waits at most the
    join timeout, starts nothing, keeps the selection and ends by showing
    the menu. *)
Theorem applet_running_input_routing (s : state) :
  reachable s → applet_alive s = true →
  (∀ delta,
     let s' := step s (Rotate delta) in
     selected_index s' = selected_index s ∧ menu_offset s' = menu_offset s ∧
     current_view s' = current_view s ∧ applet_alive s' = true ∧
     threads s' = threads s ∧ stop_event s' = stop_event s ∧
     display_log s' = display_log s) ∧
  (∀ lat, step s (Confirm lat) = stop_submenu s) ∧
  step s Back = stop_submenu s ∧
  (let s' := stop_submenu s in
   stop_event s' = true ∧ 0 ≤ clock s' - clock s ≤ JOIN_TIMEOUT ∧
   selected_index s' = selected_index s ∧ current_view s' = ViewMenu ∧
   length (threads s') = length (threads s) ∧
   submenu_thread s' = submenu_thread s ∧
   display_log s' =
     display_log s ++ [Show (MenuImg (selected_index s') (menu_offset s'))]).
Proof.
  intros Hr Ha. pose proof (alive_in_menu s Hr Ha) as Hv.
  split; [|split; [|split]].
  - intros delta.
    pose proof (rotate_while_alive s delta Hv Ha) as (?&?&?&?&?&?&?&?).
    done.
  - intros lat. cbn. unfold btn_confirm_when_pressed. by rewrite Ha.
  - cbn. unfold btn_back_when_pressed. by rewrite Ha.
  - pose proof (stop_submenu_frame s) as (?&?&?&Hv'&?&?&?).
    rewrite Hv in Hv'. done.
Qed.

Lemma applet_running_input_routing_witness :
  let s := run (init 0) [Rotate 7; Confirm (Some 30)] in
  (∀ delta,
     let s' := step s (Rotate delta) in
     selected_index s' = selected_index s ∧ menu_offset s' = menu_offset s ∧
     current_view s' = current_view s ∧ applet_alive s' = true ∧
     threads s' = threads s ∧ stop_event s' = stop_event s ∧
     display_log s' = display_log s) ∧
  (∀ lat, step s (Confirm lat) = stop_submenu s) ∧
  step s Back = stop_submenu s ∧
  (let s' := stop_submenu s in
   stop_event s' = true ∧ 0 ≤ clock s' - clock s ≤ JOIN_TIMEOUT ∧
   selected_index s' = selected_index s ∧ current_view s' = ViewMenu ∧
   length (threads s') = length (threads s) ∧
   submenu_thread s' = submenu_thread s ∧
   display_log s' =
     display_log s ++ [Show (MenuImg (selected_index s') (menu_offset s'))]).
Proof.
  apply (applet_running_input_routing
           (run (init 0) [Rotate 7; Confirm (Some 30)])).
  - apply reachable_step, reachable_step, reachable_init.
  - reflexivity.
Defined.

(** The knob is wired to [knob_pressed], not to the lambda of the confirm
    button: with an applet alive it only sets the cancellation signal. *)
Example knob_while_alive :
  let s := run (init 0) [Confirm (Some 30)] in
  let s' := step s (KnobPress None) in
  stop_event s' = true ∧ clock s' = clock s ∧
  display_log s' = display_log s ∧ threads s' = threads s.
Proof. vm_compute. done. Qed.

End NavFacts.

(** * Properties of the game applets *)

Section AppletFacts.
Import Applet.
Variable E : env.

Lemma steady_bind {A B} (m : M A) (f : A → M B) :
  steady m → (∀ a, steady (f a)) → steady (bind m f).
Proof.
  intros Hm Hf w. specialize (Hm w). unfold bind.
  destruct (m w) as [[a| |e|] w']; cbn in *; destruct Hm as (Hk&Hr&?&?);
    [|done..].
  specialize (Hf a w'). destruct Hf as (Hk'&Hr'&?&?).
  repeat split; [congruence | congruence | lia | done].
Qed.

Lemma steady_ret {A} (a : A) : steady (ret a).
Proof. done. Qed.

Lemma steady_return {A} : steady (@return_ A).
Proof. done. Qed.

Lemma steady_poll : steady (poll E).
Proof. intros w. cbn. repeat split; try done. lia. Qed.

Lemma steady_display : steady (display E).
Proof. intros w. unfold display. by destruct (fault E _). Qed.

Lemma steady_sleep ms : steady (sleep ms).
Proof. done. Qed.

Lemma steady_check_cancel : steady (check_cancel E).
Proof.
  apply steady_bind; [apply steady_poll|].
  intros [|]; [apply steady_return | apply steady_ret].
Qed.

Lemma steady_for_range n (body : M unit) :
  steady body → steady (for_range n body).
Proof.
  intros Hb. induction n as [|n IH]; [apply steady_ret|].
  by apply steady_bind.
Qed.

Create HintDb steady.
#[local] Hint Resolve steady_ret steady_return steady_poll steady_display
  steady_sleep steady_check_cancel : steady.

Ltac steady :=
  repeat first
    [ apply steady_bind; [|intros ?]
    | apply steady_for_range
    | match goal with |- steady (if ?b then _ else _) => destruct b end
    | solve [auto with steady] ].

Lemma steady_spaceinvaders_frame i : steady (spaceinvaders_frame E i).
Proof. unfold spaceinvaders_frame. steady. Qed.

Lemma steady_gameoflife_frame i : steady (gameoflife_frame E i).
Proof. unfold gameoflife_frame, fade_pass. steady. Qed.

(** Every frame reads the cancellation condition first. *)
Lemma frame_polls (rest : M unit) w :
  steady rest →
  match (check_cancel E >> rest) w with
  | (Val _, w') => cancelled E (polls w) = false ∧ (polls w < polls w')%nat
  | _ => True
  end.
Proof.
  intros Hr. unfold bind, check_cancel, poll, bind. cbn.
  destruct (cancelled E (polls w)); cbn; [done|].
  match goal with |- context [rest ?x] => specialize (Hr x) end.
  destruct (rest _) as [[[]| |e|] w']; cbn in *; try done.
  split; [done | lia].
Qed.

Lemma while_true_slots fuel (body : nat → M unit) i w :
  (∀ i, steady (body i)) →
  knob_when_pressed (while_true fuel body i w).2 = knob_when_pressed w ∧
  encoder_when_rotated (while_true fuel body i w).2 = encoder_when_rotated w.
Proof.
  intros Hb. revert i w. induction fuel as [|fuel IH]; intros i w; [done|].
  cbn [while_true]. unfold bind.
  destruct (Hb i w) as (Hk & Hr & _ & _).
  destruct (body i w) as [[[]| |e|] w']; cbn in *; try done.
  destruct (IH (S i) w') as [-> ->]. done.
Qed.

(** Once the cancellation condition holds at every read from the [k]-th
    on, [k + 1] iterations are enough for the loop to end. *)
Lemma while_true_ends k (body : nat → M unit) i w :
  (∀ i, ∃ rest, steady rest ∧ body i = (check_cancel E >> rest)) →
  (∀ n, (polls w + k ≤ n)%nat → cancelled E n = true) →
  finished (while_true (S k) body i w).1 = true.
Proof.
  intros Hb. revert i w. induction k as [|k IH]; intros i w Hc.
  - cbn [while_true]. destruct (Hb i) as (rest & Hrest & ->).
    pose proof (frame_polls rest w Hrest) as Hp.
    unfold bind at 1.
    destruct ((check_cancel E >> rest) w) as [[[]| |e|] w'] eqn:Hw; cbn;
      try done.
    + destruct Hp as [Hp _]. rewrite Hc in Hp by lia. done.
    + assert (steady (check_cancel E >> rest)) as Hs by steady.
      specialize (Hs w) as (_&_&_&Hs). by rewrite Hw in Hs.
  - change (while_true (S (S k)) body i)
      with (body i >> while_true (S k) body (S i)).
    destruct (Hb i) as (rest & Hrest & Hbody). rewrite Hbody.
    pose proof (frame_polls rest w Hrest) as Hp.
    unfold bind at 1.
    destruct ((check_cancel E >> rest) w) as [[[]| |e|] w'] eqn:Hw; cbn;
      try done.
    + apply IH. intros n Hn. apply Hc. lia.
    + assert (steady (check_cancel E >> rest)) as Hs by steady.
      specialize (Hs w) as (_&_&_&Hs). by rewrite Hw in Hs.
Qed.

(** C9. Each of the two games binds the knob to its own handler while it
    runs and, on every way out of its loop (cancellation or back press,
    game over, an exception raised by the display), leaves the knob bound to
    what it was bound to before the game started. Space Invaders also
    re-enables the menu's rotation handler. *)
Theorem games_restore_knob (fuel : nat) (w : world) :
  (let (r, w') := screen_spaceinvaders E fuel w in
   if finished r
   then knob_when_pressed w' = knob_when_pressed w ∧
        encoder_when_rotated w' = on_rotate
   else knob_when_pressed w' = fire_bullet ∧
        encoder_when_rotated w' = ignore_rotation) ∧
  (let (r, w') := screen_gameoflife E fuel w in
   if finished r
   then knob_when_pressed w' = knob_when_pressed w
   else knob_when_pressed w' = regenerate_pressed).
Proof.
  split.
  - unfold screen_spaceinvaders, bind at 1 2 3. cbn. unfold try_finally.
    match goal with |- context [while_true fuel ?b 0 ?x] =>
      pose proof (while_true_slots fuel b 0 x steady_spaceinvaders_frame)
        as [Hk Hr];
      destruct (while_true fuel b 0 x) as [[[]| |e|] w']
    end; cbn in *; done.
  - unfold screen_gameoflife, bind at 1 2. cbn. unfold try_finally.
    match goal with |- context [while_true fuel ?b 0 ?x] =>
      pose proof (while_true_slots fuel b 0 x steady_gameoflife_frame)
        as [Hk Hr];
      destruct (while_true fuel b 0 x) as [[[]| |e|] w']
    end; cbn in *; done.
Qed.

(** Both games end once cancellation is signalled and stays signalled. *)
Lemma spaceinvaders_ends k w :
  (∀ n, (polls w + k ≤ n)%nat → cancelled E n = true) →
  finished (screen_spaceinvaders E (S k) w).1 = true.
Proof.
  intros Hc. unfold screen_spaceinvaders, bind at 1 2 3. cbn -[while_true].
  unfold try_finally.
  match goal with |- context [while_true (S k) ?b 0 ?x] =>
    pose proof (while_true_ends k b 0 x) as Hend;
    destruct (while_true (S k) b 0 x) as [[[]| |e|] w']
  end; cbn -[while_true] in *; try done.
  apply Hend; [|done]. intros i. eexists. split; [|reflexivity].
  unfold spaceinvaders_frame. steady.
Qed.

Lemma gameoflife_ends k w :
  (∀ n, (polls w + k ≤ n)%nat → cancelled E n = true) →
  finished (screen_gameoflife E (S k) w).1 = true.
Proof.
  intros Hc. unfold screen_gameoflife, bind at 1 2. cbn -[while_true].
  unfold try_finally.
  match goal with |- context [while_true (S k) ?b 0 ?x] =>
    pose proof (while_true_ends k b 0 x) as Hend;
    destruct (while_true (S k) b 0 x) as [[[]| |e|] w']
  end; cbn -[while_true] in *; try done.
  apply Hend; [|done]. intros i. eexists. split; [|reflexivity].
  unfold fade_pass. steady.
Qed.

End AppletFacts.

Section AppletRuns.
Import Applet.

(** Three runs of Space Invaders from the menu's bindings: the back button
    is pressed during the third frame; the aliens win in the second frame;
    the display raises in the second frame. *)

Example spaceinvaders_cancelled :
  let E := mkEnv (λ n, Nat.leb 2 n) (fault quiet) (game_over quiet)
                 (regenerate quiet) (delay_ticks quiet) in
  screen_spaceinvaders E 10 menu_world
    = (Return, mkWorld knob_pressed on_rotate 3 2 60).
Proof. reflexivity. Qed.

Example spaceinvaders_game_over :
  let E := mkEnv (cancelled quiet) (fault quiet) (λ i, Nat.eqb i 1)
                 (regenerate quiet) (delay_ticks quiet) in
  screen_spaceinvaders E 10 menu_world
    = (Return, mkWorld knob_pressed on_rotate 2 2 1530).
Proof. reflexivity. Qed.

Example spaceinvaders_display_fails :
  let E := mkEnv (cancelled quiet)
                 (λ n, if Nat.eqb n 1 then Some "OSError"%string else None)
                 (game_over quiet) (regenerate quiet) (delay_ticks quiet) in
  screen_spaceinvaders E 10 menu_world
    = (Raise "OSError", mkWorld knob_pressed on_rotate 2 2 30).
Proof. reflexivity. Qed.

Example gameoflife_still_running :
  (screen_gameoflife quiet 3 menu_world).1 = Running ∧
  knob_when_pressed (screen_gameoflife quiet 3 menu_world).2
    = regenerate_pressed.
Proof. vm_compute. done. Qed.

Example gameoflife_cancelled_in_fade :
  let E := mkEnv (λ n, Nat.leb 5 n) (fault quiet) (game_over quiet)
                 (λ _, true) (delay_ticks quiet) in
  screen_gameoflife E 3 menu_world
    = (Return, mkWorld knob_pressed on_rotate 6 4 120).
Proof. reflexivity. Qed.

End AppletRuns.

(** * Properties of the weather cache *)

Section WeatherFacts.
Import Weather.

(** C10. [get_weather] within the refresh interval returns the cached
    snapshot, changes nothing and sends no request; when the request or the
    parsing of its answer raises, it returns the cached snapshot and leaves
    both [cached_weather] and [last_weather_update] as they were. *)
Theorem get_weather_cache_stable (now now' : Z) (response : option json)
    (c : cache) :
  (now - last_weather_update c < WEATHER_UPDATE_INTERVAL →
   get_weather now now' response c = (cached_weather c, c)) ∧
  (fetch_raises response = true →
   let (w, c') := get_weather now now' response c in
   w = cached_weather c ∧ cached_weather c' = cached_weather c ∧
   last_weather_update c' = last_weather_update c).
Proof.
  unfold get_weather, fetch_raises. split.
  - intros Hlt. by destruct (Z.ltb_spec (now - last_weather_update c)
                                        WEATHER_UPDATE_INTERVAL); [|lia].
  - intros Hr. destruct (_ <? _); [done|].
    destruct response as [data|]; [|done].
    by destruct (parse data).
Qed.

Lemma get_weather_cache_stable_witness :
  let c := mkCache 1000 (mkSnapshot 70 rain [70; 71]%Q) 1 in
  get_weather 5000 5001 None c = (cached_weather c, c) ∧
  (let (w, c') := get_weather 700000 700003 (Some (answer bad_hourly)) c in
   w = cached_weather c ∧ cached_weather c' = cached_weather c ∧
   last_weather_update c' = last_weather_update c).
Proof.
  intros c. split.
  - apply (get_weather_cache_stable 5000 5001 None c). reflexivity.
  - apply (get_weather_cache_stable 700000 700003 (Some (answer bad_hourly)) c).
    reflexivity.
Defined.

(** A good answer after the interval replaces the snapshot and the time
    stamp, so the statements above are not about a cache that never
    changes. *)
Example get_weather_refreshes :
  let c := mkCache 1000 (mkSnapshot 70 sun []) 1 in
  let (w, c') := get_weather 700000 700003 (Some (answer good_hourly)) c in
  cond w = rain ∧ (temp_f w == 68)%Q ∧ length (forecast w) = 4%nat ∧
  cached_weather c' = w ∧ last_weather_update c' = 700003 ∧
  requests_sent c' = 2%nat.
Proof. vm_compute. done. Qed.

Example parse_failures :
  parse (JObj []) = None ∧ parse JNull = None ∧
  parse (answer bad_hourly) = None ∧
  parse (JObj [("current_weather"%string,
                JObj [("temperature"%string, JStr "20")])]) = None.
Proof. vm_compute. done. Qed.

End WeatherFacts.

(** * More about the navigation state machine *)

Section NavInvariants.
Import Nav Menu.

Ltac unfold_nav :=
  unfold step, encoder_when_rotated, encoder_turn, btn_confirm_when_pressed,
    btn_back_when_pressed, btn_knob_when_pressed, Nav.knob_pressed,
    confirm_pressed, back_pressed, Nav.on_rotate, wake_to_menu,
    perform_action, start_submenu, stop_submenu, main_tick,
    show_background_loop_frame, Nav.slide_transition, Nav.fade_to_menu,
    show_menu, render_menu_image_only, ensure_visible, display_image,
    mark_activity, now_ts, Nav.sleep, join, task_exit, applet_alive in *.

Ltac nav_cases :=
  unfold_nav; cbn in *;
  repeat (case_match; cbn in *; simplify_eq; try done).

Ltac bool_to_Z :=
  repeat match goal with
  | H : (_ <=? _) = true |- _ => apply Z.leb_le in H
  | H : (_ <=? _) = false |- _ => apply Z.leb_gt in H
  | H : (_ <? _) = true |- _ => apply Z.ltb_lt in H
  | H : (_ <? _) = false |- _ => apply Z.ltb_ge in H
  | H : (_ >=? _) = true |- _ => rewrite Z.geb_leb in H
  | H : (_ >=? _) = false |- _ => rewrite Z.geb_leb in H
  | H : (_ >? _) = true |- _ => rewrite Z.gtb_ltb in H
  | H : (_ >? _) = false |- _ => rewrite Z.gtb_ltb in H
  end.

Lemma ensure_visible_ok s :
  0 ≤ selected_index s < Z.of_nat (length menu_items) →
  0 ≤ menu_offset s →
  menu_offset s + VISIBLE_LINES ≤ Z.of_nat (length menu_items) →
  menu_ok (ensure_visible s).
Proof.
  unfold menu_ok, ensure_visible, VISIBLE_LINES. cbn [length menu_items].
  intros Hs Ho Hw. rewrite Z.geb_leb.
  destruct (Z.ltb_spec (selected_index s) (menu_offset s)); cbn; [lia|].
  destruct (Z.leb_spec (menu_offset s + 7) (selected_index s)); cbn; lia.
Qed.

Lemma ensure_visible_id s : menu_ok s → ensure_visible s = s.
Proof.
  unfold menu_ok, ensure_visible, VISIBLE_LINES. intros (Hs & Ho & Hw & _).
  rewrite Z.geb_leb.
  destruct (Z.ltb_spec (selected_index s) (menu_offset s)); [lia|].
  by destruct (Z.leb_spec (menu_offset s + 7) (selected_index s)); [lia|].
Qed.

Lemma menu_ok_fields s s' :
  selected_index s' = selected_index s → menu_offset s' = menu_offset s →
  menu_ok s → menu_ok s'.
Proof. unfold menu_ok. by intros -> ->. Qed.

Lemma show_menu_ok s : menu_ok s → menu_ok (show_menu s).
Proof.
  intros Hok. unfold show_menu. rewrite (ensure_visible_id s Hok).
  by apply (menu_ok_fields s).
Qed.

Lemma wake_to_menu_ok s : menu_ok s → menu_ok (wake_to_menu s).
Proof.
  intros Hok. unfold wake_to_menu, render_menu_image_only.
  destruct (current_view s); [done|].
  rewrite (ensure_visible_id s Hok).
  apply show_menu_ok. by apply (menu_ok_fields s).
Qed.

Lemma stop_submenu_ok s : menu_ok s → menu_ok (stop_submenu s).
Proof.
  intros Hok. unfold stop_submenu. apply show_menu_ok.
  destruct (submenu_thread _) as [i|]; [|by apply (menu_ok_fields s)].
  destruct (applet_alive _); [|by apply (menu_ok_fields s)].
  pose proof (join_frame JOIN_TIMEOUT i (set_stop_event true s))
    as (Hsel & Hoff & _).
  by apply (menu_ok_fields s).
Qed.

Lemma confirm_pressed_ok lat s : menu_ok s → menu_ok (confirm_pressed lat s).
Proof.
  intros Hok. unfold confirm_pressed. cbv zeta.
  change (current_view (mark_activity s)) with (current_view s).
  destruct (current_view s).
  - destruct (applet_alive _); [by apply (menu_ok_fields s)|].
    unfold perform_action. destruct (actions _); by apply (menu_ok_fields s).
  - apply wake_to_menu_ok. by apply (menu_ok_fields s).
Qed.

Lemma back_pressed_ok s : menu_ok s → menu_ok (back_pressed s).
Proof.
  intros Hok. unfold back_pressed. cbv zeta.
  change (current_view (mark_activity s)) with (current_view s).
  destruct (current_view s).
  - destruct (applet_alive _); [by apply (menu_ok_fields s)|].
    apply show_menu_ok. by apply (menu_ok_fields s).
  - apply wake_to_menu_ok. by apply (menu_ok_fields s).
Qed.

Lemma on_rotate_ok s : menu_ok s → menu_ok (Nav.on_rotate s).
Proof.
  intros Hok. unfold Nav.on_rotate. cbv zeta.
  change (current_view (mark_activity s)) with (current_view s).
  destruct (current_view s).
  - destruct (applet_alive _); [by apply (menu_ok_fields s)|].
    unfold show_menu. cbv zeta.
    match goal with |- context [ensure_visible ?x] =>
      eapply (menu_ok_fields (ensure_visible x)); [done..|];
      apply ensure_visible_ok
    end.
    + apply Z.mod_pos_bound. done.
    + apply Hok.
    + apply Hok.
  - apply wake_to_menu_ok. by apply (menu_ok_fields s).
Qed.

Lemma slide_transition_fields a b delay st s :
  selected_index (Nav.slide_transition a b delay st s) = selected_index s ∧
  menu_offset (Nav.slide_transition a b delay st s) = menu_offset s.
Proof. unfold Nav.slide_transition. by destruct (py_range _ _ _). Qed.

Lemma main_tick_ok s : menu_ok s → menu_ok (main_tick s).
Proof.
  intros Hok. unfold main_tick. cbv zeta.
  destruct (applet_alive _); [by apply (menu_ok_fields s)|].
  change (current_view (Nav.sleep TICK s)) with (current_view s).
  destruct (current_view s).
  - destruct (_ >=? _); [|by apply (menu_ok_fields s)].
    unfold render_menu_image_only.
    rewrite (ensure_visible_id (Nav.sleep TICK s))
      by (by apply (menu_ok_fields s)).
    match goal with |- context [Nav.slide_transition ?a ?b ?d ?st ?x] =>
      destruct (slide_transition_fields a b d st x) as [Hs Ho] end.
    by apply (menu_ok_fields s).
  - unfold show_background_loop_frame. cbv zeta.
    repeat match goal with
    | |- context [Nav.slide_transition ?a ?b ?d ?st ?x] =>
        destruct (slide_transition_fields a b d st x) as [? ?];
        generalize dependent (Nav.slide_transition a b d st x); intros
    end.
    repeat case_match; by apply (menu_ok_fields s).
Qed.

Lemma step_menu_ok s e : menu_ok s → menu_ok (step s e).
Proof.
  intros Hok. destruct e; cbn [step].
  - apply on_rotate_ok. by apply (menu_ok_fields s).
  - unfold btn_confirm_when_pressed.
    destruct (applet_alive s); [by apply stop_submenu_ok|].
    by apply confirm_pressed_ok.
  - unfold btn_back_when_pressed.
    destruct (applet_alive s); [by apply stop_submenu_ok|].
    by apply back_pressed_ok.
  - by apply confirm_pressed_ok.
  - by apply main_tick_ok.
  - by apply (menu_ok_fields s).
  - unfold task_exit. destruct (_ !! _); by apply (menu_ok_fields s).
Qed.

Lemma reachable_menu_ok s : reachable s → menu_ok s.
Proof.
  induction 1 as [t0|s e _ IH]; [|by apply step_menu_ok].
  unfold menu_ok. change (selected_index (init t0)) with 0.
  change (menu_offset (init t0)) with 0. unfold VISIBLE_LINES. cbn. lia.
Qed.

(** X1. In every state the program can reach, the selected index is a
    menu item and the window of [VISIBLE_LINES] items starting at
    [menu_offset] lies inside the list and contains the selection. *)
Theorem menu_window_invariant (t0 : Z) (es : list event) :
  menu_ok (run (init t0) es).
Proof. apply reachable_menu_ok, reachable_run, reachable_init. Qed.

Lemma py_slice_inside {A} (l : list A) (a b : Z) :
  0 ≤ a ≤ b → b ≤ Z.of_nat (length l) →
  py_slice l a b = take (Z.to_nat (b - a)) (drop (Z.to_nat a) l).
Proof.
  intros Ha Hb. unfold py_slice.
  destruct (Z.ltb_spec b 0); [lia|]. destruct (Z.ltb_spec a 0); [lia|].
  by rewrite !Z.min_l by lia.
Qed.

Lemma menu_rows_lookup sel off (i : nat) :
  0 ≤ off → off + VISIBLE_LINES ≤ Z.of_nat (length menu_items) →
  menu_rows sel off !! i =
    (λ item, mkRow (4 + Z.of_nat i * 8) item
                   (bool_decide (off + Z.of_nat i = sel)))
      <$> (if decide (i < 7)%nat then menu_items !! (Z.to_nat off + i)%nat
           else None).
Proof.
  intros Ho Hw. unfold menu_rows. cbv zeta.
  rewrite py_slice_inside by (unfold VISIBLE_LINES in *; lia).
  replace (off + VISIBLE_LINES - off) with 7 by (unfold VISIBLE_LINES; lia).
  rewrite length_take, length_drop.
  replace (Z.to_nat 7 `min` (length menu_items - Z.to_nat off))%nat
    with 7%nat by (unfold VISIBLE_LINES in *; lia).
  rewrite list_lookup_imap.
  change (Z.max 0 ((HEIGHT - Z.of_nat 7 * 8) / 2)) with 4.
  destruct (decide (i < 7)%nat).
  - by rewrite lookup_take_lt, lookup_drop by (cbn; lia).
  - by rewrite lookup_take_ge by (cbn; lia).
Qed.

(** X2. In every reachable state the menu is drawn as exactly seven rows,
    eight pixels apart from y = 4, all of them inside the display; row [i]
    carries the label of item [menu_offset + i], and the one inverted row is
    the row of the selected item. *)
Theorem menu_rows_layout (t0 : Z) (es : list event) :
  let s := run (init t0) es in
  let rows := menu_rows (selected_index s) (menu_offset s) in
  length rows = 7%nat ∧
  (∀ (i : nat) r, rows !! i = Some r →
     row_y r = 4 + Z.of_nat i * 8 ∧ 0 ≤ row_y r ∧ row_y r + 8 < HEIGHT ∧
     menu_items !! (Z.to_nat (menu_offset s) + i)%nat = Some (row_label r) ∧
     (row_selected r = true ↔
      Z.of_nat i = selected_index s - menu_offset s)) ∧
  (∃ r, rows !! Z.to_nat (selected_index s - menu_offset s) = Some r ∧
        row_selected r = true ∧
        menu_items !! Z.to_nat (selected_index s) = Some (row_label r)).
Proof.
  intros s rows.
  assert (menu_ok (run (init t0) es)) as Hok
    by apply reachable_menu_ok, reachable_run, reachable_init.
  fold s in Hok. destruct Hok as (Hs & Ho & Hw & Hl).
  assert (∀ i : nat, (i < 7)%nat →
            is_Some (menu_items !! (Z.to_nat (menu_offset s) + i)%nat))
    as Hitem.
  { intros i Hi. apply lookup_lt_is_Some.
    unfold VISIBLE_LINES in *. lia. }
  split; [|split].
  - subst rows. unfold menu_rows. cbv zeta. rewrite length_imap.
    rewrite py_slice_inside by (unfold VISIBLE_LINES in *; lia).
    rewrite length_take, length_drop. unfold VISIBLE_LINES in *. lia.
  - intros i r. subst rows. rewrite menu_rows_lookup by done.
    destruct (decide (i < 7)%nat) as [Hi|]; [|done].
    destruct (Hitem i Hi) as [item Hit]. rewrite Hit.
    intros [= <-]. cbn. unfold HEIGHT.
    split; [done|]. split; [lia|]. split; [lia|]. split; [done|].
    rewrite bool_decide_eq_true. lia.
  - subst rows. rewrite menu_rows_lookup by done.
    unfold VISIBLE_LINES in *.
    destruct (decide _) as [Hi|]; [|lia].
    destruct (Hitem _ Hi) as [item Hit]. rewrite Hit.
    eexists. split; [reflexivity|]. cbn.
    split; [apply bool_decide_eq_true; lia|].
    rewrite <- Hit. f_equal. lia.
Qed.

(** ** At most one applet *)

Lemma one_applet_fields s s' :
  threads s' = threads s → submenu_thread s' = submenu_thread s →
  one_applet s → one_applet s'.
Proof. unfold one_applet. by intros -> ->. Qed.

Lemma one_applet_insert s s' i t t' :
  threads s !! i = Some t → (alive t' = true → alive t = true) →
  threads s' = <[i:=t']> (threads s) →
  submenu_thread s' = submenu_thread s →
  one_applet s → one_applet s'.
Proof.
  unfold one_applet. intros Ht Hal -> -> [Hh Hone]. split.
  - intros h Hs. rewrite length_insert. by apply Hh.
  - intros j u Hu Hau. destruct (decide (i = j)) as [->|Hne].
    + rewrite list_lookup_insert_eq in Hu by (by eapply lookup_lt_Some).
      simplify_eq. eapply Hone; eauto.
    + rewrite list_lookup_insert_ne in Hu by done. by eapply Hone.
Qed.

Lemma one_applet_start s s' tgt lat :
  applet_alive s = false →
  threads s' = threads s ++ [mkTask tgt true lat] →
  submenu_thread s' = Some (length (threads s)) →
  one_applet s → one_applet s'.
Proof.
  unfold one_applet, applet_alive. intros Hdead -> -> [Hh Hone]. split.
  - intros h [= <-]. rewrite length_app. cbn. lia.
  - intros j u Hu Hau.
    destruct (decide (j < length (threads s))%nat) as [Hlt|Hge].
    + rewrite lookup_app_l in Hu by done.
      rewrite (Hone j u Hu Hau), Hu, Hau in Hdead. done.
    + apply lookup_lt_Some in Hu as Hlen. rewrite length_app in Hlen.
      cbn in Hlen. f_equal. lia.
Qed.

Lemma show_menu_applet s : one_applet s → one_applet (show_menu s).
Proof.
  pose proof (show_menu_frame s) as (_&_&Hh&Ht&_).
  by apply one_applet_fields.
Qed.

Lemma wake_to_menu_applet s : one_applet s → one_applet (wake_to_menu s).
Proof.
  pose proof (wake_to_menu_frame s) as (Ht&Hh&_).
  by apply one_applet_fields.
Qed.

Lemma join_applet timeout i s : one_applet s → one_applet (join timeout i s).
Proof.
  intros Hok. unfold join.
  destruct (threads s !! i) as [t|] eqn:Ht; [|done].
  destruct (exit_in t) as [l|]; [|by apply (one_applet_fields s)].
  destruct (l <=? timeout);
    by eapply (one_applet_insert _ _ i t); [done| |done|done|done].
Qed.

Lemma stop_submenu_applet s : one_applet s → one_applet (stop_submenu s).
Proof.
  intros Hok. unfold stop_submenu. apply show_menu_applet.
  destruct (submenu_thread _) as [i|]; [|by apply (one_applet_fields s)].
  destruct (applet_alive _); [|by apply (one_applet_fields s)].
  apply join_applet. by apply (one_applet_fields s).
Qed.

Lemma confirm_pressed_applet lat s :
  one_applet s → one_applet (confirm_pressed lat s).
Proof.
  intros Hok. unfold confirm_pressed. cbv zeta.
  change (current_view (mark_activity s)) with (current_view s).
  destruct (current_view s).
  - destruct (applet_alive _) eqn:Hal; [by apply (one_applet_fields s)|].
    unfold perform_action. destruct (actions _) as [act|];
      [|by apply (one_applet_fields s)].
    by eapply (one_applet_start s).
  - apply wake_to_menu_applet. by apply (one_applet_fields s).
Qed.

Lemma back_pressed_applet s : one_applet s → one_applet (back_pressed s).
Proof.
  intros Hok. unfold back_pressed. cbv zeta.
  change (current_view (mark_activity s)) with (current_view s).
  destruct (current_view s).
  - destruct (applet_alive _); [by apply (one_applet_fields s)|].
    apply show_menu_applet. by apply (one_applet_fields s).
  - apply wake_to_menu_applet. by apply (one_applet_fields s).
Qed.

Lemma on_rotate_applet s : one_applet s → one_applet (Nav.on_rotate s).
Proof.
  intros Hok. unfold Nav.on_rotate. cbv zeta.
  change (current_view (mark_activity s)) with (current_view s).
  destruct (current_view s).
  - destruct (applet_alive _); [by apply (one_applet_fields s)|].
    apply show_menu_applet. by apply (one_applet_fields s).
  - apply wake_to_menu_applet. by apply (one_applet_fields s).
Qed.

Lemma slide_transition_threads a b delay st s :
  threads (Nav.slide_transition a b delay st s) = threads s ∧
  submenu_thread (Nav.slide_transition a b delay st s) = submenu_thread s.
Proof. unfold Nav.slide_transition. by destruct (py_range _ _ _). Qed.

Lemma main_tick_threads s :
  threads (main_tick s) = threads s ∧
  submenu_thread (main_tick s) = submenu_thread s.
Proof.
  unfold main_tick. cbv zeta.
  destruct (applet_alive _); [done|].
  change (current_view (Nav.sleep TICK s)) with (current_view s).
  destruct (current_view s).
  - destruct (_ >=? _); [|done].
    unfold render_menu_image_only.
    match goal with |- context [Nav.slide_transition ?a ?b ?d ?st ?x] =>
      destruct (slide_transition_threads a b d st x) as [Hs Ho] end.
    pose proof (ensure_visible_frame (Nav.sleep TICK s)) as (_&Hh&Ht&_).
    cbn [threads submenu_thread set_background_cycle_start set_show_weather
         set_current_view].
    rewrite Hs, Ho, Hh, Ht. done.
  - unfold show_background_loop_frame. cbv zeta.
    repeat match goal with
    | |- context [Nav.slide_transition ?a ?b ?d ?st ?x] =>
        destruct (slide_transition_threads a b d st x) as [? ?];
        generalize dependent (Nav.slide_transition a b d st x); intros
    end.
    repeat case_match; cbn in *; split; congruence.
Qed.

Lemma step_one_applet s e : one_applet s → one_applet (step s e).
Proof.
  intros Hok. destruct e; cbn [step].
  - apply on_rotate_applet. by apply (one_applet_fields s).
  - unfold btn_confirm_when_pressed.
    destruct (applet_alive s); [by apply stop_submenu_applet|].
    by apply confirm_pressed_applet.
  - unfold btn_back_when_pressed.
    destruct (applet_alive s); [by apply stop_submenu_applet|].
    by apply back_pressed_applet.
  - by apply confirm_pressed_applet.
  - destruct (main_tick_threads s). by apply (one_applet_fields s).
  - by apply (one_applet_fields s).
  - unfold task_exit. destruct (threads s !! i) as [t|] eqn:Ht; [|done].
    by apply (one_applet_insert s _ i t (mkTask (target t) false (exit_in t))).
Qed.

Lemma reachable_one_applet s : reachable s → one_applet s.
Proof.
  induction 1 as [t0|s e _ IH]; [|by apply step_one_applet].
  unfold one_applet. change (submenu_thread (init t0)) with (@None nat).
  change (threads (init t0)) with (@nil task).
  split; [done|]. intros i t. by rewrite lookup_nil.
Qed.


Lemma no_running (ths : list task) :
  (∀ j u, ths !! j = Some u → alive u ≠ true) →
  filter (λ t, alive t = true) ths = [].
Proof.
  induction ths as [|t ths IH]; intros Hno; [done|].
  rewrite filter_cons. destruct (decide (alive t = true)) as [Ht|Ht].
  - by destruct (Hno 0%nat t eq_refl).
  - apply IH. intros j u Hj. by apply (Hno (S j)).
Qed.

Lemma running_unique (ths : list task) :
  (∀ i j t u, ths !! i = Some t → ths !! j = Some u →
              alive t = true → alive u = true → i = j) →
  (length (filter (λ t, alive t = true) ths) ≤ 1)%nat.
Proof.
  induction ths as [|t ths IH]; intros Hu; [cbn; lia|].
  rewrite filter_cons. destruct (decide (alive t = true)) as [Ht|Ht].
  - rewrite no_running; [cbn; lia|]. intros j u Hj Hau.
    specialize (Hu 0%nat (S j) t u eq_refl Hj Ht Hau). done.
  - apply IH. intros i j t' u Hi Hj Hat Hau.
    specialize (Hu (S i) (S j) t' u Hi Hj Hat Hau). lia.
Qed.

(** X3. In every reachable state at most one applet thread is running, a
    running thread is the one [submenu_thread] points to, and the handle
    always points into the thread list. *)
Theorem single_applet_invariant (t0 : Z) (es : list event) :
  let s := run (init t0) es in
  (length (filter (λ t, alive t = true) (threads s)) ≤ 1)%nat ∧
  (∀ i t, threads s !! i = Some t → alive t = true →
          submenu_thread s = Some i) ∧
  (∀ h, submenu_thread s = Some h → is_Some (threads s !! h)).
Proof.
  intros s.
  assert (one_applet s) as [Hh Hone]
    by apply reachable_one_applet, reachable_run, reachable_init.
  split; [|split].
  - apply running_unique. intros i j t u Hi Hj Ht Hu.
    pose proof (Hone i t Hi Ht). pose proof (Hone j u Hj Hu). congruence.
  - done.
  - intros h Hs. apply lookup_lt_is_Some. by apply Hh.
Qed.

(** ** Waking up and cycling *)

Lemma input_in_background s e :
  current_view s = ViewBackground → applet_alive s = false →
  is_input e = true →
  step s e = wake_to_menu
               (mark_activity (match e with
                               | Rotate delta => encoder_turn delta s
                               | _ => s
                               end)).
Proof.
  intros Hv Ha He. destruct e; try done; cbn [step];
    unfold encoder_when_rotated, btn_confirm_when_pressed,
      btn_back_when_pressed, btn_knob_when_pressed, Nav.knob_pressed,
      Nav.on_rotate, confirm_pressed, back_pressed; cbv zeta;
    rewrite ?Ha; cbn [negb].
  - change (current_view (mark_activity (encoder_turn delta s)))
      with (current_view s). by rewrite Hv.
  - change (current_view (mark_activity s)) with (current_view s).
    by rewrite Hv.
  - change (current_view (mark_activity s)) with (current_view s).
    by rewrite Hv.
  - change (current_view (mark_activity s)) with (current_view s).
    by rewrite Hv.
Qed.

Lemma wake_to_menu_from_background s :
  current_view s = ViewBackground → menu_ok s →
  let s' := wake_to_menu s in
  current_view s' = ViewMenu ∧
  last_user_activity s' = last_user_activity s ∧
  selected_index s' = selected_index s ∧ menu_offset s' = menu_offset s ∧
  encoder_steps s' = encoder_steps s ∧
  threads s' = threads s ∧ submenu_thread s' = submenu_thread s ∧
  stop_event s' = stop_event s ∧
  clock s' = clock s + FADE_DURATION ∧
  display_log s' =
    display_log s ++
      [Fade (bg_image s) (MenuImg (selected_index s) (menu_offset s)) 10;
       Show (MenuImg (selected_index s) (menu_offset s))].
Proof.
  intros Hv Hok. unfold wake_to_menu, render_menu_image_only. rewrite Hv.
  rewrite (ensure_visible_id s Hok). cbv zeta. unfold show_menu. cbv zeta.
  match goal with |- context [ensure_visible ?x] =>
    rewrite (ensure_visible_id x) by (by apply (menu_ok_fields s)) end.
  unfold bg_image, now_ts. cbn. rewrite <- app_assoc.
  by destruct (show_weather s).
Qed.

(** X4. While the dashboard is shown, any input event (rotation, confirm,
    back, knob) returns to the menu: the idle timer is set to the time of the
    event, a ten-step fade from the current dashboard image to the menu and
    then the menu itself are sent to the display, which takes the fade
    duration; the selection and the threads are as before, so the event is
    consumed by the wake-up. *)
Theorem input_wakes_dashboard (t0 : Z) (es : list event) (e : event) :
  let s := run (init t0) es in
  current_view s = ViewBackground → is_input e = true →
  let s' := step s e in
  current_view s' = ViewMenu ∧ last_user_activity s' = clock s ∧
  selected_index s' = selected_index s ∧ menu_offset s' = menu_offset s ∧
  threads s' = threads s ∧ submenu_thread s' = submenu_thread s ∧
  clock s' = clock s + FADE_DURATION ∧
  display_log s' =
    display_log s ++
      [Fade (bg_image s) (MenuImg (selected_index s) (menu_offset s)) 10;
       Show (MenuImg (selected_index s) (menu_offset s))].
Proof.
  intros s Hv He s'.
  assert (reachable s) as Hr by apply reachable_run, reachable_init.
  assert (applet_alive s = false) as Ha.
  { destruct (applet_alive s) eqn:Ha; [|done].
    rewrite (alive_in_menu s Hr Ha) in Hv. done. }
  pose proof (reachable_menu_ok s Hr) as Hok.
  subst s'. rewrite (input_in_background s e Hv Ha He).
  match goal with |- context [wake_to_menu ?x] =>
    pose proof (wake_to_menu_from_background x) as Hw end.
  destruct e; try done; cbv zeta in Hw;
    destruct Hw as (?&?&?&?&?&?&?&?&?&?);
    try done; try (by apply (menu_ok_fields s)).
Qed.

Lemma input_wakes_dashboard_witness :
  let s := run (init 0) [Elapse 30000; Tick] in
  let s' := step s Back in
  current_view s' = ViewMenu ∧ last_user_activity s' = clock s ∧
  selected_index s' = selected_index s ∧ menu_offset s' = menu_offset s ∧
  threads s' = threads s ∧ submenu_thread s' = submenu_thread s ∧
  clock s' = clock s + FADE_DURATION ∧
  display_log s' =
    display_log s ++
      [Fade (bg_image s) (MenuImg (selected_index s) (menu_offset s)) 10;
       Show (MenuImg (selected_index s) (menu_offset s))].
Proof.
  apply (input_wakes_dashboard 0 [Elapse 30000; Tick] Back); reflexivity.
Defined.

(** X5. One iteration of the main loop while the dashboard is shown and no
    applet runs: when more than [DWELL] has passed since the cycle start, the
    other sub-view is slid in (17 frames, 170 ms) and the cycle start is set
    to the time after the slide; otherwise the current sub-view is redrawn.
    A cycle start of 0 is first replaced by the current time. The view, the
    selection and the idle timer are not touched. *)
Theorem dashboard_cycle (s : state) :
  current_view s = ViewBackground → applet_alive s = false →
  let now := clock s + TICK in
  let start := if background_cycle_start s =? 0 then now
               else background_cycle_start s in
  let s' := step s Tick in
  current_view s' = ViewBackground ∧
  selected_index s' = selected_index s ∧ menu_offset s' = menu_offset s ∧
  last_user_activity s' = last_user_activity s ∧
  if now - start >? DWELL
  then show_weather s' = negb (show_weather s) ∧
       display_log s' =
         display_log s ++
           [if show_weather s then Slide (WeatherImg now) (SystemImg now) 8
            else Slide (SystemImg now) (WeatherImg now) 8] ∧
       clock s' = now + 170 ∧ background_cycle_start s' = clock s'
  else show_weather s' = show_weather s ∧
       display_log s' =
         display_log s ++
           [Show (if show_weather s then WeatherImg now else SystemImg now)] ∧
       clock s' = now ∧ background_cycle_start s' = start.
Proof.
  intros Hv Ha. cbv zeta. cbn [step]. unfold main_tick. cbv zeta.
  change (applet_alive (Nav.sleep TICK s)) with (applet_alive s).
  change (current_view (Nav.sleep TICK s)) with (current_view s).
  rewrite Ha, Hv. unfold show_background_loop_frame. cbv zeta.
  change (background_cycle_start (Nav.sleep TICK s))
    with (background_cycle_start s).
  unfold now_ts, Nav.slide_transition.
  change (py_range 0 (WIDTH + 1) 8)
    with (Some ((λ i : nat, 0 + Z.of_nat i * 8) <$> seq 0 17)).
  destruct (background_cycle_start s =? 0); cbn -[Z.gtb Z.sub Z.add];
    destruct (show_weather s) eqn:Hsw; cbn -[Z.gtb Z.sub Z.add];
    destruct (_ >? _); cbn -[Z.gtb Z.sub Z.add]; rewrite ?Hv, ?Hsw;
    repeat split; try done; try lia.
Qed.

Lemma stop_submenu_last_activity s :
  last_user_activity (stop_submenu s) = last_user_activity s.
Proof.
  unfold stop_submenu. cbv zeta.
  match goal with |- context [show_menu ?x] =>
    pose proof (show_menu_frame x) as (_&_&_&_&_&_&->&_) end.
  destruct (submenu_thread _) as [i|]; [|done].
  destruct (applet_alive _); [|done].
  by pose proof (join_frame JOIN_TIMEOUT i (set_stop_event true s))
    as (_&_&_&_&_&_&->&_).
Qed.

Lemma dashboard_cycle_witness :
  let s := run (init 0) [Elapse 30000; Tick; Elapse 16000] in
  let now := clock s + TICK in
  let start := if background_cycle_start s =? 0 then now
               else background_cycle_start s in
  let s' := step s Tick in
  current_view s' = ViewBackground ∧
  selected_index s' = selected_index s ∧ menu_offset s' = menu_offset s ∧
  last_user_activity s' = last_user_activity s ∧
  if now - start >? DWELL
  then show_weather s' = negb (show_weather s) ∧
       display_log s' =
         display_log s ++
           [if show_weather s then Slide (WeatherImg now) (SystemImg now) 8
            else Slide (SystemImg now) (WeatherImg now) 8] ∧
       clock s' = now + 170 ∧ background_cycle_start s' = clock s'
  else show_weather s' = show_weather s ∧
       display_log s' =
         display_log s ++
           [Show (if show_weather s then WeatherImg now else SystemImg now)] ∧
       clock s' = now ∧ background_cycle_start s' = start.
Proof.
  apply (dashboard_cycle (run (init 0) [Elapse 30000; Tick; Elapse 16000]));
    reflexivity.
Defined.

(** The dashboard is entered on the system view; sixteen seconds later the
    weather view is slid in. *)
Example dashboard_flips :
  let s := run (init 0) [Elapse 30000; Tick; Elapse 16000] in
  show_weather s = false ∧ show_weather (step s Tick) = true ∧
  show_weather (run s [Tick; Tick]) = true ∧
  show_weather (run s [Tick; Elapse 16000; Tick]) = false.
Proof. vm_compute. done. Qed.

(** X6. Stopping an applet with the confirm or the back button is not
    recorded as activity: the idle timer keeps its value. So when the
    applet ends within the join timeout and the last activity is at least
    [IDLE_TIMEOUT] old, the next iteration of the main loop leaves the menu
    for the dashboard. *)
Theorem stop_is_not_activity (s : state) (e : event) :
  applet_alive s = true → (e = Back ∨ ∃ lat, e = Confirm lat) →
  step s e = stop_submenu s ∧
  last_user_activity (step s e) = last_user_activity s ∧
  (current_view s = ViewMenu → exits_in_time s = true →
   IDLE_TIMEOUT ≤ clock s - last_user_activity s →
   current_view (step (step s e) Tick) = ViewBackground).
Proof.
  intros Ha He.
  assert (step s e = stop_submenu s) as ->.
  { destruct He as [->|[lat ->]]; cbn [step];
      unfold btn_back_when_pressed, btn_confirm_when_pressed;
      by rewrite Ha. }
  split; [done|]. split; [apply stop_submenu_last_activity|].
  intros Hv Hex Hidle.
  pose proof (stop_submenu_frame s) as (_&Hclk&_&Hv'&_).
  apply main_tick_idle.
  - congruence.
  - by apply stop_submenu_not_alive.
  - rewrite stop_submenu_last_activity. lia.
Qed.

Lemma stop_is_not_activity_witness :
  let s := run (init 0) [Confirm (Some 50); Elapse 40000] in
  step s Back = stop_submenu s ∧
  last_user_activity (step s Back) = last_user_activity s ∧
  (current_view s = ViewMenu → exits_in_time s = true →
   IDLE_TIMEOUT ≤ clock s - last_user_activity s →
   current_view (step (step s Back) Tick) = ViewBackground).
Proof.
  apply (stop_is_not_activity
           (run (init 0) [Confirm (Some 50); Elapse 40000]) Back).
  - reflexivity.
  - by left.
Defined.

Example stop_then_dashboard :
  current_view (run (init 0) [Confirm (Some 50); Elapse 40000; Back; Tick])
    = ViewBackground.
Proof. reflexivity. Qed.

(** X7. The action table has an entry exactly for the indices of the menu
    items, and no two indices share an action. [perform_action] on an index
    with an entry starts one thread for that action, moves the handle to it
    and clears the cancellation signal without drawing; on any other index
    it does nothing. *)
Theorem perform_action_table (index : Z) (lat : option Z) (s : state) :
  (0 ≤ index < Z.of_nat (length menu_items) ↔ is_Some (actions index)) ∧
  (∀ j act, actions index = Some act → actions j = Some act → index = j) ∧
  match actions index with
  | Some act =>
      let s' := perform_action index lat s in
      threads s' = threads s ++ [mkTask act true lat] ∧
      submenu_thread s' = Some (length (threads s)) ∧
      stop_event s' = false ∧ display_log s' = display_log s ∧
      selected_index s' = selected_index s
  | None => perform_action index lat s = s
  end.
Proof.
  assert (∀ i, is_Some (actions i) → 0 ≤ i < 12) as Hdom.
  { intros i [act Hi]. destruct i as [|p|p]; [cbn; lia| |done].
    do 4 (try destruct p as [p|p|]; try done; try lia). }
  split; [|split].
  - split; [apply actions_defined | apply Hdom].
  - intros j act Hi Hj.
    pose proof (Hdom index (mk_is_Some _ _ Hi)) as Hir.
    pose proof (Hdom j (mk_is_Some _ _ Hj)) as Hjr.
    assert (∀ i, 0 ≤ i < 12 →
              i = 0 ∨ i = 1 ∨ i = 2 ∨ i = 3 ∨ i = 4 ∨ i = 5 ∨ i = 6 ∨
              i = 7 ∨ i = 8 ∨ i = 9 ∨ i = 10 ∨ i = 11) as Hc by lia.
    destruct (Hc _ Hir) as [->|[->|[->|[->|[->|[->|[->|[->|[->|[->|[->| ->]]]]]]]]]]];
      cbn in Hi; simplify_eq;
      destruct (Hc _ Hjr) as [->|[->|[->|[->|[->|[->|[->|[->|[->|[->|[->| ->]]]]]]]]]]];
      cbn in Hj; by simplify_eq.
  - unfold perform_action. destruct (actions index) as [act|]; [|done].
    by pose proof (start_submenu_alive act lat s) as (_&?&?&?).
Qed.

End NavInvariants.

(** * More about the transition engine *)

Section TransitionMore.
Import Transition.

Lemma py_range_nonpos start stop step :
  step < 0 → start ≤ stop → py_range start stop step = Some [].
Proof.
  intros Hs Hle. unfold py_range.
  destruct (Z.eqb_spec step 0); [lia|].
  destruct (Z.ltb_spec 0 step); [lia|].
  assert ((start - stop - step - 1) / - step ≤ 0) as Hq.
  { assert ((start - stop - step - 1) / - step < 1); [|lia].
    apply Z.div_lt_upper_bound; lia. }
  by replace (Z.to_nat _) with 0%nat by lia.
Qed.

(** X8. The slide is a horizontal wipe. With a positive step it pushes
    [WIDTH / step + 1] frames, the first being the source bitmap; in frame
    [k] the source is shifted left by [k * step] pixels and the destination
    fills the columns to the right of it. *)
Theorem slide_transition_wipe (img_from img_to : bitmap) (step : Z) :
  wf img_from → wf img_to → 0 < step →
  ∃ frames,
    slide_transition img_from img_to step = Some frames ∧
    length frames = Z.to_nat (WIDTH / step + 1) ∧
    frames !! 0%nat = Some img_from ∧
    ∀ (k : nat) x y,
      Z.of_nat k ≤ WIDTH / step → 0 ≤ x < WIDTH → 0 ≤ y < HEIGHT →
      ∃ frame,
        frames !! k = Some frame ∧
        getpixel frame x y =
          if x <? WIDTH - Z.of_nat k * step
          then getpixel img_from (x + Z.of_nat k * step) y
          else getpixel img_to (x - (WIDTH - Z.of_nat k * step)) y.
Proof.
  intros Hf Ht Hs. unfold slide_transition.
  rewrite py_range_pos by done. eexists. split; [reflexivity|].
  assert (0 ≤ WIDTH / step) by (apply Z.div_pos; unfold WIDTH; lia).
  replace ((WIDTH + 1 - 0 + step - 1) / step) with (WIDTH / step + 1).
  2:{ replace (WIDTH + 1 - 0 + step - 1) with (WIDTH + 1 * step) by lia.
      by rewrite Z.div_add by lia. }
  assert (∀ k : nat, Z.of_nat k ≤ WIDTH / step →
    (slide_frame img_from img_to <$>
       ((λ i : nat, 0 + Z.of_nat i * step)
          <$> seq 0 (Z.to_nat (WIDTH / step + 1)))) !! k
    = Some (slide_frame img_from img_to (Z.of_nat k * step))) as Hk.
  { intros k Hk. rewrite !list_lookup_fmap, lookup_seq_lt by lia.
    cbn [fmap option_fmap option_map]. do 2 f_equal. }
  assert (∀ (k : nat) x y,
    Z.of_nat k ≤ WIDTH / step → 0 ≤ x < WIDTH → 0 ≤ y < HEIGHT →
    getpixel (slide_frame img_from img_to (Z.of_nat k * step)) x y =
      if x <? WIDTH - Z.of_nat k * step
      then getpixel img_from (x + Z.of_nat k * step) y
      else getpixel img_to (x - (WIDTH - Z.of_nat k * step)) y) as Hpix.
  { intros k x y Hk' Hx Hy.
    assert (0 ≤ Z.of_nat k * step ≤ WIDTH) as Ho.
    { split; [lia|]. pose proof (Z.mul_div_le WIDTH step Hs). nia. }
    rewrite getpixel_slide_frame by done.
    destruct (Z.ltb_spec x (WIDTH - Z.of_nat k * step)).
    - rewrite (getpixel_outside img_to) by (auto; lia).
      destruct (getpixel_wf img_from (x + Z.of_nat k * step) y) as [p ->];
        [done | lia | done | done].
    - destruct (getpixel_wf img_to (x - (WIDTH - Z.of_nat k * step)) y)
        as [q ->]; [done | lia | done | done]. }
  split; [by rewrite !length_fmap, length_seq|]. split.
  - rewrite (Hk 0%nat) by lia. f_equal.
    apply bitmap_ext; [apply wf_slide_frame | done |].
    intros x y Hx Hy. rewrite (Hpix 0%nat) by (done || lia).
    destruct (Z.ltb_spec x (WIDTH - Z.of_nat 0 * step)); [|lia].
    f_equal. lia.
  - intros k x y Hk' Hx Hy. eexists. split; [by apply Hk|]. by apply Hpix.
Qed.

Lemma slide_transition_wipe_witness :
  ∃ frames,
    slide_transition (new_image WIDTH HEIGHT true)
                     (new_image WIDTH HEIGHT false) 8 = Some frames ∧
    length frames = Z.to_nat (WIDTH / 8 + 1) ∧
    frames !! 0%nat = Some (new_image WIDTH HEIGHT true) ∧
    ∀ (k : nat) x y,
      Z.of_nat k ≤ WIDTH / 8 → 0 ≤ x < WIDTH → 0 ≤ y < HEIGHT →
      ∃ frame,
        frames !! k = Some frame ∧
        getpixel frame x y =
          if x <? WIDTH - Z.of_nat k * 8
          then getpixel (new_image WIDTH HEIGHT true) (x + Z.of_nat k * 8) y
          else getpixel (new_image WIDTH HEIGHT false)
                        (x - (WIDTH - Z.of_nat k * 8)) y.
Proof.
  apply (slide_transition_wipe (new_image WIDTH HEIGHT true)
                               (new_image WIDTH HEIGHT false) 8);
    [vm_compute; reflexivity | vm_compute; reflexivity | lia].
Defined.

(** X9. Degenerate parameters. A step (or step count) of zero raises; a
    negative one pushes no frame at all; a slide whose step exceeds the
    display width pushes the source bitmap once and never shows the
    destination. *)
Theorem transition_edge_cases (a b : bitmap) :
  slide_transition a b 0 = None ∧
  fade_to_menu a b 0 = None ∧
  (∀ step, step < 0 → slide_transition a b step = Some []) ∧
  (∀ steps, steps < 0 → fade_to_menu a b steps = Some []) ∧
  (∀ step, WIDTH < step → wf a → slide_transition a b step = Some [a]).
Proof.
  split; [done|]. split; [done|]. split; [|split].
  - intros step Hs. unfold slide_transition.
    by rewrite py_range_nonpos by (unfold WIDTH; lia).
  - intros steps Hs. unfold fade_to_menu.
    destruct (Z.eqb_spec steps 0); [lia|].
    rewrite py_range_pos by lia.
    replace ((steps + 1 - 1 + 1 - 1) / 1) with steps
      by (rewrite Z.div_1_r; lia).
    by replace (Z.to_nat steps) with 0%nat by lia.
  - intros step Hs Ha. unfold slide_transition.
    rewrite py_range_pos by (unfold WIDTH in *; lia).
    replace ((WIDTH + 1 - 0 + step - 1) / step) with 1.
    2:{ apply Z.div_unique with (r := WIDTH); unfold WIDTH in *; lia. }
    change (Z.to_nat 1) with 1%nat. cbn [seq fmap list_fmap].
    do 2 f_equal. apply bitmap_ext; [apply wf_slide_frame | done |].
    intros x y Hx Hy. rewrite getpixel_slide_frame by done.
    replace (getpixel b (x - (WIDTH - (0 + Z.of_nat 0 * step))) y)
      with (@None bool)
      by (unfold getpixel; by destruct (Z.leb_spec 0 (x - (WIDTH - (0 + Z.of_nat 0 * step)))); [lia|]).
    replace (x + (0 + Z.of_nat 0 * step)) with x by lia.
    by destruct (getpixel_wf a x y) as [p ->].
Qed.

Lemma transition_edge_cases_witness :
  let a := new_image WIDTH HEIGHT true in
  let b := new_image WIDTH HEIGHT false in
  slide_transition a b (-8) = Some [] ∧
  fade_to_menu a b (-1) = Some [] ∧
  slide_transition a b 200 = Some [a].
Proof.
  intros a b. destruct (transition_edge_cases a b) as (_ & _ & H1 & H2 & H3).
  split; [apply H1; lia|]. split; [apply H2; lia|].
  apply H3; [unfold WIDTH; lia | vm_compute; reflexivity].
Defined.



End TransitionMore.

(** * Properties of the dashboard screens *)

Section DashboardFacts.
Import Weather Dashboard.

Lemma net_calls_nonneg readings last :
  Forall (λ d, 0 ≤ d) (net_calls readings last).1 ∧
  length (net_calls readings last).1 = length readings.
Proof.
  revert last. induction readings as [|r rs IH]; intros last; [done|].
  cbn [net_calls]. destruct (get_net_activity_bytes r last) as [d l] eqn:Hd.
  specialize (IH l). destruct (net_calls rs l) as [ds l']. cbn in *.
  destruct IH as [IH1 IH2]. split; [|by rewrite IH2].
  constructor; [|done].
  unfold get_net_activity_bytes in Hd. destruct r; simplify_eq; lia.
Qed.

Lemma net_calls_sum readings last :
  steady_growth last readings = true →
  Nav.sumZ (net_calls readings last).1 = (net_calls readings last).2 - last.
Proof.
  revert last. induction readings as [|[n|] rs IH]; intros last Hg.
  - cbn. lia.
  - cbn [steady_growth] in Hg. apply andb_true_iff in Hg as [Hle Hg].
    apply Z.leb_le in Hle. specialize (IH _ Hg).
    cbn [net_calls get_net_activity_bytes].
    destruct (net_calls rs _) as [ds l']. cbn in *. lia.
  - cbn [steady_growth] in Hg. specialize (IH _ Hg).
    cbn [net_calls get_net_activity_bytes].
    destruct (net_calls rs _) as [ds l']. cbn in *. lia.
Qed.

(** X11. [get_net_activity_bytes] never returns a negative number, and
    while the counters of the interface do not go down, the values returned
    by successive calls add up to the growth of the counters, also across
    calls in which the interface was missing. *)
Theorem net_activity_accounting (readings : list (option net_counters))
    (last_bytes : Z) :
  let '(diffs, last_bytes') := net_calls readings last_bytes in
  length diffs = length readings ∧ Forall (λ d, 0 ≤ d) diffs ∧
  (steady_growth last_bytes readings = true →
   Nav.sumZ diffs = last_bytes' - last_bytes).
Proof.
  pose proof (net_calls_nonneg readings last_bytes) as [Hn Hl].
  pose proof (net_calls_sum readings last_bytes) as Hs.
  by destruct (net_calls readings last_bytes) as [ds l'].
Qed.

Lemma net_activity_accounting_witness :
  let readings := [Some (mkNet 100 50); None; Some (mkNet 400 250)] in
  Nav.sumZ (net_calls readings 100).1 = (net_calls readings 100).2 - 100.
Proof.
  intros readings. pose proof (net_activity_accounting readings 100) as H.
  destruct (net_calls readings 100) as [diffs l'].
  destruct H as (_ & _ & H). apply H. reflexivity.
Defined.

(** X12. The number of filled network bars as a function of the bytes
    counted since the last draw: more than 25600 bytes give one bar, more
    than 76800 two, more than 204800 three. *)
Theorem net_bars_thresholds (net_bytes : Z) :
  net_bars net_bytes =
    if net_bytes >? 204800 then 3
    else if net_bytes >? 76800 then 2
    else if net_bytes >? 25600 then 1
    else 0.
Proof.
  unfold net_bars. cbv zeta.
  assert (∀ k : Z, Qle_bool (inject_Z net_bytes * 2 / 1024)%Q (inject_Z k)
                   = (net_bytes <=? 512 * k)) as Hq.
  { intros k. apply eq_true_iff_eq. rewrite Qle_bool_iff, Z.leb_le.
    unfold Qle, Qdiv, Qmult, Qinv, inject_Z. cbn. lia. }
  change 50%Q with (inject_Z 50). change 150%Q with (inject_Z 150).
  change 400%Q with (inject_Z 400). rewrite !Hq, !Z.gtb_ltb.
  repeat match goal with
  | |- context [?a <=? ?b] => destruct (Z.leb_spec a b)
  | |- context [?a <? ?b] => destruct (Z.ltb_spec a b)
  end; lia.
Qed.

(** ** Disk LED *)

Lemma disk_led_quiet r w st d :
  quiet_reading r w st = true → last_reads d = r → last_writes d = w →
  disk_led_update st d =
    if blink_timer d >? 0
    then mkLed r w (disk_active d) (blink_timer d - 1)
    else mkLed r w false (blink_timer d).
Proof.
  intros Hq <- <-. unfold disk_led_update.
  destruct st as [[r' w']|]; [|done]. cbn in Hq.
  apply andb_true_iff in Hq as [->%Z.eqb_eq ->%Z.eqb_eq].
  rewrite !Z.gtb_ltb, !Z.ltb_irrefl. by destruct d.
Qed.

Lemma disk_led_off_stays_off r w stats :
  forallb (quiet_reading r w) stats = true →
  disk_led_run stats (mkLed r w false 0) = mkLed r w false 0.
Proof.
  induction stats as [|st stats IH]; [done|]. cbn [forallb].
  intros [Hq Hqs]%andb_true_iff. cbn [disk_led_run foldl].
  rewrite (disk_led_quiet r w) by done. cbn. by apply IH.
Qed.

(** X13. After a draw that sees new reads or writes, the disk LED is lit
    on that draw and on the next two draws without activity, and dark from
    the third quiet draw on. *)
Theorem disk_led_three_draws (d : disk_led) (r w : Z)
    (stats : list (option (Z * Z))) :
  (r >? last_reads d) || (w >? last_writes d) = true →
  forallb (quiet_reading r w) stats = true →
  disk_active (disk_led_run (Some (r, w) :: stats) d)
    = bool_decide (length stats ≤ 2)%nat.
Proof.
  intros Hact Hq. cbn [disk_led_run foldl].
  assert (disk_led_update (Some (r, w)) d = mkLed r w true 2) as ->.
  { unfold disk_led_update. by rewrite Hact. }
  destruct stats as [|s1 stats]; [done|].
  cbn [forallb] in Hq. apply andb_true_iff in Hq as [H1 Hq].
  cbn [foldl]. rewrite (disk_led_quiet r w) by done. cbn.
  destruct stats as [|s2 stats]; [done|].
  cbn [forallb] in Hq. apply andb_true_iff in Hq as [H2 Hq].
  cbn [foldl]. rewrite (disk_led_quiet r w) by done. cbn.
  destruct stats as [|s3 stats]; [done|].
  cbn [forallb] in Hq. apply andb_true_iff in Hq as [H3 Hq].
  cbn [foldl]. rewrite (disk_led_quiet r w) by done. cbn.
  change (foldl _ _ stats) with (disk_led_run stats (mkLed r w false 0)).
  rewrite disk_led_off_stays_off by done. cbn.
  symmetry. apply bool_decide_eq_false. lia.
Qed.

Lemma disk_led_three_draws_witness :
  let quiet : list (option (Z * Z)) := [None; Some (7, 3)] in
  disk_active (disk_led_run (Some (7, 3) :: quiet) (mkLed 5 3 false 0))
    = bool_decide (length quiet ≤ 2)%nat.
Proof.
  apply (disk_led_three_draws (mkLed 5 3 false 0) 7 3 [None; Some (7, 3)]);
    reflexivity.
Defined.

(** ** Load graph *)

Lemma length_deque_append {A} maxlen (x : A) q :
  length (deque_append maxlen x q) = (S (length q) `min` maxlen)%nat.
Proof.
  unfold deque_append. rewrite length_drop, !length_app. cbn [length]. lia.
Qed.

Lemma deque_append_last {A} maxlen (x : A) q :
  (0 < maxlen)%nat → last (deque_append maxlen x q) = Some x.
Proof.
  intros Hm. unfold deque_append.
  rewrite last_lookup, length_drop, lookup_drop, length_app. cbn.
  replace (length q + 1 - maxlen + pred (length q + 1 - (length q + 1 - maxlen)))%nat
    with (length q) by lia.
  by rewrite list_lookup_middle.
Qed.

Lemma py_int_bounds q :
  (0 <= q)%Q → (q <= 12)%Q → 0 ≤ py_int q ≤ 12.
Proof.
  intros H0 H12. unfold py_int.
  destruct (Qle_bool 0 q) eqn:Hb; [|by apply Qle_bool_iff in H0; congruence].
  split.
  - change 0 with (Qfloor 0). by apply Qfloor_resp_le.
  - change 12 with (Qfloor 12). by apply Qfloor_resp_le.
Qed.

Lemma Forall_deque_append {A} (P : A → Prop) maxlen x q :
  P x → Forall P q → Forall P (deque_append maxlen x q).
Proof.
  intros Hx Hq. unfold deque_append. apply Forall_drop, Forall_app.
  split; [done|]. by constructor.
Qed.

Lemma Forall_py_slice {A} (P : A → Prop) (l : list A) a b :
  Forall P l → Forall P (Menu.py_slice l a b).
Proof. intros Hl. unfold Menu.py_slice. by apply Forall_take, Forall_drop. Qed.

Lemma length_py_slice_tail {A} (l : list A) (n : Z) :
  0 < n →
  (length (Menu.py_slice l (- n) (Z.of_nat (length l))) ≤ Z.to_nat n)%nat.
Proof.
  intros Hn. unfold Menu.py_slice. cbv zeta. rewrite length_take.
  destruct (Z.ltb_spec (Z.of_nat (length l)) 0); [lia|].
  destruct (Z.ltb_spec (- n) 0); lia.
Qed.

Lemma bar_height_bounds v :
  (0 <= v)%Q → 0 ≤ py_int (Qmin (v / 2 * 12) 12) ≤ 12.
Proof.
  intros Hv. apply py_int_bounds; [|apply Q.le_min_r].
  apply Q.min_glb; [|done].
  apply Qmult_le_0_compat; [|done].
  apply Qle_shift_div_l; [done|]. by rewrite Qmult_0_l.
Qed.

(** X14. The load history never holds more than 50 samples and ends with
    the latest one; the graph has at most 36 columns, at x = 90..125, and
    for non-negative loads every column is a line from y = 27 up to at most
    y = 15. *)
Theorem load_graph_fits (loads : list Q) :
  let history := foldl (λ h v, load_history_append v h) [] loads in
  (length history ≤ 50)%nat ∧
  (loads ≠ [] → last history = last loads) ∧
  (length (load_graph history) ≤ 36)%nat ∧
  (Forall (λ v, 0 <= v)%Q loads →
   Forall (λ c, 90 ≤ col_x c ≤ 125 ∧ col_y0 c = 27 ∧ 15 ≤ col_y1 c ≤ 27)
          (load_graph history)).
Proof.
  intros history.
  assert (length (load_graph history) ≤ 36)%nat as Hlen.
  { unfold load_graph. cbv zeta. rewrite length_imap.
    apply (length_py_slice_tail history 36). lia. }
  split; [|split; [|split; [done|]]].
  - subst history. destruct loads as [|v loads _] using rev_ind; [cbn; lia|].
    rewrite foldl_app. cbn [foldl]. unfold load_history_append.
    rewrite length_deque_append. unfold LOAD_HISTORY_MAXLEN. lia.
  - intros Hne. subst history.
    destruct loads as [|v loads _] using rev_ind; [done|].
    rewrite foldl_app, last_snoc. cbn [foldl].
    apply deque_append_last. unfold LOAD_HISTORY_MAXLEN. lia.
  - intros Hpos.
    assert (Forall (λ v, 0 <= v)%Q history) as Hh.
    { subst history. clear Hlen.
      induction loads as [|v loads IH] using rev_ind; [constructor|].
      apply Forall_app in Hpos as [Hpos Hv]. rewrite foldl_app. cbn [foldl].
      rewrite Forall_singleton in Hv.
      apply Forall_deque_append; [exact Hv | by apply IH]. }
    apply Forall_lookup. intros i c Hc.
    assert (i < 36)%nat as Hi by (apply lookup_lt_Some in Hc; lia).
    unfold load_graph in Hc. cbv zeta in Hc.
    rewrite list_lookup_imap in Hc.
    destruct (Menu.py_slice _ _ _ !! i) as [v|] eqn:Hv; [|done].
    cbn in Hc. simplify_eq. cbn.
    assert (0 <= v)%Q as Hv0.
    { eapply (Forall_lookup_1 _ _ _ _ (Forall_py_slice _ _ _ _ Hh)), Hv. }
    pose proof (bar_height_bounds v Hv0). lia.
Qed.

Lemma load_graph_fits_witness :
  let loads := [1 # 2; 3 # 1; 0 # 1]%Q in
  let history := foldl (λ h v, load_history_append v h) [] loads in
  last history = last loads ∧
  Forall (λ c, 90 ≤ col_x c ≤ 125 ∧ col_y0 c = 27 ∧ 15 ≤ col_y1 c ≤ 27)
         (load_graph history).
Proof.
  intros loads history.
  destruct (load_graph_fits loads) as (_ & H1 & _ & H2).
  split; [apply H1; discriminate|].
  apply H2. repeat constructor; unfold Qle; cbn; lia.
Defined.

(** ** Weather *)

Lemma parse_forecast_length data w :
  parse data = Some w → (length (forecast w) ≤ 4)%nat.
Proof.
  unfold parse. intros H.
  destruct (getitem data _) as [cur|]; [|done].
  destruct (getitem cur _) as [temp_c|]; [|done].
  destruct (number temp_c) as [c|]; [|done].
  destruct (dict_get cur _ _) as [code|]; [|done].
  destruct (dict_get data _ _) as [hourly|]; [|done].
  destruct (dict_get hourly _ _) as [temps|]; [|done].
  destruct (first_temps temps) as [temp_fs|] eqn:Hf; [|done].
  simplify_eq. cbn. unfold first_temps in Hf.
  destruct temps as [| | |str|l|]; try done.
  - destruct str; simplify_eq. cbn. lia.
  - apply length_mapM in Hf. rewrite <- Hf, length_take. lia.
Qed.

Lemma get_weather_forecast_length now now' response c :
  (length (forecast (cached_weather c)) ≤ 4)%nat →
  (length (forecast (cached_weather (get_weather now now' response c).2))
     ≤ 4)%nat ∧
  (get_weather now now' response c).1
    = cached_weather (get_weather now now' response c).2.
Proof.
  intros Hc. unfold get_weather.
  destruct (_ <? _); [done|]. destruct response as [data|]; [|done].
  destruct (parse data) as [w|] eqn:Hw; [|done]. cbn.
  split; [by eapply parse_forecast_length | done].
Qed.

(** X15. After any sequence of calls of [get_weather] the cached forecast
    has at most four entries, so each of them is written at an x between 10
    and 100 on the line y = 48. *)
Theorem forecast_fits_display (calls : list (Z * Z * option json)) :
  let w := cached_weather (weather_calls calls initial_cache) in
  (length (forecast w) ≤ 4)%nat ∧
  Forall (λ p, 10 ≤ p.1 ≤ 100 ∧ p.2 = 48) (forecast_positions w).
Proof.
  intros w.
  assert (length (forecast w) ≤ 4)%nat as Hlen.
  { subst w. induction calls as [|call calls IH] using rev_ind; [cbn; lia|].
    unfold weather_calls in *. rewrite foldl_app. cbn [foldl].
    by apply get_weather_forecast_length. }
  split; [done|]. apply Forall_lookup. intros i p.
  unfold forecast_positions. rewrite list_lookup_imap.
  destruct (forecast w !! i) eqn:Hi; [|done]. intros [= <-]. cbn.
  apply lookup_lt_Some in Hi. lia.
Qed.



(** X17. A failed refresh is not remembered: the time stamp stays, so
    the next call, at whatever later time, sends a request again. *)
Theorem failed_refresh_is_retried (now now' now2 now2' : Z)
    (response response2 : option json) (c : cache) :
  WEATHER_UPDATE_INTERVAL ≤ now - last_weather_update c →
  fetch_raises response = true → now ≤ now2 →
  let c1 := (get_weather now now' response c).2 in
  let c2 := (get_weather now2 now2' response2 c1).2 in
  requests_sent c1 = S (requests_sent c) ∧
  requests_sent c2 = S (S (requests_sent c)).
Proof.
  intros Hdue Hf Hle.
  assert (get_weather now now' response c
          = (cached_weather c,
             mkCache (last_weather_update c) (cached_weather c)
                     (S (requests_sent c)))) as ->.
  { unfold get_weather, fetch_raises in *.
    destruct (Z.ltb_spec (now - last_weather_update c)
                         WEATHER_UPDATE_INTERVAL); [lia|].
    destruct response as [data|]; [|done]. by destruct (parse data). }
  cbn. split; [done|]. unfold get_weather. cbn.
  destruct (Z.ltb_spec (now2 - last_weather_update c)
                       WEATHER_UPDATE_INTERVAL); [lia|].
  destruct response2 as [data2|]; [|done]. by destruct (parse data2).
Qed.

Lemma failed_refresh_is_retried_witness :
  let c := initial_cache in
  let c1 := (get_weather 700000 700005 None c).2 in
  let c2 := (get_weather 700050 700055 (Some (answer bad_hourly)) c1).2 in
  requests_sent c1 = S (requests_sent c) ∧
  requests_sent c2 = S (S (requests_sent c)).
Proof.
  apply (failed_refresh_is_retried 700000 700005 700050 700055 None
           (Some (answer bad_hourly)) initial_cache);
    [vm_compute; discriminate | reflexivity | lia].
Defined.



End DashboardFacts.

(** * Properties of the animation *)

Section AnimationFacts.
Import Applet Animation.

Lemma move_on_track p : on_track p → on_track (move p).
Proof.
  unfold on_track, move, WIDTH, HEIGHT, sprite_size. destruct p as [x y dx dy].
  cbn. intros (Hx & Hy & Hdx & Hdy & Hpar & Hx0 & Hx1 & Hy0 & Hy1).
  rewrite !Z.geb_leb.
  assert ((x + dx) `mod` 2 = 0) as Hpar'.
  { destruct Hdx as [-> | ->].
    - replace (x + 2) with (x + 1 * 2) by lia. by rewrite Z.mod_add.
    - replace (x + -2) with (x + (-1) * 2) by lia. by rewrite Z.mod_add. }
  assert (x `mod` 2 = 0 → (x + dx) `mod` 2 = 0 → x ≠ 1 ∧ x ≠ 121) as Hodd.
  { intros H1 _. split; intros ->; done. }
  destruct (Hodd Hpar Hpar') as [Hn1 Hn121].
  repeat match goal with
  | |- context [?a <=? ?b] => destruct (Z.leb_spec a b)
  end; cbn; repeat split; try lia.
Qed.

(** X19. In every frame of [screen_animation] the corner of the square
    satisfies 0 <= x <= WIDTH - 6 and 0 <= y <= HEIGHT - 6: the square
    turns around at each edge and never leaves the field. (The rectangle is
    drawn up to x + 6 and y + 6, so at the right and bottom turning points
    its last column or row is 128 or 64, one past the display.) *)
Theorem animation_square_bounds (n : nat) :
  0 ≤ sp_x (position n) ≤ WIDTH - sprite_size ∧
  0 ≤ sp_y (position n) ≤ HEIGHT - sprite_size.
Proof.
  assert (on_track (position n)) as (Hx & Hy & _).
  { induction n as [|n IH]; [|by apply move_on_track].
    unfold on_track, position, WIDTH, HEIGHT, sprite_size. cbn.
    repeat split; try lia; try done. }
  done.
Qed.

(** The right edge: the rectangle is drawn up to column [x + sprite_size],
    which is 128 here. *)
Example animation_right_edge :
  sp_x (position 56) + sprite_size = WIDTH.
Proof. reflexivity. Qed.

Lemma pauses_0 : pauses = 0%nat.
Proof. reflexivity. Qed.

(** X20. [screen_animation] never sleeps: [int(frame_delay * 10)] is 0, so
    the pause loop has no iteration. Whatever the environment and however
    long it runs, the time slept is unchanged, the knob binding is
    untouched, and the cancellation flag is read exactly once before each
    frame (and once more when the loop sees it set). *)
Theorem animation_never_sleeps (E : env) (fuel : nat) (w : world) :
  let '(r, w') := screen_animation E fuel w in
  slept w' = slept w ∧
  knob_when_pressed w' = knob_when_pressed w ∧
  polls w' = (polls w + (display_calls w' - display_calls w) +
              match r with Val _ => 1 | _ => 0 end)%nat ∧
  (display_calls w ≤ display_calls w')%nat.
Proof.
  revert w. induction fuel as [|fuel IH]; intros w.
  - cbn. split_and!; try done; lia.
  - cbn [screen_animation]. rewrite pauses_0. cbn [for_range].
    unfold bind, poll, display, ret. cbn.
    destruct (cancelled E (polls w)); cbn; [split_and!; try done; lia|].
    destruct (fault E (display_calls w)); cbn; [split_and!; try done; lia|].
    specialize (IH (mkWorld (knob_when_pressed w) (encoder_when_rotated w)
                            (S (polls w)) (S (display_calls w)) (slept w))).
    destruct (screen_animation E fuel _) as [r w'].
    cbn in IH. destruct IH as (H1 & H2 & H3 & H4).
    split_and!; try done; lia.
Qed.

End AnimationFacts.

(** * Properties of Space Invaders *)

Section InvadersFacts.
Import Invaders.

Lemma elem_of_wave a rows :
  a ∈ wave rows → 10 ≤ a.1 ≤ 94 ∧ 8 ≤ a.2 ≤ 8 * rows.
Proof.
  unfold wave. intros H.
  apply list_elem_of_bind in H as (r & H & Hr).
  apply list_elem_of_bind in H as (c & H & Hc).
  apply list_elem_of_singleton in H as ->.
  apply elem_of_seqZ in Hr, Hc. unfold alien_cols, alien_spacing_x, alien_spacing_y in *.
  cbn. lia.
Qed.

Lemma length_wave rows : 0 ≤ rows → length (wave rows) = Z.to_nat (8 * rows).
Proof.
  intros Hr. unfold wave.
  assert (∀ l : list Z, length (l ≫= λ r, seqZ 0 alien_cols ≫= λ c,
     [(10 + c * alien_spacing_x, 8 + r * alien_spacing_y)]) = (8 * length l)%nat) as H.
  { induction l as [|r l IH]; [done|].
    rewrite bind_cons, length_app, IH.
    assert (length (seqZ 0 alien_cols ≫= λ c, [(10 + c * alien_spacing_x, 8 + r * alien_spacing_y)]) = 8%nat) as -> by done.
    cbn [length]. lia. }
  rewrite H, length_seqZ. lia.
Qed.

Lemma wave_nonempty rows : 0 < rows → wave rows ≠ [].
Proof.
  intros Hr Hw. pose proof (length_wave rows ltac:(lia)) as H.
  rewrite Hw in H. cbn in H. lia.
Qed.


Lemma move_player_spec now steps g x ls d :
  move_player now steps g = (x, ls, d) →
  0 ≤ player_x g ≤ WIDTH - 6 →
  0 ≤ x ≤ WIDTH - 6 ∧ Z.abs (x - player_x g) ≤ 9.
Proof.
  unfold move_player, fire_block_time, MAX_STEP_DELTA, WIDTH.
  intros H Hx. repeat case_decide; simplify_eq; lia.
Qed.

Lemma move_aliens_spec now g al dir lam :
  move_aliens now g = (al, dir, lam) →
  Forall (λ a, 0 ≤ a.1 ≤ WIDTH - 8 ∧ 8 ≤ a.2) (aliens g) →
  (alien_dir g = 1 ∨ alien_dir g = -1) →
  Forall (λ a, 0 ≤ a.1 ≤ WIDTH - 8 ∧ 8 ≤ a.2) al ∧
  (dir = 1 ∨ dir = -1) ∧
  length al = length (aliens g).
Proof.
  unfold move_aliens, WIDTH, alien_step_x. intros H Hal Hdir.
  destruct (aliens g) as [|a0 al0] eqn:Ha; [by simplify_eq|].
  case_match; simplify_eq; rewrite length_map; (split; [|split; [lia|done]]);
    apply Forall_fmap; eapply Forall_impl; [exact Hal| |exact Hal|];
    intros [ax ay]; cbn; lia.
Qed.

Lemma move_bullets_spec bs :
  Forall (λ b, 2 ≤ b.1 ≤ WIDTH - 4 ∧ 0 < b.2 ≤ player_y - 3) bs →
  Forall (λ b, 2 ≤ b.1 ≤ WIDTH - 4 ∧ 0 < b.2 ≤ player_y - 5)
         (move_bullets bs).
Proof.
  unfold move_bullets, bullet_speed. intros H.
  apply Forall_fmap, Forall_forall. intros [bx by_] Hb.
  apply list_elem_of_filter in Hb as [Hpos Hb].
  rewrite Forall_forall in H. specialize (H _ Hb). cbn in *. lia.
Qed.

Lemma sublist_Forall {A} (P : A → Prop) (l k : list A) :
  l `sublist_of` k → Forall P k → Forall P l.
Proof.
  rewrite !Forall_forall. intros Hs H x Hx. eapply H, elem_of_sublist; done.
Qed.

Lemma remove_sublist b bs : remove b bs `sublist_of` bs.
Proof.
  induction bs as [|x bs IH]; cbn; [done|].
  case_decide; [by apply sublist_cons | by apply sublist_skip].
Qed.

Lemma remove_elem b bs : b ∈ bs → bs ≡ₚ b :: remove b bs.
Proof.
  induction bs as [|x bs IH]; [by intros ?%elem_of_nil|].
  intros Hb. cbn. case_decide as Hx; [by subst|].
  apply elem_of_cons in Hb as [->|Hb]; [done|].
  rewrite (IH Hb) at 1. apply Permutation_swap.
Qed.

Lemma hit_idx_Some b al idx :
  hit_idx b al = Some idx → is_Some (al !! idx).
Proof.
  unfold hit_idx. intros H. apply fmap_Some in H as ([i a] & H & ->).
  apply list_find_Some in H as (H & _). by exists a.
Qed.

(** What the hit loop does to the three variables, whatever the copy it
    walks over, as long as the copy holds bullets of the list only. *)
Lemma resolve_hits_spec todo bs al sc bs' al' sc' :
  todo ⊆+ bs →
  resolve_hits todo bs al sc = (bs', al', sc') →
  bs' `sublist_of` bs ∧ al' `sublist_of` al ∧
  sc' = sc + 10 * Z.of_nat (length al - length al') ∧
  (length bs - length bs' = length al - length al')%nat.
Proof.
  revert bs al sc. induction todo as [|b todo IH]; intros bs al sc Hsub H.
  - cbn in H. simplify_eq. repeat split; [done..| |]; [f_equal|]; lia.
  - cbn in H. destruct (hit_idx b al) as [idx|] eqn:Hidx.
    + assert (b ∈ bs) as Hb.
      { eapply elem_of_submseteq; [|exact Hsub]. by left. }
      pose proof (remove_elem b bs Hb) as Hperm.
      assert (todo ⊆+ remove b bs) as Hsub'.
      { apply (submseteq_app_inv_l _ _ [b]). cbn. by rewrite <- Hperm. }
      destruct (IH _ _ _ Hsub' H) as (Hbs & Hal & Hsc & Hlen).
      pose proof (hit_idx_Some _ _ _ Hidx) as Hsome.
      pose proof (length_delete al idx Hsome) as Hdel.
      pose proof (lookup_lt_is_Some_1 _ _ Hsome) as Hlt.
      pose proof (sublist_length _ _ Hal) as Hle.
      pose proof (sublist_length _ _ Hbs) as Hle'.
      pose proof (Permutation_length Hperm) as Hpl. cbn in Hpl.
      split; [|split; [|split]].
      * etrans; [exact Hbs|apply remove_sublist].
      * etrans; [exact Hal|apply sublist_delete].
      * lia.
      * lia.
    + apply IH in H as (Hbs & Hal & Hsc & Hlen); [done|].
      etrans; [|exact Hsub]. by apply submseteq_cons.
Qed.

Lemma fire_bullet_tidy now g : tidy g → tidy (fire_bullet now g).
Proof.
  unfold tidy, fire_bullet, player_y, WIDTH, HEIGHT.
  intros (Hx & Hb & Ha & Hne & Hr & Hd).
  case_decide; [|done]. cbn. split_and!; try done; try lia.
  apply Forall_app. split; [done|]. apply Forall_singleton. cbn. lia.
Qed.

Lemma wave_tidy rows :
  Forall (λ a, 0 ≤ a.1 ≤ WIDTH - 8 ∧ 8 ≤ a.2) (wave rows).
Proof.
  apply Forall_forall. intros a Ha%elem_of_wave. unfold WIDTH. lia.
Qed.

Lemma frame_tidy now steps g : tidy g → tidy (frame now steps g).1.
Proof.
  intros (Hx & Hb & Ha & Hne & Hr & Hd). unfold frame.
  destruct (move_player now steps g) as [[x ls] d] eqn:Hp.
  destruct (move_aliens now g) as [[al dir] lam] eqn:Hm.
  destruct (resolve_hits _ _ al (score g)) as [[bs' al'] sc'] eqn:Hh.
  destruct (move_player_spec _ _ _ _ _ _ Hp Hx) as [Hx' _].
  destruct (move_aliens_spec _ _ _ _ _ Hm Ha Hd) as (Hal & Hdir & _).
  destruct (resolve_hits_spec _ _ _ _ _ _ _ (reflexivity _) Hh)
    as (Hbs & Hsub & _).
  pose proof (move_bullets_spec _ Hb) as Hb'.
  assert (Forall (λ b, 2 ≤ b.1 ≤ WIDTH - 4 ∧ 0 < b.2 ≤ player_y - 3) bs').
  { eapply Forall_impl; [eapply sublist_Forall; [exact Hbs|exact Hb']|].
    intros [bx by_]. cbn. lia. }
  destruct al' as [|a al''] eqn:Hal'; unfold tidy; cbn.
  - split_and!; try done; try (unfold WIDTH in *; lia);
      [apply wave_tidy | apply wave_nonempty; lia].
  - split_and!; try done; try (unfold WIDTH in *; lia).
    eapply sublist_Forall; [exact Hsub|exact Hal].
Qed.

Lemma start_tidy steps : tidy (start steps).
Proof.
  unfold tidy, start. cbn [player_x bullets aliens alien_rows alien_dir].
  split_and!; try done.
  - apply wave_tidy.
  - by left.
Qed.

Lemma play_tidy g ins : tidy g → tidy (play g ins).1.
Proof.
  revert g. induction ins as [|[now|now steps] ins IH]; intros g Hg; [done|..].
  - cbn. by apply IH, fire_bullet_tidy.
  - cbn. pose proof (frame_tidy now steps g Hg) as Hf.
    destruct (frame now steps g) as [g' over]. destruct over; [done|].
    by apply IH.
Qed.

Lemma landed_false al :
  landed al = false → Forall (λ a, a.2 < player_y - 2) al.
Proof.
  unfold landed. intros H. apply Forall_forall. intros a Ha.
  destruct (decide (a.2 < player_y - 2)) as [|Hn]; [done|].
  assert (existsb (λ a, bool_decide (a.2 >= player_y - 2)) al = true) as Ht.
  { apply existsb_exists. exists a. split; [by apply list_elem_of_In|].
    apply bool_decide_eq_true. lia. }
  congruence.
Qed.

Lemma frame_landed now steps g :
  landed (aliens (frame now steps g).1) = (frame now steps g).2.
Proof.
  unfold frame.
  destruct (move_player now steps g) as [[x ls] d].
  destruct (move_aliens now g) as [[al dir] lam].
  destruct (resolve_hits _ _ al (score g)) as [[bs' al'] sc'].
  by destruct al'.
Qed.

(** X21. In every state a game of Space Invaders can reach (any sequence of
    shots and loop iterations from the start), one more iteration keeps
    the player within 0 <= player_x <= WIDTH - 6, moves it by at most 9
    pixels, and, unless the game is over, every rectangle it draws (aliens,
    player, bullets) lies inside the 128x64 display. *)
Theorem invaders_frame_fits_display (steps0 : Z) (ins : list input)
    (now steps : Z) :
  let g := (play (start steps0) ins).1 in
  let '(g', over) := frame now steps g in
  0 ≤ player_x g' ≤ WIDTH - 6 ∧
  Z.abs (player_x g' - player_x g) ≤ 9 ∧
  (over = false → Forall inside (rectangles g')).
Proof.
  intros g. pose proof (play_tidy (start steps0) ins (start_tidy _)) as Hg.
  fold g in Hg. pose proof (frame_tidy now steps g Hg) as Hg'.
  pose proof (frame_landed now steps g) as Hl.
  assert (Z.abs (player_x (frame now steps g).1 - player_x g) ≤ 9) as Hmove.
  { unfold frame. destruct (move_player now steps g) as [[x ls] d] eqn:Hp.
    destruct (move_aliens now g) as [[al dir] lam].
    destruct (resolve_hits _ _ al (score g)) as [[bs' al'] sc'].
    destruct Hg as [Hx _].
    destruct (move_player_spec _ _ _ _ _ _ Hp Hx) as [_ H].
    by destruct al'. }
  destruct (frame now steps g) as [g' over]. cbn in *.
  destruct Hg' as (Hx & Hb & Ha & _).
  split; [done|]. split; [done|]. intros ->.
  apply landed_false in Hl. unfold rectangles.
  rewrite !Forall_app. split; [|split].
  - apply Forall_fmap, Forall_forall. intros [ax ay] Hin.
    rewrite Forall_forall in Ha, Hl.
    specialize (Ha _ Hin). specialize (Hl _ Hin).
    unfold inside, player_y, WIDTH, HEIGHT in *. cbn in *. lia.
  - apply Forall_singleton.
    unfold inside, player_y, WIDTH, HEIGHT in *. cbn. lia.
  - apply Forall_fmap. eapply Forall_impl; [exact Hb|].
    intros [bx by_]. unfold inside, player_y, WIDTH, HEIGHT. cbn. lia.
Qed.

Lemma invaders_frame_fits_display_witness :
  Forall inside
    (rectangles (frame 1200 2 (play (start 0) [Fire 1000]).1).1).
Proof.
  pose proof (invaders_frame_fits_display 0 [Fire 1000] 1200 2) as H.
  cbv zeta in H.
  destruct (frame 1200 2 (play (start 0) [Fire 1000]).1) as [g' over] eqn:Hf.
  destruct H as (_ & _ & H). apply H.
  pose proof (f_equal snd Hf) as Ho. cbn [snd] in Ho. rewrite <- Ho.
  vm_compute. reflexivity.
Defined.

(** X22. The hit loop of Space Invaders: the bullets and aliens left are
    sublists of those before, every hit removes exactly one bullet and one
    alien, and the score grows by 10 for each alien removed. *)
Theorem invaders_hits_accounting (bs al : list (Z * Z)) (sc : Z) :
  let '(bs', al', sc') := resolve_hits bs bs al sc in
  bs' `sublist_of` bs ∧ al' `sublist_of` al ∧
  sc' = sc + 10 * Z.of_nat (length al - length al') ∧
  (length bs - length bs' = length al - length al')%nat.
Proof.
  destruct (resolve_hits bs bs al sc) as [[bs' al'] sc'] eqn:H.
  by eapply resolve_hits_spec.
Qed.


(** A shot from the starting position reaches the second row in the 17th
    frame. *)
Example invaders_first_hit :
  let frames := (λ k, Frame (1000 + 30 * Z.of_nat k) 0) <$> seq 1 17 in
  let g := (play (start 0) (Fire 1000 :: frames)).1 in
  score g = 10 ∧ length (aliens g) = 23%nat ∧ bullets g = [].
Proof. vm_compute. done. Qed.

End InvadersFacts.

(** * Properties of the Game of Life *)

Section LifeFacts.
Import Life.

Lemma cols_pos : 0 < cols.
Proof. done. Qed.
Lemma rows_pos : 0 < rows.
Proof. done. Qed.

Lemma lookup_seqZ_0 n i : 0 ≤ i < n → seqZ 0 n !! Z.to_nat i = Some i.
Proof. intros. apply lookup_seqZ. lia. Qed.

Lemma cell_tabulate f x y :
  0 ≤ x < cols → 0 ≤ y < rows → cell (tabulate f) x y = f x y.
Proof.
  intros Hx Hy. unfold cell, getitem, tabulate.
  rewrite list_lookup_fmap, (lookup_seqZ_0 _ _ Hy). cbn.
  by rewrite list_lookup_fmap, (lookup_seqZ_0 _ _ Hx).
Qed.

Lemma getitem_wf grid x y :
  wf grid → 0 ≤ x < cols → 0 ≤ y < rows →
  ∃ c, getitem grid x y = Some c ∧ (c = 0 ∨ c = 1).
Proof.
  intros [Hlen Hrows] Hx Hy. unfold getitem.
  destruct (lookup_lt_is_Some_2 grid (Z.to_nat y)) as [row Hrow]; [lia|].
  rewrite Hrow. rewrite Forall_forall in Hrows.
  destruct (Hrows row) as [Hl Hc]; [by eapply list_elem_of_lookup_2|].
  destruct (lookup_lt_is_Some_2 row (Z.to_nat x)) as [c Hcell]; [lia|].
  exists c. split; [done|]. rewrite Forall_forall in Hc.
  eapply Hc, list_elem_of_lookup_2, Hcell.
Qed.

Lemma tabulate_ext f g :
  (∀ x y, 0 ≤ x < cols → 0 ≤ y < rows → f x y = g x y) →
  tabulate f = tabulate g.
Proof.
  intros H. unfold tabulate. apply list_fmap_ext. intros i y Hy.
  apply lookup_seqZ in Hy as [-> Hi].
  apply list_fmap_ext. intros j x Hx. apply lookup_seqZ in Hx as [-> Hj].
  apply H; lia.
Qed.

Lemma rule_binary c n : rule c n = 0 ∨ rule c n = 1.
Proof. unfold rule. repeat case_bool_decide; auto. Qed.

Lemma tabulate_wf f :
  (∀ x y, f x y = 0 ∨ f x y = 1) → wf (tabulate f).
Proof.
  intros Hf. unfold wf, tabulate. rewrite length_fmap, length_seqZ.
  split; [done|]. apply Forall_fmap, Forall_forall. intros y _. cbn.
  rewrite length_fmap, length_seqZ. split; [done|].
  apply Forall_fmap, Forall_forall. intros x _. apply Hf.
Qed.

Lemma mod_shift a d e n :
  0 < n → ((a + e) `mod` n + d) `mod` n = ((a + d) `mod` n + e) `mod` n.
Proof.
  intros Hn. rewrite !Zplus_mod_idemp_l. f_equal. lia.
Qed.

Lemma count_neighbors_shift dx dy grid x y :
  0 ≤ x < cols → 0 ≤ y < rows →
  count_neighbors (shift dx dy grid) x y =
  count_neighbors grid ((x + dx) `mod` cols) ((y + dy) `mod` rows).
Proof.
  intros Hx Hy. unfold count_neighbors. f_equal.
  apply list_fmap_ext. intros i [ex ey] _. cbn. unfold shift.
  rewrite cell_tabulate.
  - by rewrite (mod_shift x dx ex), (mod_shift y dy ey).
  - apply Z.mod_pos_bound, cols_pos.
  - apply Z.mod_pos_bound, rows_pos.
Qed.

(** X23. The Game of Life on a grid of [rows] x [cols] cells of 0 and 1:
    every access of [count_neighbors] is in range (no [IndexError]), the
    next generation is again such a grid, and the world is a torus: moving
    the grid by any (dx, dy) around the edges and then stepping is the same
    as stepping and then moving. *)
Theorem life_step_torus (grid : list (list Z)) (dx dy : Z) :
  wf grid →
  (∀ x y d, 0 ≤ x < cols → 0 ≤ y < rows → d ∈ offsets →
     is_Some (getitem grid ((x + d.1) `mod` cols) ((y + d.2) `mod` rows))) ∧
  wf (step grid) ∧
  step (shift dx dy grid) = shift dx dy (step grid).
Proof.
  intros Hwf. split; [|split].
  - intros x y d _ _ _.
    destruct (getitem_wf grid ((x + d.1) `mod` cols) ((y + d.2) `mod` rows))
      as (c & -> & _); [done| | |done].
    + apply Z.mod_pos_bound, cols_pos.
    + apply Z.mod_pos_bound, rows_pos.
  - apply tabulate_wf. intros. apply rule_binary.
  - unfold step at 1.
    change (shift dx dy (step grid)) with
      (tabulate (λ x y, cell (step grid) ((x + dx) `mod` cols)
                                         ((y + dy) `mod` rows))).
    apply tabulate_ext. intros x y Hx Hy.
    rewrite count_neighbors_shift by done.
    unfold shift. rewrite cell_tabulate by done.
    unfold step. rewrite cell_tabulate; [done|..].
    + apply Z.mod_pos_bound, cols_pos.
    + apply Z.mod_pos_bound, rows_pos.
Qed.

Lemma life_step_torus_witness :
  wf glider ∧ step (shift 3 (-1) glider) = shift 3 (-1) (step glider).
Proof.
  assert (wf glider) as H
    by (apply (bool_decide_unpack (wf glider)); vm_compute; exact I).
  split; [exact H|]. apply (life_step_torus glider 3 (-1) H).
Defined.

(** The glider after four generations: one cell down and to the right. *)
Example glider_moves :
  step (step (step (step glider))) = shift (-1) (-1) glider.
Proof. vm_compute. reflexivity. Qed.

End LifeFacts.

(** * Properties of the disk space and load average screens *)

Section ScreensFacts.
Import Dashboard Screens.

Lemma scan_not_seen P ps seen e :
  e ∈ scan P ps seen → e.1.1 ∉ seen.
Proof.
  revert seen. induction ps as [|p ps IH]; intros seen; cbn.
  - by intros ?%elem_of_nil.
  - destruct (skipped P p); [by apply IH|].
    case_decide as Hs; [by apply IH|].
    destruct (usage_percent P (mountpoint p)).
    + intros [->|He]%elem_of_cons; [done|].
      apply IH in He. set_solver.
    + intros He. apply IH in He. set_solver.
Qed.

Lemma scan_NoDup P ps seen : NoDup ((λ e, e.1.1) <$> scan P ps seen).
Proof.
  revert seen. induction ps as [|p ps IH]; intros seen; cbn.
  - constructor.
  - destruct (skipped P p); [by apply IH|].
    case_decide as Hs; [by apply IH|].
    destruct (usage_percent P (mountpoint p)); [|by apply IH].
    cbn. constructor; [|by apply IH].
    intros (e & He1 & He)%list_elem_of_fmap.
    apply scan_not_seen in He. set_solver.
Qed.

(** Which entries [scan] produces. *)
Lemma scan_spec P ps seen d m q :
  (d, m, q) ∈ scan P ps seen ↔
  ∃ i, ps !! i = Some (mkPartition d m) ∧
       skipped P (mkPartition d m) = false ∧
       usage_percent P m = Some q ∧
       (d ∉ seen) ∧
       ∀ j p, (j < i)%nat → ps !! j = Some p →
              skipped P p = false → device p ≠ d.
Proof.
  revert seen. induction ps as [|p ps IH]; intros seen; cbn.
  - split; [by intros ?%elem_of_nil|]. by intros (i & ? & _).
  - destruct (skipped P p) eqn:Hsk.
    { rewrite IH. split.
      - intros (i & Hi & Hs & Hu & Hd & Hfirst). exists (S i).
        split_and!; try done. intros [|j] p' Hj Hp' Hsk'; cbn in Hp'.
        + congruence.
        + eapply Hfirst; [|done..]. lia.
      - intros ([|i] & Hi & Hs & Hu & Hd & Hfirst); cbn in Hi.
        + simplify_eq. congruence.
        + exists i. split_and!; try done. intros j p' Hj Hp' Hsk'.
          apply (Hfirst (S j) p'); [lia|done..]. }
    case_decide as Hseen.
    { rewrite IH. split.
      - intros (i & Hi & Hs & Hu & Hd & Hfirst). exists (S i).
        split_and!; try done. intros [|j] p' Hj Hp' Hsk'; cbn in Hp'.
        + simplify_eq. intros <-. done.
        + eapply Hfirst; [|done..]. lia.
      - intros ([|i] & Hi & Hs & Hu & Hd & Hfirst); cbn in Hi.
        + simplify_eq. done.
        + exists i. split_and!; try done. intros j p' Hj Hp' Hsk'.
          apply (Hfirst (S j) p'); [lia|done..]. }
    assert ((d, m, q) ∈ scan P ps ({[device p]} ∪ seen) ↔
            ∃ i, (p :: ps) !! i = Some (mkPartition d m) ∧ (0 < i)%nat ∧
                 skipped P (mkPartition d m) = false ∧
                 usage_percent P m = Some q ∧ (d ∉ seen) ∧
                 ∀ j p', (j < i)%nat → (p :: ps) !! j = Some p' →
                         skipped P p' = false → device p' ≠ d) as Hrest.
    { rewrite IH. split.
      - intros (i & Hi & Hs & Hu & Hd & Hfirst). exists (S i).
        split_and!; try done;
          [lia|by intros ?; apply Hd, elem_of_union; right|].
        intros [|j] p' Hj Hp' Hsk'; cbn in Hp'.
        + simplify_eq. intros <-.
          by apply Hd, elem_of_union; left; apply elem_of_singleton.
        + eapply Hfirst; [|done..]. lia.
      - intros ([|i] & Hi & Hpos & Hs & Hu & Hd & Hfirst); [lia|].
        cbn in Hi. exists i. split_and!; try done.
        + pose proof (Hfirst 0%nat p ltac:(lia) eq_refl Hsk) as Hne.
          rewrite not_elem_of_union, not_elem_of_singleton. by split.
        + intros j p' Hj Hp' Hsk'.
          apply (Hfirst (S j) p'); [lia|done..]. }
    destruct (usage_percent P (mountpoint p)) as [q0|] eqn:Hq.
    + rewrite elem_of_cons, Hrest. split.
      * intros [Heq|(i & Hi & _ & H)]; [|by exists i].
        simplify_eq. exists 0%nat. destruct p as [d0 m0]. cbn in *.
        split_and!; try done. intros j p' Hj. lia.
      * intros ([|i] & Hi & Hs & Hu & Hd & Hfirst).
        -- left. cbn in Hi. simplify_eq. cbn in *. congruence.
        -- right. exists (S i). split_and!; try done. lia.
    + rewrite Hrest. split.
      * intros (i & Hi & _ & H). by exists i.
      * intros ([|i] & Hi & Hs & Hu & Hd & Hfirst).
        -- cbn in Hi. simplify_eq. cbn in *. congruence.
        -- exists (S i). split_and!; try done. lia.
Qed.


(** X24. The disk space screen lists every device at most once, and lists
    exactly the partitions that pass the filter, whose usage can be read,
    and that are the first partition of their device to pass the filter.
    (A device whose first such partition raises [PermissionError] is not
    listed, whatever its later mount points.) *)
Theorem diskspace_first_mount_per_device (P : probes) (ps : list partition) :
  NoDup ((λ e, e.1.1) <$> scan P ps ∅) ∧
  ∀ d m q,
    (d, m, q) ∈ scan P ps ∅ ↔
    ∃ i, ps !! i = Some (mkPartition d m) ∧
         skipped P (mkPartition d m) = false ∧
         usage_percent P m = Some q ∧
         ∀ j p, (j < i)%nat → ps !! j = Some p →
                skipped P p = false → device p ≠ d.
Proof.
  split; [apply scan_NoDup|]. intros d m q. rewrite scan_spec. split.
  - intros (i & Hi & Hs & Hu & _ & Hfirst). by exists i.
  - intros (i & Hi & Hs & Hu & Hfirst). exists i. by split_and!.
Qed.

Lemma py_int_range q n :
  (0 <= q)%Q → (q <= inject_Z n)%Q → 0 ≤ py_int q ≤ n.
Proof.
  intros H0 Hn. unfold py_int.
  destruct (Qle_bool 0 q) eqn:Hb; [|by apply Qle_bool_iff in H0; congruence].
  split.
  - change 0 with (Qfloor 0). by apply Qfloor_resp_le.
  - rewrite <- (Qfloor_Z n). by apply Qfloor_resp_le.
Qed.

Lemma fill_width_range percent :
  (0 <= percent)%Q → (percent <= 100)%Q →
  0 ≤ py_int (inject_Z WIDTH * (percent / 100)) ≤ WIDTH.
Proof.
  intros H0 H100. apply py_int_range.
  - apply Qmult_le_0_compat; [done|]. by apply Qle_shift_div_l; [|rewrite Qmult_0_l].
  - rewrite <- (Qmult_1_r (inject_Z WIDTH)) at 2.
    apply Qmult_le_l; [done|]. apply Qle_shift_div_r; [done|].
    by rewrite Qmult_1_l.
Qed.

Lemma diskspace_bars_eq partitions :
  diskspace_bars partitions =
  imap (λ i e, mkBar (21 * Z.of_nat i) (21 * Z.of_nat i + 9)
                     (py_int (inject_Z WIDTH * (e.2 / 100))))
       (take 3 partitions).
Proof.
  unfold diskspace_bars.
  by destruct partitions
    as [|[[d1 m1] q1] [|[[d2 m2] q2] [|[[d3 m3] q3] rest]]].
Qed.

(** X25. The disk space screen draws the first three partitions at most:
    the label of the i-th at y = 21 i, its bar 9 pixels below, the bar
    ending inside the display; with a usage between 0 and 100 percent the
    filled width is between 0 and WIDTH. *)
Theorem diskspace_bars_layout (partitions : list (string * string * Q)) :
  Forall (λ e, (0 <= e.2)%Q ∧ (e.2 <= 100)%Q) partitions →
  length (diskspace_bars partitions) = (length partitions `min` 3)%nat ∧
  ∀ i b, diskspace_bars partitions !! i = Some b →
    label_y b = 21 * Z.of_nat i ∧
    bar_y b = label_y b + 9 ∧
    bar_y b + bar_height < HEIGHT ∧
    0 ≤ fill_width b ≤ WIDTH.
Proof.
  intros Hp. rewrite diskspace_bars_eq, length_imap, length_take.
  split; [lia|]. intros i b Hb. rewrite list_lookup_imap in Hb.
  destruct (take 3 partitions !! i) as [e|] eqn:He; [|done].
  cbn in Hb. injection Hb as <-. cbn [label_y bar_y fill_width].
  pose proof (lookup_lt_Some _ _ _ He) as Hlt. rewrite length_take in Hlt.
  rewrite lookup_take_Some in He. destruct He as [He _].
  rewrite Forall_forall in Hp.
  destruct (Hp e) as [H0 H100]; [by eapply list_elem_of_lookup_2|].
  pose proof (fill_width_range _ H0 H100).
  unfold bar_height, HEIGHT. split_and!; try done; lia.
Qed.

Lemma foldl_Qmax_ge l y :
  (y <= foldl Qmax y l)%Q ∧ ∀ x, x ∈ l → (x <= foldl Qmax y l)%Q.
Proof.
  revert y. induction l as [|z l IH]; intros y; cbn.
  - split; [apply Qle_refl|]. intros x Hx. by apply elem_of_nil in Hx.
  - destruct (IH (Qmax y z)) as [H1 H2]. split.
    + eapply Qle_trans; [apply Q.le_max_l|exact H1].
    + intros x Hx. apply elem_of_cons in Hx as [Hx|Hx].
      * subst x. eapply Qle_trans; [apply Q.le_max_r|exact H1].
      * by apply H2.
Qed.

Lemma py_max_ge l x : x ∈ l → (x <= py_max l)%Q.
Proof.
  destruct l as [|y l]; intros Hx; [by apply elem_of_nil in Hx|]. cbn.
  destruct (foldl_Qmax_ge l y) as [H1 H2].
  apply elem_of_cons in Hx as [Hx|Hx]; [by subst x|by apply H2].
Qed.

Lemma length_history_of samples :
  (length (history_of samples) ≤ Z.to_nat WIDTH)%nat ∧
  ∀ x, x ∈ history_of samples → x ∈ samples.
Proof.
  unfold history_of. induction samples as [|s samples IH] using rev_ind.
  - cbn. split; [lia|done].
  - rewrite foldl_app. cbn [foldl]. destruct IH as [IH1 IH2].
    unfold history_append at 1 3. split.
    + unfold deque_append. rewrite length_drop, length_app. cbn. lia.
    + intros x Hx. unfold deque_append in Hx.
      apply list_elem_of_lookup in Hx as [i Hi].
      rewrite lookup_drop in Hi. apply list_elem_of_lookup_2 in Hi.
      apply elem_of_app in Hi as [Hi|Hi]; apply elem_of_app; [left|by right].
      by apply IH2.
Qed.

(** X26. The graph of the load average screen: whatever non-negative
    samples have been taken, the history holds at most WIDTH of them,
    column x is drawn at 0 <= x < WIDTH from the bottom row up to at most
    40 pixels, that is not above row 23. *)
Theorem loadavg_graph_fits (samples : list Q) :
  Forall (λ v, (0 <= v)%Q) samples →
  Forall (λ c, 0 ≤ col_x c < WIDTH ∧
               HEIGHT - 1 - 40 ≤ col_y0 c ≤ col_y1 c ∧
               col_y1 c = HEIGHT - 1)
         (loadavg_graph (history_of samples)).
Proof.
  intros Hs. destruct (length_history_of samples) as [Hlen Hin].
  set (history := history_of samples) in *.
  apply Forall_forall. intros c Hc. unfold loadavg_graph in Hc.
  apply list_elem_of_lookup in Hc as [i Hi].
  rewrite list_lookup_imap in Hi.
  destruct (history !! i) as [val|] eqn:Hval; [|done]. cbn in Hi.
  injection Hi as <-. cbn [col_x col_y0 col_y1].
  pose proof (lookup_lt_Some _ _ _ Hval) as Hlt.
  pose proof (list_elem_of_lookup_2 _ _ _ Hval) as Hel.
  assert (0 <= val)%Q as H0.
  { rewrite Forall_forall in Hs. by apply Hs, Hin. }
  assert (0 ≤ py_int (val * (40 / Qmax 1 (py_max history))) ≤ 40) as Hh.
  { apply py_int_range.
    - apply Qmult_le_0_compat; [done|]. apply Qle_shift_div_l.
      + eapply Qlt_le_trans; [|apply Q.le_max_l]. done.
      + by rewrite Qmult_0_l.
    - assert (0 < Qmax 1 (py_max history))%Q as Hpos.
      { eapply Qlt_le_trans; [|apply Q.le_max_l]. done. }
      assert (val <= Qmax 1 (py_max history))%Q as Hle.
      { eapply Qle_trans; [by apply py_max_ge|]. apply Q.le_max_r. }
      unfold Qdiv. rewrite Qmult_assoc. apply Qle_shift_div_r; [done|].
      rewrite (Qmult_comm val). by apply Qmult_le_l. }
  unfold WIDTH, HEIGHT in *. lia.
Qed.

Lemma diskspace_bars_layout_witness :
  let partitions :=
    [("/dev/sda1", "/", 50 # 1); ("/dev/sdb1", "/srv/nas", 100 # 1);
     ("/dev/sdc1", "/mnt/a", 0 # 1); ("/dev/sdd1", "/mnt/b", 7 # 2)]%string in
  length (diskspace_bars partitions) = 3%nat ∧
  ∀ i b, diskspace_bars partitions !! i = Some b →
    label_y b = 21 * Z.of_nat i ∧
    bar_y b = label_y b + 9 ∧
    bar_y b + bar_height < HEIGHT ∧
    0 ≤ fill_width b ≤ WIDTH.
Proof.
  intros partitions. apply (diskspace_bars_layout partitions).
  repeat constructor; cbn; unfold Qle; cbn; lia.
Defined.

(** A full disk: the filled rectangle ends at x = 128, one column past the
    display. *)
Example diskspace_full_bar :
  fill_width <$> diskspace_bars [("/dev/sda1", "/", 100 # 1)]%string = [WIDTH].
Proof. reflexivity. Qed.

Lemma loadavg_graph_fits_witness :
  Forall (λ c, 0 ≤ col_x c < WIDTH ∧
               HEIGHT - 1 - 40 ≤ col_y0 c ≤ col_y1 c ∧
               col_y1 c = HEIGHT - 1)
         (loadavg_graph (history_of [1 # 2; 3 # 1; 0 # 1; 5 # 4])).
Proof.
  apply (loadavg_graph_fits [1 # 2; 3 # 1; 0 # 1; 5 # 4]).
  repeat constructor; unfold Qle; cbn; lia.
Defined.

(** A device listed under two mount points is shown once, under the first;
    one whose first mount point cannot be read is not shown at all. *)
Example diskspace_scan_run :
  let P := mkProbes (λ _, true)
                    (λ m, if String.eqb m "/secret" then None
                          else Some (50 # 1)) in
  scan P [mkPartition "/dev/loop0" "/snap"; mkPartition "/dev/sda1" "/";
          mkPartition "/dev/sda1" "/home"; mkPartition "/dev/sda2" "/boot";
          mkPartition "/dev/sdb1" "/secret"; mkPartition "/dev/sdb1" "/data"]%string ∅
  = [("/dev/sda1", "/", 50 # 1)]%string.
Proof. vm_compute. reflexivity. Qed.

End ScreensFacts.

(** * Properties of the activity lights *)

Section LightsFacts.
Import Lights.

Lemma leds_app ops1 ops2 lit :
  leds (ops1 ++ ops2) lit = leds ops2 (leds ops1 lit).
Proof. apply foldl_app. Qed.

Lemma dark_ok :
  (size (∅ : gset Z) ≤ 1)%nat ∧ (∅ : gset Z) ⊆ list_to_set LED_PINS.
Proof. rewrite size_empty. split; [lia|apply empty_subseteq]. Qed.

Lemma calm_nil : calm [].
Proof. split; [done|]. intros n. rewrite take_nil. apply dark_ok. Qed.

Lemma calm_app ops1 ops2 : calm ops1 → calm ops2 → calm (ops1 ++ ops2).
Proof.
  intros [He1 H1] [He2 H2]. split.
  - by rewrite leds_app, He1.
  - intros n. rewrite take_app. rewrite leds_app.
    destruct (decide (n ≤ length ops1)%nat) as [Hle|Hgt].
    + replace (n - length ops1)%nat with 0%nat by lia. rewrite take_0. cbn.
      apply H1.
    + rewrite (take_ge ops1) by lia. rewrite He1. apply H2.
Qed.

Lemma blink_ends p : leds (blink p) ∅ = ∅.
Proof.
  unfold blink, leds. cbn.
  by rewrite (right_id_L ∅ (∪)), difference_diag_L.
Qed.

Lemma calm_blink p : p ∈ LED_PINS → calm (blink p).
Proof.
  intros Hp. split; [apply blink_ends|].
  assert ((size ({[p]} : gset Z) ≤ 1)%nat ∧
          ({[p]} : gset Z) ⊆ list_to_set LED_PINS) as Hone.
  { rewrite size_singleton. split; [lia|].
    by apply singleton_subseteq_l, elem_of_list_to_set. }
  intros [|[|[|n]]].
  - apply dark_ok.
  - unfold blink, leds. cbn. by rewrite (right_id_L ∅ (∪)).
  - unfold blink, leds. cbn. by rewrite (right_id_L ∅ (∪)).
  - replace (take (S (S (S n))) (blink p)) with (blink p)
      by (unfold blink; cbn; by rewrite take_nil).
    rewrite blink_ends. apply dark_ok.
Qed.

Lemma calm_sleep ms : calm [Sleep ms].
Proof.
  split; [done|]. intros [|n]; cbn; rewrite ?take_nil; apply dark_ok.
Qed.

Lemma calm_bind {A} (l : list A) (f : A → list op) :
  (∀ x, x ∈ l → calm (f x)) → calm (l ≫= f).
Proof.
  induction l as [|x l IH]; intros H; [apply calm_nil|].
  rewrite bind_cons. apply calm_app; [apply H; by left|].
  apply IH. intros y Hy. apply H. by right.
Qed.

Lemma calm_circular_spin repeats : calm (circular_spin repeats).
Proof.
  unfold circular_spin. apply calm_bind. intros _ _.
  apply calm_bind. intros p Hp. by apply calm_blink.
Qed.

Lemma leds_all_off lit : leds all_off lit = lit ∖ list_to_set LED_PINS.
Proof.
  unfold all_off, leds, LED_PINS. cbn.
  by rewrite !difference_difference_l_L, (right_id_L ∅ (∪)), !(assoc_L (∪)).
Qed.

Lemma leds_off_dark pins : leds ((λ p, Output p false) <$> pins) ∅ = ∅.
Proof.
  unfold leds. induction pins as [|p pins IH]; [done|].
  cbn. by rewrite empty_difference_L.
Qed.

Lemma calm_all_off : calm all_off.
Proof.
  split; [apply leds_off_dark|].
  intros n. unfold all_off. rewrite <- fmap_take, leds_off_dark.
  apply dark_ok.
Qed.

Lemma calm_iteration r last : calm (iteration r last).1.
Proof.
  destruct r as [cur|]; unfold iteration; cbn [fst]; [|apply calm_sleep].
  apply calm_app; [apply calm_sleep|].
  case_decide; [apply calm_circular_spin|apply calm_all_off].
Qed.

Lemma calm_loop readings last : calm (loop readings last).
Proof.
  revert last. induction readings as [|r readings IH]; intros last; cbn.
  - apply calm_nil.
  - pose proof (calm_iteration r last) as Hi.
    destruct (iteration r last) as [ops last']. apply calm_app; [done|].
    apply IH.
Qed.

(** X27. The activity lights, started with every LED off: whatever the
    readings and wherever the loop is interrupted, at most one LED is on
    at any time, and after the [finally] block every LED is off. *)
Theorem lights_one_led_at_a_time (first : io) (readings : list (option io))
    (n : nat) :
  (size (leds (take n (loop readings first)) ∅) ≤ 1)%nat ∧
  leds (script first readings n) ∅ = ∅.
Proof.
  destruct (calm_loop readings first) as [_ H]. destruct (H n) as [H1 H2].
  split; [done|]. unfold script.
  rewrite leds_app, leds_app, leds_all_off. cbn.
  by apply subseteq_empty_difference_L.
Qed.

End LightsFacts.
